(** * Pistol duel server: shallow embedding and verified properties

    The repository holds three successive versions of one authoritative
    game server.  Two of them carry the behaviour studied here:

    - [src/server.js]: energy clamps, [gameOver]/[winner], rematch
      (module [ServerJs]);
    - [src/unnamed/part_000]: gravity maps, heat and overheat, countdown
      (module [Part000]).

    Numbers.  JavaScript numbers are IEEE-754 doubles.  They are embedded
    here as real numbers ([R]): [+ - * /] are the exact field operations,
    [Math.hypot], [Math.cos], [Math.sin], [Math.abs], [Math.max] are
    [sqrt (x*x + y*y)], [cos], [sin], [Rabs], [Rmax].  Rounding, NaN and
    infinities are therefore outside the model; the one place where the
    code computes with [undefined] and obtains [NaN] (the gravity of a
    room created with an inherited map name) is a separate outcome of
    the loop body, [Part000.LoopNaN].  Where the code rescales by a
    computed quotient or takes a square root (the energy clamp, the
    length of a velocity), the theorems state comparisons and bounds,
    not exact values.  [Date.now()] is an
    integer number of milliseconds ([Z]) and every call of it, like every
    call of [Math.random()], is an explicit argument of the function that
    makes the call.

    Objects.  A [Gun] of [src/server.js] is compared by identity
    ([b.owner !== room.players.blue]); each gun therefore carries the
    object identifier [oid] it received from [new], and the server state
    holds the next free identifier.  WebSocket connections are referred to
    by a connection number; the properties [ws.room] and [ws.player] live
    in a table indexed by that number.

    Property keys.  [rooms[k]] converts [k] to a property key, so that an
    absent [room] field and a never-assigned [ws.room] both address the
    key ["undefined"].  Room fields and [ws.room] are embedded by that
    key.

    Plain objects.  [rooms] and [MAPS] are object literals, so a lookup
    that finds no own property goes on to [Object.prototype]: for the
    twelve names in [inherited] it yields a function or an object, which
    is truthy and is neither a room nor a map.  The own properties of
    [rooms] are a finite map from keys to rooms; the handlers read it
    through a lookup that accounts for the inherited names. *)

From Stdlib Require Import Reals Lra Lia ZArith.
From stdpp Require Import gmap strings list.

Open Scope R_scope.

(** ** JavaScript numbers and comparisons *)

Definition Rltb (a b : R) : bool := if Rlt_dec a b then true else false.
Definition Rleb (a b : R) : bool := if Rle_dec a b then true else false.

(** [a < b], [a > b], [a >= b] of the source. *)
Definition js_lt (a b : R) : bool := Rltb a b.
Definition js_gt (a b : R) : bool := Rltb b a.
Definition js_ge (a b : R) : bool := Rleb b a.

(** [Math.hypot(a, b)]. *)
Definition hypot (a b : R) : R := sqrt (a * a + b * b).

(** The two player slots, ["blue"] and ["white"]. *)
Inductive Slot : Type := Blue | White.

Definition Slot_eqb (a b : Slot) : bool :=
  match a, b with
  | Blue, Blue | White, White => true
  | _, _ => false
  end.

(** The names of the properties of [Object.prototype]: what every plain
    object inherits. *)
Definition inherited (k : string) : bool :=
  existsb (String.eqb k)
    ["constructor"; "__defineGetter__"; "__defineSetter__";
     "hasOwnProperty"; "__lookupGetter__"; "__lookupSetter__";
     "isPrototypeOf"; "propertyIsEnumerable"; "toString"; "valueOf";
     "__proto__"; "toLocaleString"].

(** What [rooms[k]] yields: a room, or a value that is not a room, of
    which the handlers only test the truthiness ([undefined] is the
    falsy case). *)
Inductive Found (A : Type) : Type :=
| IsRoom (r : A)
| NotRoom (is_truthy : bool).
Arguments IsRoom {A} r.
Arguments NotRoom {A} is_truthy.

(** What a message handler does besides changing the state:
    [ws.send({type: "joined", player})] to connection [to]. *)
Record Sent : Type := Joined { to : nat; as_slot : Slot }.

(** A handler either completes with a new state and the frames it sent, or
    is left by an uncaught [TypeError]. *)
Inductive Outcome (S : Type) : Type :=
| Completed (s : S) (sent : list Sent)
| TypeError.
Arguments Completed {S} s sent.
Arguments TypeError {S}.

(** [ws.room] (as a property key) and [ws.player] of a connection. *)
Record Conn : Type := mkConn {
  ws_room : string;
  ws_player : option Slot
}.

(** A connection on which no handler has assigned anything yet. *)
Definition fresh_conn : Conn := mkConn "undefined" None.

(** [room.clients]: the connection stored under each slot name. *)
Record Clients : Type := mkClients {
  c_blue : option nat;
  c_white : option nat
}.

Definition no_clients : Clients := mkClients None None.

(** Truthiness of a property that holds an object or is absent. *)
Definition truthy {A : Type} (o : option A) : bool :=
  match o with Some _ => true | None => false end.

(** [Object.keys(room.clients).length] *)
Definition clients_count (c : Clients) : nat :=
  ((if truthy (c_blue c) then 1 else 0)
   + (if truthy (c_white c) then 1 else 0))%nat.

Definition bind_client (s : Slot) (ws : nat) (c : Clients) : Clients :=
  match s with
  | Blue => mkClients (Some ws) (c_white c)
  | White => mkClients (c_blue c) (Some ws)
  end.

(** ** [src/server.js] *)

Module ServerJs.

Definition GRAVITY : R := 0.02.
Definition RECOIL_FORCE : R := 3.2.
Definition BULLET_SPEED : R := 9.

Definition WALL_RESTITUTION : R := 0.85.
Definition ANGULAR_TRANSFER : R := 0.015.
Definition ROTATION_DAMPING : R := 0.992.
Definition LINEAR_DAMPING : R := 0.998.

Definition MAX_SPEED : R := 7.5.
Definition MAX_ANGULAR_SPEED : R := 0.22.

Definition WIDTH : R := 420.
Definition HEIGHT : R := 640.

(** [class Gun]; [oid] is the identity of the object. *)
Record Gun : Type := mkGun {
  oid : nat;
  g_x : R;
  g_y : R;
  g_vx : R;
  g_vy : R;
  g_angle : R;
  g_av : R;
  g_radius : R
}.

(** An element of [room.bullets]; [b_owner] is the identity of the gun
    stored in [owner: this]. *)
Record Bullet : Type := mkBullet {
  b_x : R;
  b_y : R;
  b_vx : R;
  b_vy : R;
  b_owner : nat
}.

(** [new Gun(x, y)]: [o] is the fresh object identifier, [rnd] the value
    of [Math.random()]. *)
Definition new_Gun (o : nat) (rnd : R) (x y : R) : Gun :=
  mkGun o x y 0 0 (rnd * PI * 2) 0 20.

(** [Gun.shoot(bullets)]; [rnd] is the value of [Math.random()]. *)
Definition shoot (rnd : R) (g : Gun) (bullets : list Bullet)
  : Gun * list Bullet :=
  let a := g_angle g in
  let bullets' :=
    bullets ++ [mkBullet (g_x g + cos a * 32) (g_y g + sin a * 32)
                         (cos a * BULLET_SPEED) (sin a * BULLET_SPEED)
                         (oid g)] in
  (mkGun (oid g) (g_x g) (g_y g)
         (g_vx g - cos a * RECOIL_FORCE)
         (g_vy g - sin a * RECOIL_FORCE)
         (g_angle g)
         (g_av g - (rnd - 0.5) * 0.06)
         (g_radius g),
   bullets').

(** [Gun.applyWallCollision(nx, ny)] *)
Definition applyWallCollision (nx ny : R) (g : Gun) : Gun :=
  let dot := g_vx g * nx + g_vy g * ny in
  if js_lt dot 0 then
    let vx1 := g_vx g - 2 * dot * nx in
    let vy1 := g_vy g - 2 * dot * ny in
    mkGun (oid g) (g_x g) (g_y g)
          (vx1 * WALL_RESTITUTION) (vy1 * WALL_RESTITUTION)
          (g_angle g) (g_av g + dot * ANGULAR_TRANSFER) (g_radius g)
  else g.

Definition set_x (x : R) (g : Gun) : Gun :=
  mkGun (oid g) x (g_y g) (g_vx g) (g_vy g) (g_angle g) (g_av g) (g_radius g).
Definition set_y (y : R) (g : Gun) : Gun :=
  mkGun (oid g) (g_x g) y (g_vx g) (g_vy g) (g_angle g) (g_av g) (g_radius g).
Definition set_v (vx vy : R) (g : Gun) : Gun :=
  mkGun (oid g) (g_x g) (g_y g) vx vy (g_angle g) (g_av g) (g_radius g).
Definition set_av (av : R) (g : Gun) : Gun :=
  mkGun (oid g) (g_x g) (g_y g) (g_vx g) (g_vy g) (g_angle g) av (g_radius g).

(** First part of [Gun.update()]: gravity, integration and damping. *)
Definition integrate (g : Gun) : Gun :=
  let vy1 := g_vy g + GRAVITY in
  mkGun (oid g)
        (g_x g + g_vx g) (g_y g + vy1)
        (g_vx g * LINEAR_DAMPING) (vy1 * LINEAR_DAMPING)
        (g_angle g + g_av g)
        (g_av g * ROTATION_DAMPING)
        (g_radius g).

(** Second part of [Gun.update()]: the energy clamp. *)
Definition clamp (g : Gun) : Gun :=
  let speed := hypot (g_vx g) (g_vy g) in
  let g1 :=
    if js_gt speed MAX_SPEED then
      let s := MAX_SPEED / speed in
      set_v (g_vx g * s) (g_vy g * s) g
    else g in
  let g2 :=
    if js_gt (g_av g1) MAX_ANGULAR_SPEED then set_av MAX_ANGULAR_SPEED g1
    else g1 in
  if js_lt (g_av g2) (- MAX_ANGULAR_SPEED) then set_av (- MAX_ANGULAR_SPEED) g2
  else g2.

(** Third part of [Gun.update()]: the four walls, in source order. *)
Definition walls (g : Gun) : Gun :=
  let g1 :=
    if js_lt (g_x g - g_radius g) 0
    then applyWallCollision 1 0 (set_x (g_radius g) g) else g in
  let g2 :=
    if js_gt (g_x g1 + g_radius g1) WIDTH
    then applyWallCollision (-1) 0 (set_x (WIDTH - g_radius g1) g1) else g1 in
  let g3 :=
    if js_lt (g_y g2 - g_radius g2) 0
    then applyWallCollision 0 1 (set_y (g_radius g2) g2) else g2 in
  if js_gt (g_y g3 + g_radius g3) HEIGHT
  then applyWallCollision 0 (-1) (set_y (HEIGHT - g_radius g3) g3) else g3.

(** [Gun.update()] *)
Definition update (g : Gun) : Gun := walls (clamp (integrate g)).

(** [room.rematchReady]; [rr_undefined] is the property ["undefined"]
    that [room.rematchReady[ws.player] = true] creates when
    [ws.player] was never assigned. *)
Record Ready : Type := mkReady {
  rr_blue : bool;
  rr_white : bool;
  rr_undefined : bool
}.

Record Room : Type := mkRoom {
  blue : Gun;
  white : Gun;
  bullets : list Bullet;
  clients : Clients;
  gameOver : bool;
  winner : option Slot;
  rematchReady : Ready
}.

Definition player (s : Slot) (r : Room) : Gun :=
  match s with Blue => blue r | White => white r end.

(** [createRoom()]: [o] and [S o] are the identifiers of the two new
    guns, [rb] and [rw] the two values of [Math.random()]. *)
Definition createRoom (o : nat) (rb rw : R) : Room :=
  mkRoom (new_Gun o rb 90 (HEIGHT - 120))
         (new_Gun (S o) rw (WIDTH - 90) (HEIGHT - 120))
         [] no_clients false None (mkReady false false false).

(** [resetRoom(room)] *)
Definition resetRoom (o : nat) (rb rw : R) (r : Room) : Room :=
  mkRoom (new_Gun o rb 90 (HEIGHT - 120))
         (new_Gun (S o) rw (WIDTH - 90) (HEIGHT - 120))
         [] (clients r) false None
         (mkReady false false (rr_undefined (rematchReady r))).

(** [hit(b, g)] *)
Definition hit (b : Bullet) (g : Gun) : bool :=
  js_lt (Rabs (b_x b - g_x g)) 20 && js_lt (Rabs (b_y b - g_y g)) 20.

(** The two tests of the tick loop: owner check, then hit box. *)
Definition hits_blue (b : Bullet) (r : Room) : bool :=
  negb (b_owner b =? oid (blue r))%nat && hit b (blue r).
Definition hits_white (b : Bullet) (r : Room) : bool :=
  negb (b_owner b =? oid (white r))%nat && hit b (white r).

Definition out_of_bounds (b : Bullet) : bool :=
  js_lt (b_x b) 0 || js_gt (b_x b) WIDTH
  || js_lt (b_y b) 0 || js_gt (b_y b) HEIGHT.

Definition advance (b : Bullet) : Bullet :=
  mkBullet (b_x b + b_vx b) (b_y b + b_vy b) (b_vx b) (b_vy b) (b_owner b).

Definition set_bullets (l : list Bullet) (r : Room) : Room :=
  mkRoom (blue r) (white r) l (clients r) (gameOver r) (winner r)
         (rematchReady r).
Definition end_game (w : Slot) (r : Room) : Room :=
  mkRoom (blue r) (white r) (bullets r) (clients r) true (Some w)
         (rematchReady r).

(** The callback of [room.bullets.forEach((b, i) => ...)], called on
    the element [b] found at index [i]. *)
Definition bullet_callback (i : nat) (b : Bullet) (r : Room) : Room :=
  let b1 := advance b in
  let r1 := set_bullets (<[i := b1]> (bullets r)) r in
  let r2 := if hits_blue b1 r1 then end_game White r1 else r1 in
  let r3 := if hits_white b1 r2 then end_game Blue r2 else r2 in
  if out_of_bounds b1
  then set_bullets (delete i (bullets r3)) r3
  else r3.

(** [Array.prototype.forEach]: the length is read once; index [k] is
    visited for [k = 0 .. len-1], and the callback runs only where the
    array, as it is by then, still has an element at [k].  [n] counts
    the indices left to visit. *)
Fixpoint forEach_from (n k : nat) (r : Room) : Room :=
  match n with
  | O => r
  | S n' =>
      forEach_from n' (S k)
        match bullets r !! k with
        | Some b => bullet_callback k b r
        | None => r
        end
  end.

Definition bullets_forEach (r : Room) : Room :=
  forEach_from (length (bullets r)) 0 r.

(** Body of the main loop for one room (the state it leaves). *)
Definition tick_room (r : Room) : Room :=
  if gameOver r then r
  else
    let r1 :=
      mkRoom (update (blue r)) (update (white r)) (bullets r) (clients r)
             (gameOver r) (winner r) (rematchReady r) in
    bullets_forEach r1.

(** Connections that receive the [state] frame of a room. *)
Definition state_recipients (r : Room) : list nat :=
  match c_blue (clients r), c_white (clients r) with
  | Some a, Some b => [a; b]
  | Some a, None => [a]
  | None, Some b => [b]
  | None, None => []
  end.

Record Server : Type := mkServer {
  rooms : gmap string Room;
  conns : gmap nat Conn;
  next_oid : nat
}.

Definition init : Server := mkServer ∅ ∅ 0.

Definition conn_of (S : Server) (ws : nat) : Conn :=
  default fresh_conn (conns S !! ws).

(** What the three handlers do to the room they address. *)

(** [ws.player = room.clients.blue ? "white" : "blue";
    room.clients[ws.player] = ws] *)
Definition free_slot (room : Room) : Slot :=
  if truthy (c_blue (clients room)) then White else Blue.

Definition join_room (ws : nat) (room : Room) : Room :=
  mkRoom (blue room) (white room) (bullets room)
         (bind_client (free_slot room) ws (clients room))
         (gameOver room) (winner room) (rematchReady room).

(** [room.players[p].shoot(room.bullets)] *)
Definition shoot_in_room (p : Slot) (rnd : R) (room : Room) : Room :=
  let '(g, bs) := shoot rnd (player p room) (bullets room) in
  match p with
  | Blue => mkRoom g (white room) bs (clients room)
                   (gameOver room) (winner room) (rematchReady room)
  | White => mkRoom (blue room) g bs (clients room)
                    (gameOver room) (winner room) (rematchReady room)
  end.

Definition set_ready (p : option Slot) (y : Ready) : Ready :=
  match p with
  | Some Blue => mkReady true (rr_white y) (rr_undefined y)
  | Some White => mkReady (rr_blue y) true (rr_undefined y)
  | None => mkReady (rr_blue y) (rr_white y) true
  end.

(** [room.rematchReady[p] = true], then [resetRoom] if both are ready;
    the second component tells whether the room was reset. *)
Definition rematch_in_room (p : option Slot) (o : nat) (rb rw : R)
           (room : Room) : Room * bool :=
  let y := set_ready p (rematchReady room) in
  let room1 :=
    mkRoom (blue room) (white room) (bullets room) (clients room)
           (gameOver room) (winner room) y in
  if rr_blue y && rr_white y
  then (resetRoom o rb rw room1, true)
  else (room1, false).

(** [rooms[k]].  No handler of this version assigns [rooms[k]] for an
    inherited name [k] (the test [!rooms[k]] of [join] is false for it),
    so such a name always yields the inherited value. *)
Definition room_at (rs : gmap string Room) (k : string) : Found Room :=
  match rs !! k with
  | Some r => IsRoom r
  | None => NotRoom (inherited k)
  end.

(** The part of [join] that follows the lookup: [rs] and [o] are the
    rooms and the next identifier as the lookup leaves them. *)
Definition enter_room (ws : nat) (key : string) (room : Room)
           (rs : gmap string Room) (o : nat) (S : Server) : Outcome Server :=
  if (2 <=? clients_count (clients room))%nat
  then Completed (mkServer rs (conns S) o) []
  else
    Completed
      (mkServer (<[key := join_room ws room]> rs)
                (<[ws := mkConn key (Some (free_slot room))]> (conns S)) o)
      [Joined ws (free_slot room)].

(** [data.type === "join"]; [key] is the property key of [data.room],
    [rb], [rw] the random numbers drawn if a room is created.  For an
    inherited name, [rooms[key]] is truthy, no room is created,
    [room.clients] is [undefined] and [Object.keys(room.clients)] is a
    [TypeError]. *)
Definition on_join (ws : nat) (key : string) (rb rw : R) (S : Server)
  : Outcome Server :=
  match room_at (rooms S) key with
  | IsRoom r => enter_room ws key r (rooms S) (next_oid S) S
  | NotRoom true => TypeError
  | NotRoom false =>
      let r := createRoom (next_oid S) rb rw in
      enter_room ws key r (<[key := r]> (rooms S)) (2 + next_oid S)%nat S
  end.

(** [data.type === "shoot"]; [rnd] is the random number of the recoil.
    With [ws.player] never assigned, [room.players[ws.player]] is
    [undefined] and the call of its [shoot] is a [TypeError]; so is
    [room.players[ws.player]] when [rooms[ws.room]] is an inherited
    value, which has no [players]. *)
Definition on_shoot (ws : nat) (rnd : R) (S : Server) : Outcome Server :=
  let c := conn_of S ws in
  match room_at (rooms S) (ws_room c) with
  | NotRoom false => Completed S []
  | NotRoom true => TypeError
  | IsRoom room =>
      if gameOver room then Completed S []
      else
        match ws_player c with
        | None => TypeError
        | Some p =>
            Completed
              (mkServer (<[ws_room c := shoot_in_room p rnd room]> (rooms S))
                        (conns S) (next_oid S)) []
        end
  end.

(** [data.type === "rematch"]; an inherited value has no [gameOver],
    and the handler returns. *)
Definition on_rematch (ws : nat) (rb rw : R) (S : Server) : Outcome Server :=
  let c := conn_of S ws in
  match room_at (rooms S) (ws_room c) with
  | NotRoom _ => Completed S []
  | IsRoom room =>
      if negb (gameOver room) then Completed S []
      else
        let '(room', was_reset) :=
          rematch_in_room (ws_player c) (next_oid S) rb rw room in
        Completed
          (mkServer (<[ws_room c := room']> (rooms S)) (conns S)
                    (if was_reset then (2 + next_oid S)%nat
                     else next_oid S)) []
  end.

(** One run of the [setInterval] callback over all rooms. *)
Definition tick (S : Server) : Server :=
  mkServer (tick_room <$> rooms S) (conns S) (next_oid S).

(** The states a room goes through: created by the first [join] for its
    key, then changed by the handlers of the connections that joined it
    and by the main loop. *)
Inductive reachable : Room -> Prop :=
| reach_create (o : nat) (rb rw : R) :
    reachable (createRoom o rb rw)
| reach_join (r : Room) (ws : nat) :
    reachable r -> (clients_count (clients r) < 2)%nat ->
    reachable (join_room ws r)
| reach_shoot (r : Room) (p : Slot) (rnd : R) :
    reachable r -> gameOver r = false ->
    truthy (match p with
            | Blue => c_blue (clients r)
            | White => c_white (clients r)
            end) = true ->
    reachable (shoot_in_room p rnd r)
| reach_rematch (r : Room) (p : option Slot) (o : nat) (rb rw : R) :
    reachable r -> gameOver r = true ->
    reachable (fst (rematch_in_room p o rb rw r))
| reach_tick (r : Room) :
    reachable r -> reachable (tick_room r).

End ServerJs.

(** ** [src/unnamed/part_000] *)

Module Part000.

(** An entry of [MAPS]. *)
Record MapCfg : Type := mkMap {
  name : string;
  gravity : R;
  background : string
}.

(** The value of [MAPS[mapKey]], which a room keeps as [r.map]. *)
Inductive MapVal : Type :=
| MapEntry (m : MapCfg)
    (** one of the three own properties of [MAPS] *)
| MapInherited
    (** a property inherited from [Object.prototype]: truthy, and
        without a [gravity] property *)
| MapUndefined.
    (** no such property *)

(** [MAPS[mapKey]] *)
Definition MAPS (mapKey : string) : MapVal :=
  if String.eqb mapKey "zeroG"
  then MapEntry (mkMap "Zero-G Arena" 0 "space")
  else if String.eqb mapKey "moon"
       then MapEntry (mkMap "Moon Base" 0.02 "moon")
  else if String.eqb mapKey "heavy"
       then MapEntry (mkMap "Heavy Factory" 0.05 "factory")
  else if inherited mapKey then MapInherited
  else MapUndefined.

Definition RECOIL_FORCE : R := 3.2.
Definition BULLET_SPEED : R := 9.
Definition WALL_RESTITUTION : R := 0.85.
Definition ANGULAR_TRANSFER : R := 0.015.
Definition ROTATION_DAMPING : R := 0.992.
Definition LINEAR_DAMPING : R := 0.998.

Definition HEAT_PER_SHOT : R := 1.
Definition MAX_HEAT : R := 6.
Definition COOL_RATE : R := 0.04.
Definition OVERHEAT_COOLDOWN : Z := 10000.

Definition WIDTH : R := 420.
Definition HEIGHT : R := 800.

(** [class Gun] *)
Record Gun : Type := mkGun {
  g_x : R;
  g_y : R;
  g_vx : R;
  g_vy : R;
  g_angle : R;
  g_av : R;
  g_radius : R;
  heat : R;
  overheated : bool;
  overheatUntil : Z
}.

(** An element of [room.bullets]; the owner is a slot name. *)
Record Bullet : Type := mkBullet {
  b_x : R;
  b_y : R;
  b_vx : R;
  b_vy : R;
  b_owner : Slot
}.

(** [new Gun(x, y)]; [rnd] is the value of [Math.random()]. *)
Definition new_Gun (rnd : R) (x y : R) : Gun :=
  mkGun x y 0 0 (rnd * PI * 2) 0 20 0 false 0.

(** [Gun.canShoot()]: the answer and the gun as the call leaves it;
    [now] is the value of [Date.now()]. *)
Definition canShoot (now : Z) (g : Gun) : bool * Gun :=
  if negb (overheated g) then (true, g)
  else if (overheatUntil g <=? now)%Z then
    (true,
     mkGun (g_x g) (g_y g) (g_vx g) (g_vy g) (g_angle g) (g_av g)
           (g_radius g) (MAX_HEAT * 0.4) false (overheatUntil g))
  else (false, g).

(** [Gun.shoot(bullets, owner)]: [t1] is the clock read by [canShoot],
    [t2] the clock read when the gun overheats, [rnd] the value of
    [Math.random()]. *)
Definition shoot (t1 t2 : Z) (rnd : R) (owner : Slot) (g : Gun)
           (bullets : list Bullet) : Gun * list Bullet :=
  let '(ok, g0) := canShoot t1 g in
  if negb ok then (g0, bullets)
  else
    let a := g_angle g0 in
    let bullets' :=
      bullets ++ [mkBullet (g_x g0 + cos a * 32) (g_y g0 + sin a * 32)
                           (cos a * BULLET_SPEED) (sin a * BULLET_SPEED)
                           owner] in
    let h := heat g0 + HEAT_PER_SHOT in
    let hot := js_ge h MAX_HEAT in
    (mkGun (g_x g0) (g_y g0)
           (g_vx g0 - cos a * RECOIL_FORCE)
           (g_vy g0 - sin a * RECOIL_FORCE)
           (g_angle g0)
           (g_av g0 - (rnd - 0.5) * 0.06)
           (g_radius g0)
           h
           (if hot then true else overheated g0)
           (if hot then (t2 + OVERHEAT_COOLDOWN)%Z else overheatUntil g0),
     bullets').

(** [Gun.applyWall(nx, ny)] *)
Definition applyWall (nx ny : R) (g : Gun) : Gun :=
  let d := g_vx g * nx + g_vy g * ny in
  if js_lt d 0 then
    let vx1 := g_vx g - 2 * d * nx in
    let vy1 := g_vy g - 2 * d * ny in
    mkGun (g_x g) (g_y g)
          (vx1 * WALL_RESTITUTION) (vy1 * WALL_RESTITUTION)
          (g_angle g) (g_av g + d * ANGULAR_TRANSFER) (g_radius g)
          (heat g) (overheated g) (overheatUntil g)
  else g.

Definition set_x (x : R) (g : Gun) : Gun :=
  mkGun x (g_y g) (g_vx g) (g_vy g) (g_angle g) (g_av g) (g_radius g)
        (heat g) (overheated g) (overheatUntil g).
Definition set_y (y : R) (g : Gun) : Gun :=
  mkGun (g_x g) y (g_vx g) (g_vy g) (g_angle g) (g_av g) (g_radius g)
        (heat g) (overheated g) (overheatUntil g).
Definition set_heat (h : R) (g : Gun) : Gun :=
  mkGun (g_x g) (g_y g) (g_vx g) (g_vy g) (g_angle g) (g_av g) (g_radius g)
        h (overheated g) (overheatUntil g).

(** First part of [Gun.update(g)]: gravity, integration and damping. *)
Definition integrate (grav : R) (g : Gun) : Gun :=
  let vy1 := g_vy g + grav in
  mkGun (g_x g + g_vx g) (g_y g + vy1)
        (g_vx g * LINEAR_DAMPING) (vy1 * LINEAR_DAMPING)
        (g_angle g + g_av g)
        (g_av g * ROTATION_DAMPING)
        (g_radius g) (heat g) (overheated g) (overheatUntil g).

(** Second part of [Gun.update(g)]: heat decay. *)
Definition cool (g : Gun) : Gun :=
  if negb (overheated g) && js_gt (heat g) 0
  then set_heat (Rmax 0 (heat g - COOL_RATE)) g
  else g.

(** Third part of [Gun.update(g)]: the four walls, in source order. *)
Definition walls (g : Gun) : Gun :=
  let g1 :=
    if js_lt (g_x g - g_radius g) 0
    then applyWall 1 0 (set_x (g_radius g) g) else g in
  let g2 :=
    if js_gt (g_x g1 + g_radius g1) WIDTH
    then applyWall (-1) 0 (set_x (WIDTH - g_radius g1) g1) else g1 in
  let g3 :=
    if js_lt (g_y g2 - g_radius g2) 0
    then applyWall 0 1 (set_y (g_radius g2) g2) else g2 in
  if js_gt (g_y g3 + g_radius g3) HEIGHT
  then applyWall 0 (-1) (set_y (HEIGHT - g_radius g3) g3) else g3.

(** [Gun.update(g)] *)
Definition update (grav : R) (g : Gun) : Gun :=
  walls (cool (integrate grav g)).

Record Room : Type := mkRoom {
  map : MapVal;
  blue : Gun;
  white : Gun;
  bullets : list Bullet;
  clients : Clients;
  started : bool;
  startAt : Z
}.

Definition player (s : Slot) (r : Room) : Gun :=
  match s with Blue => blue r | White => white r end.

(** [createRoom(mapKey)]; [rb], [rw] are the two values of
    [Math.random()]. *)
Definition createRoom (mapKey : string) (rb rw : R) : Room :=
  mkRoom (MAPS mapKey)
         (new_Gun rb 90 (HEIGHT - 160))
         (new_Gun rw (WIDTH - 90) (HEIGHT - 160))
         [] no_clients false 0.

(** [hit(b, g)] *)
Definition hit (b : Bullet) (g : Gun) : bool :=
  js_lt (Rabs (b_x b - g_x g)) 20 && js_lt (Rabs (b_y b - g_y g)) 20.

(** The two tests of the tick loop: owner check, then hit box. *)
Definition hits_blue (b : Bullet) (r : Room) : bool :=
  negb (Slot_eqb (b_owner b) Blue) && hit b (blue r).
Definition hits_white (b : Bullet) (r : Room) : bool :=
  negb (Slot_eqb (b_owner b) White) && hit b (white r).

Definition out_of_bounds (b : Bullet) : bool :=
  js_lt (b_x b) 0 || js_gt (b_x b) WIDTH
  || js_lt (b_y b) 0 || js_gt (b_y b) HEIGHT.

Definition advance (b : Bullet) : Bullet :=
  mkBullet (b_x b + b_vx b) (b_y b + b_vy b) (b_vx b) (b_vy b) (b_owner b).

Definition set_bullets (l : list Bullet) (r : Room) : Room :=
  mkRoom (map r) (blue r) (white r) l (clients r) (started r) (startAt r).
Definition set_started (b : bool) (r : Room) : Room :=
  mkRoom (map r) (blue r) (white r) (bullets r) (clients r) b (startAt r).

(** The callback of [r.bullets.forEach((b, i) => ...)]. *)
Definition bullet_callback (i : nat) (b : Bullet) (r : Room) : Room :=
  let b1 := advance b in
  let r1 := set_bullets (<[i := b1]> (bullets r)) r in
  let r2 := if hits_blue b1 r1 then set_started false r1 else r1 in
  let r3 := if hits_white b1 r2 then set_started false r2 else r2 in
  if out_of_bounds b1
  then set_bullets (delete i (bullets r3)) r3
  else r3.

(** [Array.prototype.forEach], as in [ServerJs.forEach_from]. *)
Fixpoint forEach_from (n k : nat) (r : Room) : Room :=
  match n with
  | O => r
  | S n' =>
      forEach_from n' (S k)
        match bullets r !! k with
        | Some b => bullet_callback k b r
        | None => r
        end
  end.

Definition bullets_forEach (r : Room) : Room :=
  forEach_from (length (bullets r)) 0 r.

(** What one run of the body of the main loop does with a room. *)
Inductive LoopResult : Type :=
| Stepped (r : Room)
    (** the body completes and leaves the room [r] *)
| LoopTypeError
    (** [r.map] is [undefined]: reading [r.map.gravity] throws *)
| LoopNaN.
    (** [r.map] has no [gravity]: the body completes, but
        [update(undefined)] has made [vy] and [y] of both guns [NaN],
        which is not a number of this embedding *)

(** Body of the main loop for one room; [now] is [Date.now()]. *)
Definition tick_room (now : Z) (r : Room) : LoopResult :=
  let r0 :=
    if negb (started r) && negb (startAt r =? 0)%Z && (startAt r <=? now)%Z
    then set_started true r else r in
  if started r0 then
    match map r0 with
    | MapUndefined => LoopTypeError
    | MapInherited => LoopNaN
    | MapEntry m =>
        Stepped (bullets_forEach
                   (mkRoom (map r0)
                           (update (gravity m) (blue r0))
                           (update (gravity m) (white r0))
                           (bullets r0) (clients r0) (started r0)
                           (startAt r0)))
    end
  else Stepped r0.

(** The table [rooms].  The entries of the finite map are its own
    properties, with one exception: the assignment
    [rooms["__proto__"] = room] does not create an own property, it
    makes [room] the prototype of [rooms], and [rooms["__proto__"]] then
    reads that room back.  The entry under ["__proto__"], when there is
    one, stands for that prototype. *)
Record Server : Type := mkServer {
  rooms : gmap string Room;
  conns : gmap nat Conn
}.

Definition init : Server := mkServer ∅ ∅.

Definition conn_of (S : Server) (ws : nat) : Conn :=
  default fresh_conn (conns S !! ws).

Definition set_clients (c : Clients) (r : Room) : Room :=
  mkRoom (map r) (blue r) (white r) (bullets r) c (started r) (startAt r).

(** [Object.values(rooms)]: the own properties only, so the room that is
    the prototype of [rooms] is not among them. *)
Definition loop_rooms (S : Server) : gmap string Room :=
  delete "__proto__" (rooms S).

(** Truthiness of [pr[k]] for a room object [pr]: its six own
    properties, then those of [Object.prototype]. *)
Definition room_property (pr : Room) (k : string) : bool :=
  if String.eqb k "map"
  then match map pr with MapUndefined => false | _ => true end
  else if String.eqb k "players" || String.eqb k "bullets"
          || String.eqb k "clients"
       then true
  else if String.eqb k "started" then started pr
  else if String.eqb k "startAt" then negb (startAt pr =? 0)%Z
  else inherited k.

(** [rooms[k]]: an own property; else, through the prototype chain, a
    property of the room that is the prototype of [rooms], if there is
    one, or of [Object.prototype]. *)
Definition room_at (rs : gmap string Room) (k : string) : Found Room :=
  match rs !! k with
  | Some r => IsRoom r
  | None =>
      NotRoom match rs !! "__proto__" with
              | Some pr => room_property pr k
              | None => inherited k
              end
  end.

(** [d.type === "create"]; [key] and [mapKey] are the property keys of
    [d.room] and [d.map].  The room is assigned whatever [rooms[key]]
    was; [rooms[d.room].clients.blue = ws] then reads it back (for the
    key ["__proto__"], as the new prototype of [rooms]). *)
Definition on_create (ws : nat) (key mapKey : string) (rb rw : R)
           (S : Server) : Outcome Server :=
  let r := createRoom mapKey rb rw in
  Completed
    (mkServer (<[key := set_clients (bind_client Blue ws (clients r)) r]>
                 (rooms S))
              (<[ws := mkConn key (Some Blue)]> (conns S)))
    [Joined ws Blue].

(** [d.type === "join"]; [now] is [Date.now()].  A truthy value that is
    not a room has no [clients], and [r.clients.white] is a
    [TypeError]. *)
Definition on_join (ws : nat) (key : string) (now : Z) (S : Server)
  : Outcome Server :=
  match room_at (rooms S) key with
  | NotRoom false => Completed S []
  | NotRoom true => TypeError
  | IsRoom r =>
      if truthy (c_white (clients r)) then Completed S []
      else
        let r' :=
          mkRoom (map r) (blue r) (white r) (bullets r)
                 (bind_client White ws (clients r)) false (now + 3000)%Z in
        Completed
          (mkServer (<[key := r']> (rooms S))
                    (<[ws := mkConn key (Some White)]> (conns S)))
          [Joined ws White]
  end.

(** [r.players[p].shoot(r.bullets, p)] *)
Definition shoot_in_room (p : Slot) (t1 t2 : Z) (rnd : R) (r : Room)
  : Room :=
  let '(g, bs) := shoot t1 t2 rnd p (player p r) (bullets r) in
  match p with
  | Blue => mkRoom (map r) g (white r) bs (clients r)
                   (started r) (startAt r)
  | White => mkRoom (map r) (blue r) g bs (clients r)
                    (started r) (startAt r)
  end.

(** [d.type === "shoot"].  With [ws.player] never assigned,
    [r.players[ws.player]] is [undefined] and the call of its [shoot]
    is a [TypeError].  A value that is not a room has no [started], and
    the handler returns. *)
Definition on_shoot (ws : nat) (t1 t2 : Z) (rnd : R) (S : Server)
  : Outcome Server :=
  let c := conn_of S ws in
  match room_at (rooms S) (ws_room c) with
  | NotRoom _ => Completed S []
  | IsRoom r =>
      if negb (started r) then Completed S []
      else
        match ws_player c with
        | None => TypeError
        | Some p =>
            Completed
              (mkServer (<[ws_room c := shoot_in_room p t1 t2 rnd r]>
                           (rooms S))
                        (conns S)) []
        end
  end.

End Part000.

(** * Auxiliary definitions used in the statements *)

Module ServerJsAux.
Import ServerJs.

(** Speed of a gun: the magnitude of its velocity vector. *)
Definition speed_of (g : Gun) : R := hypot (g_vx g) (g_vy g).

(** The two horizontal walls of [walls], then the two vertical ones. *)
Definition walls_x (g : Gun) : Gun :=
  let g1 :=
    if js_lt (g_x g - g_radius g) 0
    then applyWallCollision 1 0 (set_x (g_radius g) g) else g in
  if js_gt (g_x g1 + g_radius g1) WIDTH
  then applyWallCollision (-1) 0 (set_x (WIDTH - g_radius g1) g1) else g1.

Definition walls_y (g : Gun) : Gun :=
  let g3 :=
    if js_lt (g_y g - g_radius g) 0
    then applyWallCollision 0 1 (set_y (g_radius g) g) else g in
  if js_gt (g_y g3 + g_radius g3) HEIGHT
  then applyWallCollision 0 (-1) (set_y (HEIGHT - g_radius g3) g3) else g3.

(** A gun drifting into the left wall while spinning at the clamped
    rate. *)
Definition wall_gun : Gun := mkGun 0 22 300 (-4) 0 0 (-0.22) 20.

(** The winners assigned by one call of the loop callback on the
    element [b], in the order of the assignments. *)
Definition callback_hits (b : Bullet) (r : Room) : list Slot :=
  (if hits_blue (advance b) r then [White] else [])
  ++ (if hits_white (advance b) r then [Blue] else []).

(** The winners assigned during [forEach_from n k r], in order. *)
Fixpoint hit_trace (n k : nat) (r : Room) : list Slot :=
  match n with
  | O => []
  | S n' =>
      match bullets r !! k with
      | Some b =>
          callback_hits b r ++ hit_trace n' (S k) (bullet_callback k b r)
      | None => hit_trace n' (S k) r
      end
  end.

(** The hits detected by one tick of a running room, in order. *)
Definition tick_hits (r : Room) : list Slot :=
  let r1 :=
    mkRoom (update (blue r)) (update (white r)) (bullets r) (clients r)
           (gameOver r) (winner r) (rematchReady r) in
  hit_trace (length (bullets r1)) 0 r1.

(** First-hit-wins, in the words of the specification: the winner of a
    tick is the one of the first hit detected in it. *)
Definition first_hit_wins (r : Room) : Prop :=
  forall w, head (tick_hits r) = Some w -> winner (tick_room r) = Some w.

(** Two guns at rest and two projectiles, each about to reach the
    opponent of its owner in the same tick. *)
Definition duel_room : Room :=
  mkRoom (mkGun 0 90 520 0 0 0 0 20)
         (mkGun 1 330 520 0 0 0 0 20)
         [mkBullet 321 520 9 0 0; mkBullet 99 520 (-9) 0 1]
         (mkClients (Some 1%nat) (Some 2%nat)) false None
         (mkReady false false false).

(** The hit tests that hold for the projectiles of [l] once each is
    moved by one step, against the guns of [r], in array order. *)
Definition hits_of (l : list Bullet) (r : Room) : list Slot :=
  flat_map (fun b => callback_hits b r) l.

(** The guns of [r] as the tick leaves them, before the projectiles are
    visited. *)
Definition guns_updated (r : Room) : Room :=
  mkRoom (update (blue r)) (update (white r)) (bullets r) (clients r)
         (gameOver r) (winner r) (rematchReady r).

(** A match in which the gun of blue points straight down
    ([Math.random()] gave 0.25, an angle of [PI/2]): the room is created,
    two connections join, blue fires, the loop runs once, blue fires
    again. *)
Definition volley_room : Room :=
  shoot_in_room Blue 0.5
    (tick_room
       (shoot_in_room Blue 0.5
          (join_room 2 (join_room 1 (createRoom 0 0.25 0.5))))).

(** The same match 8 ticks later: the first projectile is one step from
    the lower edge, the second follows it. *)
Definition volley_at_edge : Room := Nat.iter 8 tick_room volley_room.

(** The match [k] ticks after the second shot: both projectiles fall
    straight down at 9 per tick, and white falls slowly. *)
Definition falling (k : nat) (r : Room) : Prop :=
  gameOver r = false
  /\ oid (blue r) = 0%nat
  /\ (exists b1 b2,
        bullets r = [b1; b2]
        /\ b_x b1 = 90 /\ b_y b1 = 561 + 9 * INR k
        /\ b_vx b1 = 0 /\ b_vy b1 = 9 /\ b_owner b1 = 0%nat
        /\ b_x b2 = 90 /\ b_y b2 = 548.82 + 9 * INR k
        /\ b_vx b2 = 0 /\ b_vy b2 = 9 /\ b_owner b2 = 0%nat)
  /\ oid (white r) = 1%nat
  /\ g_x (white r) = 330 /\ g_vx (white r) = 0 /\ g_av (white r) = 0
  /\ g_radius (white r) = 20
  /\ 520 <= g_y (white r) <= 520 + 0.42 * INR (S k)
  /\ 0 <= g_vy (white r) <= 0.02 * INR (S k).

(** A room in which blue's own projectile is about to pass through
    blue's hit box. *)
Definition self_room : Room :=
  mkRoom (mkGun 0 90 520 0 0 0 0 20)
         (mkGun 1 330 520 0 0 0 0 20)
         [mkBullet 81 520 9 0 0]
         (mkClients (Some 1%nat) (Some 2%nat)) false None
         (mkReady false false false).

(** Every gun of a room has radius 20. *)
Definition guns_20 (r : Room) : Prop :=
  g_radius (blue r) = 20 /\ g_radius (white r) = 20.

(** A match: the room is created, two connections join, blue (whose
    gun happens to point at white) fires once. *)
Definition fired_room : Room :=
  shoot_in_room Blue 0.5 (join_room 2 (join_room 1 (createRoom 0 0 0.5))).

(** The same match 21 ticks later. *)
Definition scored_room : Room := Nat.iter 21 tick_room fired_room.

(** The match [k] ticks after the shot, while the projectile is on its
    way: it flies level at 9 per tick and white falls slowly. *)
Definition flying (k : nat) (r : Room) : Prop :=
  gameOver r = false
  /\ oid (blue r) = 0%nat
  /\ (exists b, bullets r = [b]
                /\ b_x b = 122 + 9 * INR k /\ b_y b = 520
                /\ b_vx b = 9 /\ b_vy b = 0 /\ b_owner b = 0%nat)
  /\ oid (white r) = 1%nat
  /\ g_x (white r) = 330 /\ g_vx (white r) = 0 /\ g_av (white r) = 0
  /\ g_radius (white r) = 20
  /\ 520 <= g_y (white r) <= 520 + 0.42 * INR k
  /\ 0 <= g_vy (white r) <= 0.02 * INR k.

End ServerJsAux.

Module Part000Aux.
Import Part000.

(** The operations a match applies to one of its guns: a fire action
    (the three values read by [shoot]) and an integration step (the
    gravity of the map). *)
Inductive GunOp : Type :=
| Fire (t1 t2 : Z) (rnd : R)
| Integrate (grav : R).

Definition apply_op (owner : Slot) (s : Gun * list Bullet) (op : GunOp)
  : Gun * list Bullet :=
  match op with
  | Fire t1 t2 rnd => shoot t1 t2 rnd owner (fst s) (snd s)
  | Integrate grav => (update grav (fst s), snd s)
  end.

Definition run_ops (owner : Slot) (ops : list GunOp)
           (s : Gun * list Bullet) : Gun * list Bullet :=
  fold_left (apply_op owner) ops s.

(** What the heat of a gun satisfies throughout. *)
Definition heat_ok (g : Gun) : Prop :=
  0 <= heat g < MAX_HEAT + HEAT_PER_SHOT
  /\ (overheated g = false -> heat g < MAX_HEAT).

(** Five shots, one integration step, two more shots. *)
Definition burst : list GunOp :=
  [Fire 0 0 0.5; Fire 0 0 0.5; Fire 0 0 0.5; Fire 0 0 0.5; Fire 0 0 0.5;
   Integrate 0.02; Fire 16 16 0.5; Fire 16 16 0.5].

(** The four wall tests of [walls], one at a time. *)
Definition wall_left (g : Gun) : Gun :=
  if js_lt (g_x g - g_radius g) 0
  then applyWall 1 0 (set_x (g_radius g) g) else g.
Definition wall_right (g : Gun) : Gun :=
  if js_gt (g_x g + g_radius g) WIDTH
  then applyWall (-1) 0 (set_x (WIDTH - g_radius g) g) else g.
Definition wall_top (g : Gun) : Gun :=
  if js_lt (g_y g - g_radius g) 0
  then applyWall 0 1 (set_y (g_radius g) g) else g.
Definition wall_bottom (g : Gun) : Gun :=
  if js_gt (g_y g + g_radius g) HEIGHT
  then applyWall 0 (-1) (set_y (HEIGHT - g_radius g) g) else g.

(** A fire action as a [GunOp]. *)
Definition fire_of (f : Z * Z * R) : GunOp :=
  Fire (fst (fst f)) (snd (fst f)) (snd f).

End Part000Aux.

(** * Further definitions: invariants and runs *)

Module ServerJsMore.
Import ServerJs ServerJsAux.

(** The rectangle in which the walls keep the centre of a gun. *)
Definition in_arena (g : Gun) : Prop :=
  20 <= g_x g <= WIDTH - 20 /\ 20 <= g_y g <= HEIGHT - 20.

(** The two guns of a room are different objects and every projectile
    refers to one of them. *)
Definition owners_ok (r : Room) : Prop :=
  oid (blue r) <> oid (white r)
  /\ Forall (fun b => b_owner b = oid (blue r) \/ b_owner b = oid (white r))
            (bullets r).

(** [b'] is what one tick may leave of a projectile of the list [l0]:
    the projectile itself, not visited, or the projectile moved by one
    step and still inside the arena. *)
Definition moved_at_most_once (l0 : list Bullet) (b' : Bullet) : Prop :=
  exists b, b ∈ l0
            /\ (b' = b \/ (b' = advance b /\ out_of_bounds b' = false)).

(** [room.clients[p]] *)
Definition client (p : Slot) (r : Room) : option nat :=
  match p with
  | Blue => c_blue (clients r)
  | White => c_white (clients r)
  end.

(** The messages of the protocol, as the handlers read them. *)
Inductive Msg : Type :=
| MJoin (key : string) (rb rw : R)
| MShoot (rnd : R)
| MRematch (rb rw : R).

(** [ws.on("message", ...)] for a parsed message. *)
Definition on_message (ws : nat) (m : Msg) (S : Server) : Outcome Server :=
  match m with
  | MJoin key rb rw => on_join ws key rb rw S
  | MShoot rnd => on_shoot ws rnd S
  | MRematch rb rw => on_rematch ws rb rw S
  end.

(** The states of the server: the initial one, then any interleaving of
    handled messages and runs of the main loop. *)
Inductive server_reachable : Server -> Prop :=
| sr_init : server_reachable init
| sr_message (S S' : Server) (ws : nat) (m : Msg) (out : list Sent) :
    server_reachable S -> on_message ws m S = Completed S' out ->
    server_reachable S'
| sr_tick (S : Server) :
    server_reachable S -> server_reachable (tick S).

(** Every connection that has sent a successful [join] holds a slot, its
    room exists, and the room records it as the client of that slot. *)
Definition conns_bound (S : Server) : Prop :=
  forall ws c,
    conns S !! ws = Some c ->
    exists p room,
      ws_player c = Some p
      /\ rooms S !! ws_room c = Some room
      /\ client p room = Some ws.

(** A gun moving faster than [MAX_SPEED]. *)
Definition fast_gun : Gun := mkGun 0 200 300 10 0 0 0 20.

(** A room that blue has won, and a server that holds it with the
    connection of blue. *)
Definition over_room : Room :=
  mkRoom (mkGun 0 90 520 0 0 0 0 20) (mkGun 1 330 520 0 0 0 0 20)
         [mkBullet 330 520 9 0 0]
         (mkClients (Some 1%nat) (Some 2%nat)) true (Some Blue)
         (mkReady false false false).

Definition over_server : Server :=
  mkServer {[ "R1" := over_room ]} {[ 1%nat := mkConn "R1" (Some Blue) ]} 2.

(** The key of the room that a message of connection [ws] addresses. *)
Definition addressed (S : Server) (ws : nat) (m : Msg) : string :=
  match m with
  | MJoin key _ _ => key
  | MShoot _ | MRematch _ _ => ws_room (conn_of S ws)
  end.

End ServerJsMore.

Module Part000More.
Import Part000 Part000Aux.

(** The rectangle in which the walls keep the centre of a gun. *)
Definition in_arena (g : Gun) : Prop :=
  20 <= g_x g <= WIDTH - 20 /\ 20 <= g_y g <= HEIGHT - 20.

(** All clock readings of the fire actions [fs] fall in a window that
    starts at [t0] and is shorter than the cooldown. *)
Definition within_cooldown (t0 : Z) (fs : list (Z * Z * R)) : Prop :=
  Forall (fun f => (t0 <= snd (fst f))%Z
                   /\ (fst (fst f) < t0 + OVERHEAT_COOLDOWN)%Z) fs.



(** A gun that overheated at time 0. *)
Definition hot_gun : Gun := mkGun 90 640 0 0 0 0 20 6 true 10000.

(** A gun with some heat left, not overheated. *)
Definition warm_gun : Gun := mkGun 90 640 0 0 0 0 20 3 false 0.

(** A running room of the map ["moon"] whose blue gun is about to cross
    the left wall. *)
Definition wall_room : Room :=
  mkRoom (MAPS "moon") (mkGun 22 300 (-4) 0 0 0 20 0 false 0)
         (new_Gun 0.5 330 640) []
         (mkClients (Some 1%nat) (Some 2%nat)) true 3000.

(** Two fire actions five milliseconds apart. *)
Definition two_shots : list (Z * Z * R) :=
  [(0%Z, 0%Z, 0.5); (5%Z, 5%Z, 0.5)].

End Part000More.

(** * Properties *)

(** ** Comparisons *)

Lemma Rltb_true (a b : R) : Rltb a b = true <-> a < b.
Proof. unfold Rltb. destruct (Rlt_dec a b); split; intros; try easy. Qed.

Lemma Rltb_false (a b : R) : Rltb a b = false <-> b <= a.
Proof.
  unfold Rltb. destruct (Rlt_dec a b); split; intros; try easy; lra.
Qed.

Lemma Rleb_true (a b : R) : Rleb a b = true <-> a <= b.
Proof. unfold Rleb. destruct (Rle_dec a b); split; intros; try easy. Qed.

Lemma Rleb_false (a b : R) : Rleb a b = false <-> b < a.
Proof.
  unfold Rleb. destruct (Rle_dec a b); split; intros; try easy; lra.
Qed.

(** Settles every comparison of the goal whose truth [lra] can see. *)
Ltac js_cmp :=
  repeat match goal with
    | |- context [Rltb ?a ?b] =>
        first [ rewrite (proj2 (Rltb_true a b)) by lra
              | rewrite (proj2 (Rltb_false a b)) by lra ]
    | |- context [Rleb ?a ?b] =>
        first [ rewrite (proj2 (Rleb_true a b)) by lra
              | rewrite (proj2 (Rleb_false a b)) by lra ]
    end.

Lemma hypot_nonneg (a b : R) : 0 <= hypot a b.
Proof. apply sqrt_pos. Qed.

Lemma hypot_sqr (a b : R) : hypot a b * hypot a b = a * a + b * b.
Proof. unfold hypot. apply sqrt_sqrt. nra. Qed.

Lemma hypot_le (a b m : R) : 0 <= m -> a * a + b * b <= m * m -> hypot a b <= m.
Proof.
  intros Hm H. pose proof (hypot_nonneg a b). pose proof (hypot_sqr a b). nra.
Qed.

(** ** The hit box (C8) *)

(** C8.  In both versions [hit(b, g)] holds exactly when the horizontal
    and the vertical distance between the centres are both strictly below
    20; a projectile at offset (19,19) from the body is a hit, one at
    offset (20,0) is not. *)
Theorem hit_box_exclusive_20 :
  (forall b g, ServerJs.hit b g = true <->
     Rabs (ServerJs.b_x b - ServerJs.g_x g) < 20
     /\ Rabs (ServerJs.b_y b - ServerJs.g_y g) < 20)
  /\ (forall g vx vy o,
        ServerJs.hit
          (ServerJs.mkBullet (ServerJs.g_x g + 19) (ServerJs.g_y g + 19) vx vy o)
          g = true)
  /\ (forall g vx vy o,
        ServerJs.hit
          (ServerJs.mkBullet (ServerJs.g_x g + 20) (ServerJs.g_y g + 0) vx vy o)
          g = false)
  /\ (forall b g, Part000.hit b g = true <->
        Rabs (Part000.b_x b - Part000.g_x g) < 20
        /\ Rabs (Part000.b_y b - Part000.g_y g) < 20)
  /\ (forall g vx vy o,
        Part000.hit
          (Part000.mkBullet (Part000.g_x g + 19) (Part000.g_y g + 19) vx vy o)
          g = true)
  /\ (forall g vx vy o,
        Part000.hit
          (Part000.mkBullet (Part000.g_x g + 20) (Part000.g_y g + 0) vx vy o)
          g = false).
Proof.
  assert (A19 : forall u, Rabs (u + 19 - u) < 20).
  { intros u. replace (u + 19 - u) with 19 by lra.
    rewrite Rabs_pos_eq; lra. }
  assert (A20 : forall u, 20 <= Rabs (u + 20 - u)).
  { intros u. replace (u + 20 - u) with 20 by lra.
    rewrite Rabs_pos_eq; lra. }
  repeat split.
  - unfold ServerJs.hit, js_lt in H. apply andb_prop in H as [H _].
    now apply Rltb_true.
  - unfold ServerJs.hit, js_lt in H. apply andb_prop in H as [_ H].
    now apply Rltb_true.
  - intros [H1 H2]. unfold ServerJs.hit, js_lt.
    apply andb_true_intro; split; now apply Rltb_true.
  - intros g vx vy o. unfold ServerJs.hit, js_lt; cbn.
    apply andb_true_intro; split; apply Rltb_true; apply A19.
  - intros g vx vy o. unfold ServerJs.hit, js_lt; cbn.
    apply andb_false_intro1. apply Rltb_false. apply A20.
  - unfold Part000.hit, js_lt in H. apply andb_prop in H as [H _].
    now apply Rltb_true.
  - unfold Part000.hit, js_lt in H. apply andb_prop in H as [_ H].
    now apply Rltb_true.
  - intros [H1 H2]. unfold Part000.hit, js_lt.
    apply andb_true_intro; split; now apply Rltb_true.
  - intros g vx vy o. unfold Part000.hit, js_lt; cbn.
    apply andb_true_intro; split; apply Rltb_true; apply A19.
  - intros g vx vy o. unfold Part000.hit, js_lt; cbn.
    apply andb_false_intro1. apply Rltb_false. apply A20.
Qed.

(** ** The energy clamp (C2) *)

Section EnergyClamp.
Import ServerJs ServerJsAux.

Lemma clamp_speed (g : Gun) : speed_of (clamp g) <= MAX_SPEED.
Proof.
  unfold clamp, js_gt, js_lt, speed_of.
  set (h := hypot (g_vx g) (g_vy g)).
  assert (Hlin :
    hypot (g_vx (if Rltb MAX_SPEED h
                 then set_v (g_vx g * (MAX_SPEED / h))
                            (g_vy g * (MAX_SPEED / h)) g else g))
          (g_vy (if Rltb MAX_SPEED h
                 then set_v (g_vx g * (MAX_SPEED / h))
                            (g_vy g * (MAX_SPEED / h)) g else g))
    <= MAX_SPEED).
  { destruct (Rltb MAX_SPEED h) eqn:E.
    - apply Rltb_true in E. cbn.
      pose proof (hypot_sqr (g_vx g) (g_vy g)) as Hs. fold h in Hs.
      unfold MAX_SPEED in *.
      apply hypot_le; [lra|].
      replace (g_vx g * (7.5 / h) * (g_vx g * (7.5 / h))
               + g_vy g * (7.5 / h) * (g_vy g * (7.5 / h)))
        with ((g_vx g * g_vx g + g_vy g * g_vy g) * (7.5 / h * (7.5 / h)))
        by ring.
      rewrite <- Hs.
      replace (h * h * (7.5 / h * (7.5 / h))) with (7.5 * 7.5)
        by (field; lra).
      lra.
    - apply Rltb_false in E. exact E. }
  repeat match goal with
         | |- context [if ?c then _ else _] => destruct c
         end; cbn in *; exact Hlin.
Qed.

Lemma clamp_av (g : Gun) :
  - MAX_ANGULAR_SPEED <= g_av (clamp g) <= MAX_ANGULAR_SPEED.
Proof.
  unfold clamp, js_gt, js_lt.
  destruct (Rltb MAX_SPEED _); cbn;
    destruct (Rltb MAX_ANGULAR_SPEED (g_av g)) eqn:E1; cbn;
    (destruct (Rltb _ (- MAX_ANGULAR_SPEED)) eqn:E2; cbn);
    try apply Rltb_true in E1; try apply Rltb_false in E1;
    try apply Rltb_true in E2; try apply Rltb_false in E2;
    unfold MAX_ANGULAR_SPEED in *; lra.
Qed.

(** One wall response along a unit normal: the speed does not grow, the
    angular velocity does not grow and drops by at most
    [speed * ANGULAR_TRANSFER]. *)
Lemma applyWallCollision_bounds (nx ny : R) (g : Gun) :
  nx * nx + ny * ny = 1 ->
  speed_of (applyWallCollision nx ny g) <= speed_of g
  /\ g_av (applyWallCollision nx ny g) <= g_av g
  /\ g_av g - speed_of g * ANGULAR_TRANSFER
     <= g_av (applyWallCollision nx ny g).
Proof.
  intros Hn. unfold applyWallCollision, js_lt.
  set (d := g_vx g * nx + g_vy g * ny).
  pose proof (hypot_nonneg (g_vx g) (g_vy g)) as H0.
  pose proof (hypot_sqr (g_vx g) (g_vy g)) as Hs.
  destruct (Rltb d 0) eqn:E.
  - apply Rltb_true in E. unfold speed_of; cbn.
    unfold WALL_RESTITUTION, ANGULAR_TRANSFER.
    assert (Hcs : d * d <= g_vx g * g_vx g + g_vy g * g_vy g).
    { assert (Hd : g_vx g * g_vx g + g_vy g * g_vy g - d * d
                   = (g_vx g * ny - g_vy g * nx) * (g_vx g * ny - g_vy g * nx)
                     + (g_vx g * g_vx g + g_vy g * g_vy g)
                       * (1 - (nx * nx + ny * ny))
                     + (1 - (nx * nx + ny * ny)) * 0).
      { unfold d. ring. }
      rewrite Hn in Hd.
      pose proof (Rle_0_sqr (g_vx g * ny - g_vy g * nx)) as Hq.
      unfold Rsqr in Hq. lra. }
    assert (Hrefl :
      (g_vx g - 2 * d * nx) * (g_vx g - 2 * d * nx)
      + (g_vy g - 2 * d * ny) * (g_vy g - 2 * d * ny)
      = g_vx g * g_vx g + g_vy g * g_vy g).
    { transitivity (g_vx g * g_vx g + g_vy g * g_vy g
                    - 4 * d * d * (1 - (nx * nx + ny * ny))).
      - unfold d. ring.
      - rewrite Hn. ring. }
    repeat split.
    + apply hypot_le; [exact H0|]. rewrite Hs. nra.
    + lra.
    + assert (- d <= hypot (g_vx g) (g_vy g)) by nra. lra.
  - unfold speed_of, ANGULAR_TRANSFER. repeat split; try lra.
Qed.

End EnergyClamp.

Section Walls.
Import ServerJs ServerJsAux.

Lemma walls_split (g : Gun) : walls g = walls_y (walls_x g).
Proof. reflexivity. Qed.

Lemma applyWallCollision_keeps (nx ny : R) (g : Gun) :
  oid (applyWallCollision nx ny g) = oid g
  /\ g_x (applyWallCollision nx ny g) = g_x g
  /\ g_y (applyWallCollision nx ny g) = g_y g
  /\ g_radius (applyWallCollision nx ny g) = g_radius g.
Proof.
  unfold applyWallCollision. destruct (js_lt _ 0); cbn; auto.
Qed.

(** With the radius 20 of every gun, at most one horizontal wall
    responds. *)
Lemma walls_x_bounds (g : Gun) :
  g_radius g = 20 ->
  speed_of (walls_x g) <= speed_of g
  /\ g_av (walls_x g) <= g_av g
  /\ g_av g - speed_of g * ANGULAR_TRANSFER <= g_av (walls_x g)
  /\ g_radius (walls_x g) = 20
  /\ oid (walls_x g) = oid g.
Proof.
  intros Hr. unfold walls_x, js_lt, js_gt.
  pose proof (hypot_nonneg (g_vx g) (g_vy g)) as H0. fold (speed_of g) in H0.
  unfold ANGULAR_TRANSFER.
  destruct (Rltb (g_x g - g_radius g) 0) eqn:E1.
  - set (g1 := applyWallCollision 1 0 (set_x (g_radius g) g)).
    destruct (applyWallCollision_keeps 1 0 (set_x (g_radius g) g))
      as (Ho & Hx & _ & Hrad).
    fold g1 in Ho, Hx, Hrad. cbn in Ho, Hx, Hrad.
    rewrite Hx, Hrad, Hr. unfold WIDTH. js_cmp.
    destruct (applyWallCollision_bounds 1 0 (set_x (g_radius g) g))
      as (Hs & Ha & Hb); [lra|].
    fold g1 in Hs, Ha, Hb. unfold ANGULAR_TRANSFER in Hb.
    change (speed_of (set_x (g_radius g) g)) with (speed_of g) in *.
    cbn in Ha, Hb. repeat split; try assumption; congruence.
  - destruct (Rltb WIDTH (g_x g + g_radius g)) eqn:E2.
    + set (g1 := applyWallCollision (-1) 0 (set_x (WIDTH - g_radius g) g)).
      destruct (applyWallCollision_keeps (-1) 0
                  (set_x (WIDTH - g_radius g) g)) as (Ho & _ & _ & Hrad).
      destruct (applyWallCollision_bounds (-1) 0
                  (set_x (WIDTH - g_radius g) g)) as (Hs & Ha & Hb); [lra|].
      fold g1 in Ho, Hrad, Hs, Ha, Hb. unfold ANGULAR_TRANSFER in Hb.
      change (speed_of (set_x (WIDTH - g_radius g) g)) with (speed_of g) in *.
      cbn in Ho, Hrad, Ha, Hb. repeat split; try assumption; congruence.
    + repeat split; try lra; assumption.
Qed.

Lemma walls_y_bounds (g : Gun) :
  g_radius g = 20 ->
  speed_of (walls_y g) <= speed_of g
  /\ g_av (walls_y g) <= g_av g
  /\ g_av g - speed_of g * ANGULAR_TRANSFER <= g_av (walls_y g)
  /\ g_radius (walls_y g) = 20
  /\ oid (walls_y g) = oid g.
Proof.
  intros Hr. unfold walls_y, js_lt, js_gt.
  pose proof (hypot_nonneg (g_vx g) (g_vy g)) as H0. fold (speed_of g) in H0.
  unfold ANGULAR_TRANSFER.
  destruct (Rltb (g_y g - g_radius g) 0) eqn:E1.
  - set (g1 := applyWallCollision 0 1 (set_y (g_radius g) g)).
    destruct (applyWallCollision_keeps 0 1 (set_y (g_radius g) g))
      as (Ho & _ & Hy & Hrad).
    fold g1 in Ho, Hy, Hrad. cbn in Ho, Hy, Hrad.
    rewrite Hy, Hrad, Hr. unfold HEIGHT. js_cmp.
    destruct (applyWallCollision_bounds 0 1 (set_y (g_radius g) g))
      as (Hs & Ha & Hb); [lra|].
    fold g1 in Hs, Ha, Hb. unfold ANGULAR_TRANSFER in Hb.
    change (speed_of (set_y (g_radius g) g)) with (speed_of g) in *.
    cbn in Ha, Hb. repeat split; try assumption; congruence.
  - destruct (Rltb HEIGHT (g_y g + g_radius g)) eqn:E2.
    + set (g1 := applyWallCollision 0 (-1) (set_y (HEIGHT - g_radius g) g)).
      destruct (applyWallCollision_keeps 0 (-1)
                  (set_y (HEIGHT - g_radius g) g)) as (Ho & _ & _ & Hrad).
      destruct (applyWallCollision_bounds 0 (-1)
                  (set_y (HEIGHT - g_radius g) g)) as (Hs & Ha & Hb); [lra|].
      fold g1 in Ho, Hrad, Hs, Ha, Hb. unfold ANGULAR_TRANSFER in Hb.
      change (speed_of (set_y (HEIGHT - g_radius g) g)) with (speed_of g) in *.
      cbn in Ho, Hrad, Ha, Hb. repeat split; try assumption; congruence.
    + repeat split; try lra; assumption.
Qed.

End Walls.

Section EnergyClampClaim.
Import ServerJs ServerJsAux.

(** Reduces record projections and setters only, leaving the real
    arithmetic untouched. *)
Ltac gun_simpl :=
  cbn [oid g_x g_y g_vx g_vy g_angle g_av g_radius
       set_x set_y set_v set_av].

Lemma clamp_keeps (g : Gun) :
  g_radius (clamp g) = g_radius g /\ oid (clamp g) = oid g
  /\ g_x (clamp g) = g_x g /\ g_y (clamp g) = g_y g.
Proof.
  unfold clamp.
  repeat match goal with
         | |- context [if ?c then _ else _] => destruct c
         end; cbn; auto.
Qed.

Lemma clamp_id (g : Gun) :
  speed_of g <= MAX_SPEED ->
  - MAX_ANGULAR_SPEED <= g_av g <= MAX_ANGULAR_SPEED ->
  clamp g = g.
Proof.
  intros Hs Ha. unfold clamp, js_gt, js_lt. fold (speed_of g).
  rewrite (proj2 (Rltb_false MAX_SPEED (speed_of g))) by exact Hs.
  rewrite (proj2 (Rltb_false MAX_ANGULAR_SPEED (g_av g))) by apply Ha.
  rewrite (proj2 (Rltb_false (g_av g) (- MAX_ANGULAR_SPEED))) by apply Ha.
  reflexivity.
Qed.

(** A gun away from the four walls is left alone by [walls]. *)
Lemma walls_inside (g : Gun) :
  0 <= g_x g - g_radius g -> g_x g + g_radius g <= WIDTH ->
  0 <= g_y g - g_radius g -> g_y g + g_radius g <= HEIGHT ->
  walls g = g.
Proof.
  intros H1 H2 H3 H4. unfold walls, js_lt, js_gt.
  rewrite (proj2 (Rltb_false (g_x g - g_radius g) 0)) by exact H1.
  rewrite (proj2 (Rltb_false WIDTH (g_x g + g_radius g))) by exact H2.
  rewrite (proj2 (Rltb_false (g_y g - g_radius g) 0)) by exact H3.
  rewrite (proj2 (Rltb_false HEIGHT (g_y g + g_radius g))) by exact H4.
  reflexivity.
Qed.

(** A gun that crossed the left wall only. *)
Lemma walls_left_only (g : Gun) :
  g_x g - g_radius g < 0 -> g_radius g + g_radius g <= WIDTH ->
  0 <= g_y g - g_radius g -> g_y g + g_radius g <= HEIGHT ->
  walls g = applyWallCollision 1 0 (set_x (g_radius g) g).
Proof.
  intros H1 H2 H3 H4. unfold walls, js_lt, js_gt.
  rewrite (proj2 (Rltb_true (g_x g - g_radius g) 0)) by exact H1.
  destruct (applyWallCollision_keeps 1 0 (set_x (g_radius g) g))
    as (_ & Hx & Hy & Hrad).
  cbn [g_x g_y g_radius set_x] in Hx, Hy, Hrad.
  rewrite Hx, Hrad.
  rewrite (proj2 (Rltb_false WIDTH (g_radius g + g_radius g))) by exact H2.
  rewrite Hy, Hrad.
  rewrite (proj2 (Rltb_false (g_y g - g_radius g) 0)) by exact H3.
  rewrite Hy, Hrad.
  rewrite (proj2 (Rltb_false HEIGHT (g_y g + g_radius g))) by exact H4.
  reflexivity.
Qed.

Lemma applyWallCollision_into (nx ny : R) (g : Gun) :
  g_vx g * nx + g_vy g * ny < 0 ->
  applyWallCollision nx ny g
  = mkGun (oid g) (g_x g) (g_y g)
      ((g_vx g - 2 * (g_vx g * nx + g_vy g * ny) * nx) * WALL_RESTITUTION)
      ((g_vy g - 2 * (g_vx g * nx + g_vy g * ny) * ny) * WALL_RESTITUTION)
      (g_angle g)
      (g_av g + (g_vx g * nx + g_vy g * ny) * ANGULAR_TRANSFER)
      (g_radius g).
Proof.
  intros H. unfold applyWallCollision, js_lt.
  rewrite (proj2 (Rltb_true _ 0)) by exact H. reflexivity.
Qed.

Lemma integrate_wall_gun :
  integrate wall_gun
  = mkGun 0 18 300.02 (-3.992) 0.01996 (-0.22) (-0.21824) 20.
Proof.
  unfold integrate, wall_gun; gun_simpl.
  unfold GRAVITY, LINEAR_DAMPING, ROTATION_DAMPING.
  f_equal; lra.
Qed.

Lemma update_wall_gun :
  update wall_gun
  = mkGun 0 20 300.02 3.3932 0.016966 (-0.22) (-0.27812) 20.
Proof.
  unfold update. rewrite integrate_wall_gun.
  rewrite clamp_id.
  - rewrite walls_left_only;
      [| unfold WIDTH, HEIGHT; gun_simpl; lra ..].
    rewrite applyWallCollision_into; [| gun_simpl; lra].
    gun_simpl. unfold WALL_RESTITUTION, ANGULAR_TRANSFER. f_equal; lra.
  - unfold speed_of, MAX_SPEED; gun_simpl. apply hypot_le; lra.
  - unfold MAX_ANGULAR_SPEED; gun_simpl. lra.
Qed.

(** C2, as stated, fails: a gun that reaches a wall while spinning at
    the clamped rate leaves [update] with an angular velocity of
    -0.27812, beyond [MAX_ANGULAR_SPEED] in absolute value. *)
Lemma energy_clamp_broken_by_wall :
  ~ (speed_of (update wall_gun) <= MAX_SPEED
     /\ Rabs (g_av (update wall_gun)) <= MAX_ANGULAR_SPEED).
Proof.
  rewrite update_wall_gun. gun_simpl. unfold MAX_ANGULAR_SPEED.
  intros [_ H]. rewrite Rabs_left in H; lra.
Qed.

(** C2, amended.  For every gun (all guns have radius 20) and any
    velocity before the step: right after the clamp of [update], before
    the walls are resolved, the absolute angular velocity is at most
    [MAX_ANGULAR_SPEED]; the wall responses that follow never raise the
    angular velocity and may lower it, so that at the end of [update] it
    is at most [MAX_ANGULAR_SPEED] and at least
    [-(MAX_ANGULAR_SPEED + 2 * MAX_SPEED * ANGULAR_TRANSFER)].  These
    bounds come from comparisons and from assignments of the constants;
    nothing is stated about the linear speed, whose clamp is a rescaling
    by a computed quotient. *)
Theorem energy_clamp_then_walls (g : Gun) :
  g_radius g = 20 ->
  Rabs (g_av (clamp (integrate g))) <= MAX_ANGULAR_SPEED
  /\ g_av (update g) <= g_av (clamp (integrate g))
  /\ g_av (update g) <= MAX_ANGULAR_SPEED
  /\ - (MAX_ANGULAR_SPEED + 2 * MAX_SPEED * ANGULAR_TRANSFER)
     <= g_av (update g).
Proof.
  intros Hr.
  set (c := clamp (integrate g)).
  assert (Hc : g_radius c = 20).
  { unfold c. destruct (clamp_keeps (integrate g)) as (-> & _). exact Hr. }
  pose proof (clamp_speed (integrate g)) as Hs. fold c in Hs.
  pose proof (clamp_av (integrate g)) as Ha. fold c in Ha.
  pose proof (hypot_nonneg (g_vx c) (g_vy c)) as H0. fold (speed_of c) in H0.
  destruct (walls_x_bounds c Hc) as (Xs & Xa & Xb & Xr & _).
  destruct (walls_y_bounds (walls_x c) Xr) as (Ys & Ya & Yb & _ & _).
  pose proof (hypot_nonneg (g_vx (walls_x c)) (g_vy (walls_x c))) as H1.
  fold (speed_of (walls_x c)) in H1.
  unfold update. fold c. rewrite walls_split.
  unfold MAX_SPEED, MAX_ANGULAR_SPEED, ANGULAR_TRANSFER in *.
  repeat split; try lra; try (apply Rabs_le; lra); nra.
Qed.

Lemma energy_clamp_then_walls_witness :
  g_radius wall_gun = 20
  /\ g_av (update wall_gun) <= g_av (clamp (integrate wall_gun))
  /\ - (MAX_ANGULAR_SPEED + 2 * MAX_SPEED * ANGULAR_TRANSFER)
     <= g_av (update wall_gun).
Proof.
  split; [reflexivity|].
  destruct (energy_clamp_then_walls wall_gun) as (_ & H1 & _ & H2);
    [reflexivity|].
  split; assumption.
Defined.
End EnergyClampClaim.

(** ** Heat and overheat (C3, C4) *)

Section Heat.
Import Part000 Part000Aux.

Lemma applyWall_heat (nx ny : R) (g : Gun) :
  heat (applyWall nx ny g) = heat g
  /\ overheated (applyWall nx ny g) = overheated g
  /\ overheatUntil (applyWall nx ny g) = overheatUntil g.
Proof. unfold applyWall. destruct (js_lt _ 0); cbn; auto. Qed.

Lemma walls_steps (g : Gun) :
  walls g = wall_bottom (wall_top (wall_right (wall_left g))).
Proof. reflexivity. Qed.

Lemma wall_step_heat (f : Gun -> Gun) (g : Gun) :
  f = wall_left \/ f = wall_right \/ f = wall_top \/ f = wall_bottom ->
  heat (f g) = heat g
  /\ overheated (f g) = overheated g
  /\ overheatUntil (f g) = overheatUntil g.
Proof.
  intros [-> | [-> | [-> | ->]]];
    unfold wall_left, wall_right, wall_top, wall_bottom;
    match goal with
    | |- context [if ?c then _ else _] => destruct c
    end; auto;
    match goal with
    | |- context [applyWall ?nx ?ny ?h] =>
        destruct (applyWall_heat nx ny h) as (-> & -> & ->)
    end; auto.
Qed.

Lemma walls_heat (g : Gun) :
  heat (walls g) = heat g
  /\ overheated (walls g) = overheated g
  /\ overheatUntil (walls g) = overheatUntil g.
Proof.
  rewrite walls_steps.
  destruct (wall_step_heat wall_bottom
              (wall_top (wall_right (wall_left g)))) as (-> & -> & ->);
    [tauto|].
  destruct (wall_step_heat wall_top (wall_right (wall_left g)))
    as (-> & -> & ->); [tauto|].
  destruct (wall_step_heat wall_right (wall_left g)) as (-> & -> & ->);
    [tauto|].
  apply wall_step_heat; tauto.
Qed.

(** The heat part of [update]. *)
Lemma update_heat (grav : R) (g : Gun) :
  heat (update grav g)
  = (if negb (overheated g) && js_gt (heat g) 0
     then Rmax 0 (heat g - COOL_RATE) else heat g)
  /\ overheated (update grav g) = overheated g
  /\ overheatUntil (update grav g) = overheatUntil g.
Proof.
  unfold update.
  destruct (walls_heat (cool (integrate grav g))) as (-> & -> & ->).
  unfold cool.
  change (overheated (integrate grav g)) with (overheated g).
  change (heat (integrate grav g)) with (heat g).
  destruct (negb (overheated g) && js_gt (heat g) 0); cbn; auto.
Qed.

(** The heat part of [shoot] on a gun that is not overheated. *)
Lemma shoot_heat (t1 t2 : Z) (rnd : R) (o : Slot) (g : Gun)
      (bs : list Bullet) :
  overheated g = false ->
  heat (fst (shoot t1 t2 rnd o g bs)) = heat g + HEAT_PER_SHOT
  /\ overheated (fst (shoot t1 t2 rnd o g bs))
     = js_ge (heat g + HEAT_PER_SHOT) MAX_HEAT
  /\ (js_ge (heat g + HEAT_PER_SHOT) MAX_HEAT = true ->
      overheatUntil (fst (shoot t1 t2 rnd o g bs))
      = (t2 + OVERHEAT_COOLDOWN)%Z)
  /\ length (snd (shoot t1 t2 rnd o g bs)) = S (length bs).
Proof.
  intros Hc. unfold shoot, canShoot. rewrite Hc. cbn.
  destruct (js_ge (heat g + HEAT_PER_SHOT) MAX_HEAT) eqn:E;
    repeat split; auto; try discriminate;
    rewrite length_app; cbn; lia.
Qed.

Lemma heat_ok_new (rnd x y : R) : heat_ok (new_Gun rnd x y).
Proof.
  unfold heat_ok, new_Gun, MAX_HEAT, HEAT_PER_SHOT; cbn. lra.
Qed.

Lemma heat_ok_update (grav : R) (g : Gun) :
  heat_ok g -> heat_ok (update grav g).
Proof.
  unfold heat_ok. intros [[H0 H1] H2].
  destruct (update_heat grav g) as (-> & -> & _).
  unfold MAX_HEAT, HEAT_PER_SHOT, COOL_RATE, js_gt in *.
  destruct (overheated g); cbn.
  - split; [lra | discriminate].
  - specialize (H2 eq_refl).
    destruct (Rltb 0 (heat g)) eqn:E.
    + apply Rltb_true in E.
      assert (0 <= Rmax 0 (heat g - 0.04)) by apply Rmax_l.
      assert (Rmax 0 (heat g - 0.04) < 6) by (apply Rmax_lub_lt; lra).
      split; [lra | intros _; lra].
    + split; [lra | intros _; lra].
Qed.

Lemma heat_ok_shoot (t1 t2 : Z) (rnd : R) (o : Slot) (g : Gun)
      (bs : list Bullet) :
  heat_ok g -> heat_ok (fst (shoot t1 t2 rnd o g bs)).
Proof.
  unfold heat_ok. intros [[H0 H1] H2].
  destruct (overheated g) eqn:Ho.
  - (* overheated: either still locked, or recovered and fired *)
    unfold shoot, canShoot. rewrite Ho. cbn.
    destruct (overheatUntil g <=? t1)%Z; cbn.
    + unfold MAX_HEAT, HEAT_PER_SHOT, js_ge.
      rewrite (proj2 (Rleb_false 6 (6 * 0.4 + 1))) by lra.
      split; [lra | intros _; lra].
    + rewrite Ho. split; [lra | discriminate].
  - specialize (H2 eq_refl).
    destruct (shoot_heat t1 t2 rnd o g bs Ho) as (-> & -> & _).
    unfold MAX_HEAT, HEAT_PER_SHOT, js_ge in *.
    split; [lra|]. intros E. apply Rleb_false in E. lra.
Qed.

Lemma heat_ok_run (o : Slot) (ops : list GunOp) (s : Gun * list Bullet) :
  heat_ok (fst s) -> heat_ok (fst (run_ops o ops s)).
Proof.
  revert s. induction ops as [|op ops IH]; intros s Hs; [exact Hs|].
  apply IH. destruct op; cbn.
  - now apply heat_ok_shoot.
  - now apply heat_ok_update.
Qed.

Lemma fire_warm (o : Slot) (s : Gun * list Bullet) (t1 t2 : Z)
      (rnd h h' : R) :
  overheated (fst s) = false -> heat (fst s) = h ->
  h' = h + 1 -> h' < 6 ->
  heat (fst (apply_op o s (Fire t1 t2 rnd))) = h'
  /\ overheated (fst (apply_op o s (Fire t1 t2 rnd))) = false
  /\ length (snd (apply_op o s (Fire t1 t2 rnd))) = S (length (snd s)).
Proof.
  intros Ho Hh -> Hlt. cbn [apply_op].
  destruct (shoot_heat t1 t2 rnd o (fst s) (snd s) Ho) as (-> & -> & _ & ->).
  rewrite Hh. unfold HEAT_PER_SHOT, MAX_HEAT, js_ge.
  rewrite (proj2 (Rleb_false 6 (h + 1))) by lra. auto.
Qed.

Lemma fire_overheat (o : Slot) (s : Gun * list Bullet) (t1 t2 : Z)
      (rnd h h' : R) :
  overheated (fst s) = false -> heat (fst s) = h ->
  h' = h + 1 -> 6 <= h' ->
  heat (fst (apply_op o s (Fire t1 t2 rnd))) = h'
  /\ overheated (fst (apply_op o s (Fire t1 t2 rnd))) = true
  /\ overheatUntil (fst (apply_op o s (Fire t1 t2 rnd)))
     = (t2 + OVERHEAT_COOLDOWN)%Z
  /\ length (snd (apply_op o s (Fire t1 t2 rnd))) = S (length (snd s)).
Proof.
  intros Ho Hh -> Hge. cbn [apply_op].
  destruct (shoot_heat t1 t2 rnd o (fst s) (snd s) Ho)
    as (-> & -> & Hu & ->).
  rewrite Hh in *. unfold HEAT_PER_SHOT, MAX_HEAT, js_ge in *.
  rewrite (proj2 (Rleb_true 6 (h + 1))) in * by lra. auto.
Qed.

Lemma integrate_warm (o : Slot) (s : Gun * list Bullet) (grav h h' : R) :
  overheated (fst s) = false -> heat (fst s) = h ->
  h' = h - 0.04 -> 0 <= h' ->
  heat (fst (apply_op o s (Integrate grav))) = h'
  /\ overheated (fst (apply_op o s (Integrate grav))) = false
  /\ snd (apply_op o s (Integrate grav)) = snd s.
Proof.
  intros Ho Hh -> Hge. cbn [apply_op fst snd].
  destruct (update_heat grav (fst s)) as (-> & -> & _).
  rewrite Ho, Hh. unfold COOL_RATE, js_gt. cbn [negb andb].
  rewrite (proj2 (Rltb_true 0 h)) by lra.
  rewrite Rmax_right by lra. auto.
Qed.

(** C3, as stated, fails: five shots, one integration step and two more
    shots take a new gun to a heat of 6.96, above [MAX_HEAT]. *)
Lemma heat_exceeds_max_after_burst :
  ~ (0 <= heat (fst (run_ops Blue burst (new_Gun 0 90 640, [])))
     <= MAX_HEAT).
Proof.
  unfold burst, run_ops. cbn [fold_left].
  set (s0 := (new_Gun 0 90 640, [])).
  destruct (fire_warm Blue s0 0 0 0.5 0 1) as (A1 & B1 & _);
    [reflexivity | reflexivity | lra | lra |].
  set (s1 := apply_op Blue s0 _) in *.
  destruct (fire_warm Blue s1 0 0 0.5 1 2 B1 A1) as (A2 & B2 & _);
    [lra | lra |].
  set (s2 := apply_op Blue s1 _) in *.
  destruct (fire_warm Blue s2 0 0 0.5 2 3 B2 A2) as (A3 & B3 & _);
    [lra | lra |].
  set (s3 := apply_op Blue s2 _) in *.
  destruct (fire_warm Blue s3 0 0 0.5 3 4 B3 A3) as (A4 & B4 & _);
    [lra | lra |].
  set (s4 := apply_op Blue s3 _) in *.
  destruct (fire_warm Blue s4 0 0 0.5 4 5 B4 A4) as (A5 & B5 & _);
    [lra | lra |].
  set (s5 := apply_op Blue s4 _) in *.
  destruct (integrate_warm Blue s5 0.02 5 4.96 B5 A5) as (A6 & B6 & _);
    [lra | lra |].
  set (s6 := apply_op Blue s5 _) in *.
  destruct (fire_warm Blue s6 16 16 0.5 4.96 5.96 B6 A6) as (A7 & B7 & _);
    [lra | lra |].
  set (s7 := apply_op Blue s6 _) in *.
  destruct (fire_overheat Blue s7 16 16 0.5 5.96 6.96 B7 A7)
    as (A8 & _); [lra | lra |].
  rewrite A8. unfold MAX_HEAT. lra.
Qed.

(** C3, amended.  For every gun created by [new Gun] and every sequence
    of fire actions and integration steps, the heat stays in
    [0, MAX_HEAT + HEAT_PER_SHOT), and it is below [MAX_HEAT] whenever
    the gun is not overheated: the shot that overheats the gun may take
    the heat past [MAX_HEAT] by less than one shot. *)
Theorem heat_within_one_shot_of_max
        (o : Slot) (ops : list GunOp) (rnd x y : R) (bs : list Bullet) :
  let g := fst (run_ops o ops (new_Gun rnd x y, bs)) in
  0 <= heat g < MAX_HEAT + HEAT_PER_SHOT
  /\ (overheated g = false -> heat g < MAX_HEAT).
Proof.
  cbn zeta. apply (heat_ok_run o ops (new_Gun rnd x y, bs)).
  apply heat_ok_new.
Qed.

(** C4.  From a gun with heat 0 that is not overheated, six consecutive
    fire actions (six is [MAX_HEAT / HEAT_PER_SHOT]) all succeed, each
    adding a projectile, and leave the gun overheated with the expiry
    timestamp [t2 + OVERHEAT_COOLDOWN], [t2] being the clock read by the
    sixth shot.  From then on [canShoot] answers false, and changes
    nothing, at every time strictly before the expiry; at every time at
    or after it, [canShoot] answers true, clears the overheat flag and
    sets the heat to exactly 0.4 * MAX_HEAT. *)
Theorem overheat_cycle
        (o : Slot) (g : Gun) (bs : list Bullet)
        (f1 f2 f3 f4 f5 : Z * Z * R) (t1 t2 : Z) (rnd : R) :
  heat g = 0 -> overheated g = false ->
  let s6 :=
    run_ops o [fire_of f1; fire_of f2; fire_of f3; fire_of f4; fire_of f5;
               Fire t1 t2 rnd] (g, bs) in
  6 * HEAT_PER_SHOT = MAX_HEAT
  /\ length (snd s6) = (length bs + 6)%nat
  /\ overheated (fst s6) = true
  /\ overheatUntil (fst s6) = (t2 + OVERHEAT_COOLDOWN)%Z
  /\ (forall now : Z,
        (now < t2 + OVERHEAT_COOLDOWN)%Z ->
        canShoot now (fst s6) = (false, fst s6))
  /\ (forall now : Z,
        (t2 + OVERHEAT_COOLDOWN <= now)%Z ->
        fst (canShoot now (fst s6)) = true
        /\ overheated (snd (canShoot now (fst s6))) = false
        /\ heat (snd (canShoot now (fst s6))) = 0.4 * MAX_HEAT).
Proof.
  intros Hh Ho. unfold run_ops, fire_of. cbn [fold_left].
  set (s0 := (g, bs)).
  destruct (fire_warm o s0 (fst (fst f1)) (snd (fst f1)) (snd f1) 0 1 Ho Hh)
    as (A1 & B1 & L1); [lra | lra |].
  set (s1 := apply_op o s0 _) in *.
  destruct (fire_warm o s1 (fst (fst f2)) (snd (fst f2)) (snd f2) 1 2 B1 A1)
    as (A2 & B2 & L2); [lra | lra |].
  set (s2 := apply_op o s1 _) in *.
  destruct (fire_warm o s2 (fst (fst f3)) (snd (fst f3)) (snd f3) 2 3 B2 A2)
    as (A3 & B3 & L3); [lra | lra |].
  set (s3 := apply_op o s2 _) in *.
  destruct (fire_warm o s3 (fst (fst f4)) (snd (fst f4)) (snd f4) 3 4 B3 A3)
    as (A4 & B4 & L4); [lra | lra |].
  set (s4 := apply_op o s3 _) in *.
  destruct (fire_warm o s4 (fst (fst f5)) (snd (fst f5)) (snd f5) 4 5 B4 A4)
    as (A5 & B5 & L5); [lra | lra |].
  set (s5 := apply_op o s4 _) in *.
  destruct (fire_overheat o s5 t1 t2 rnd 5 6 B5 A5)
    as (A6 & B6 & U6 & L6); [lra | lra |].
  set (s6 := apply_op o s5 _) in *.
  cbn zeta.
  split; [unfold HEAT_PER_SHOT, MAX_HEAT; lra|].
  split; [rewrite L6, L5, L4, L3, L2, L1; cbn [snd s0]; lia|].
  split; [exact B6|]. split; [exact U6|]. split.
  - intros now Hnow. unfold canShoot. rewrite B6, U6. cbn [negb].
    destruct (Z.leb_spec (t2 + OVERHEAT_COOLDOWN) now) as [H|H]; [lia|].
    reflexivity.
  - intros now Hnow. unfold canShoot. rewrite B6, U6. cbn [negb].
    destruct (Z.leb_spec (t2 + OVERHEAT_COOLDOWN) now) as [H|H]; [|lia].
    cbn [fst snd overheated heat]. repeat split. unfold MAX_HEAT. lra.
Qed.

Lemma overheat_cycle_witness :
  heat (new_Gun 0 90 640) = 0
  /\ overheated (new_Gun 0 90 640) = false
  /\ overheated
       (fst (run_ops Blue
               [fire_of (0%Z, 0%Z, 0.5); fire_of (0%Z, 0%Z, 0.5);
                fire_of (0%Z, 0%Z, 0.5); fire_of (0%Z, 0%Z, 0.5);
                fire_of (0%Z, 0%Z, 0.5); Fire 0 0 0.5]
               (new_Gun 0 90 640, []))) = true.
Proof.
  split; [reflexivity|]. split; [reflexivity|].
  apply (overheat_cycle Blue (new_Gun 0 90 640) []
           (0%Z, 0%Z, 0.5) (0%Z, 0%Z, 0.5) (0%Z, 0%Z, 0.5)
           (0%Z, 0%Z, 0.5) (0%Z, 0%Z, 0.5) 0 0 0.5);
    reflexivity.
Defined.

End Heat.

(** ** The projectile loop of [src/server.js] (C1, C5, C7) *)

Section BulletLoop.
Import ServerJs ServerJsAux.

Ltac room_simpl :=
  cbn [blue white bullets clients gameOver winner rematchReady
       set_bullets end_game advance b_x b_y b_vx b_vy b_owner
       oid g_x g_y g_vx g_vy g_angle g_av g_radius
       set_x set_y set_v set_av].

Lemma applyWallCollision_oid (nx ny : R) (g : Gun) :
  oid (applyWallCollision nx ny g) = oid g.
Proof. apply applyWallCollision_keeps. Qed.

Lemma update_oid (g : Gun) : oid (update g) = oid g.
Proof.
  unfold update. rewrite walls_split.
  transitivity (oid (walls_x (clamp (integrate g)))).
  - generalize (walls_x (clamp (integrate g))). intros h.
    unfold walls_y.
    repeat match goal with
           | |- context [if ?c then _ else _] => destruct c
           end;
      repeat (rewrite applyWallCollision_oid; cbn [oid set_x set_y]);
      reflexivity.
  - transitivity (oid (clamp (integrate g)));
      [| apply (proj1 (proj2 (clamp_keeps (integrate g))))].
    generalize (clamp (integrate g)). intros h.
    unfold walls_x.
    repeat match goal with
           | |- context [if ?c then _ else _] => destruct c
           end;
      repeat (rewrite applyWallCollision_oid; cbn [oid set_x set_y]);
      reflexivity.
Qed.

(** The callback leaves the guns and everything but the projectiles,
    [gameOver] and [winner] as they are. *)
Lemma bullet_callback_keeps (i : nat) (b : Bullet) (r : Room) :
  blue (bullet_callback i b r) = blue r
  /\ white (bullet_callback i b r) = white r
  /\ clients (bullet_callback i b r) = clients r
  /\ rematchReady (bullet_callback i b r) = rematchReady r.
Proof.
  unfold bullet_callback, hits_blue, hits_white.
  repeat match goal with
         | |- context [if ?c then _ else _] => destruct c
         end; room_simpl; auto.
Qed.

Lemma bullet_callback_result (i : nat) (b : Bullet) (r : Room) :
  winner (bullet_callback i b r)
  = match last (callback_hits b r) with
    | Some w => Some w
    | None => winner r
    end
  /\ gameOver (bullet_callback i b r)
     = match callback_hits b r with
       | [] => gameOver r
       | _ => true
       end
  /\ bullets (bullet_callback i b r)
     = if out_of_bounds (advance b)
       then delete i (<[i := advance b]> (bullets r))
       else <[i := advance b]> (bullets r).
Proof.
  unfold bullet_callback, callback_hits, hits_blue, hits_white.
  room_simpl.
  destruct (negb (b_owner b =? oid (blue r))%nat && hit (advance b) (blue r));
    room_simpl;
    destruct (negb (b_owner b =? oid (white r))%nat
              && hit (advance b) (white r));
    room_simpl;
    destruct (out_of_bounds (advance b)); room_simpl; auto.
Qed.

Lemma forEach_from_keeps (n k : nat) (r : Room) :
  blue (forEach_from n k r) = blue r
  /\ white (forEach_from n k r) = white r
  /\ clients (forEach_from n k r) = clients r
  /\ rematchReady (forEach_from n k r) = rematchReady r.
Proof.
  revert k r. induction n as [|n IH]; intros k r; [cbn; auto|].
  cbn [forEach_from]. destruct (bullets r !! k) as [b|].
  - destruct (IH (S k) (bullet_callback k b r)) as (-> & -> & -> & ->).
    apply bullet_callback_keeps.
  - apply IH.
Qed.

(** The loop assigns [winner] at every hit it detects: what is left at
    the end is the assignment of the last hit. *)
Lemma forEach_from_result (n k : nat) (r : Room) :
  winner (forEach_from n k r)
  = match last (hit_trace n k r) with
    | Some w => Some w
    | None => winner r
    end
  /\ gameOver (forEach_from n k r)
     = match hit_trace n k r with
       | [] => gameOver r
       | _ => true
       end.
Proof.
  revert k r. induction n as [|n IH]; intros k r; [cbn; auto|].
  cbn [forEach_from hit_trace]. destruct (bullets r !! k) as [b|].
  - destruct (IH (S k) (bullet_callback k b r)) as (-> & ->).
    destruct (bullet_callback_result k b r) as (-> & -> & _).
    rewrite last_app.
    destruct (hit_trace n (S k) (bullet_callback k b r)) as [|w l];
      [rewrite app_nil_r; auto|].
    split.
    + destruct (last (w :: l)) eqn:E; [reflexivity|].
      apply last_None in E. discriminate.
    + destruct (callback_hits b r); reflexivity.
  - apply IH.
Qed.

(** A gun at rest away from the walls: [update] only lets it fall. *)
Lemma update_resting (o : nat) (x y : R) :
  20 <= x <= 400 -> 20 <= y <= 619 ->
  update (mkGun o x y 0 0 0 0 20) = mkGun o x (y + 0.02) 0 0.01996 0 0 20.
Proof.
  intros Hx Hy. unfold update.
  assert (E : integrate (mkGun o x y 0 0 0 0 20)
              = mkGun o x (y + 0.02) 0 0.01996 0 0 20).
  { unfold integrate; room_simpl.
    unfold GRAVITY, LINEAR_DAMPING, ROTATION_DAMPING. f_equal; lra. }
  rewrite E. rewrite clamp_id.
  - apply walls_inside; unfold WIDTH, HEIGHT; room_simpl; lra.
  - unfold speed_of, MAX_SPEED; room_simpl. apply hypot_le; lra.
  - unfold MAX_ANGULAR_SPEED; room_simpl. lra.
Qed.

Lemma hit_yes (b : Bullet) (g : Gun) :
  -20 < b_x b - g_x g < 20 -> -20 < b_y b - g_y g < 20 -> hit b g = true.
Proof.
  intros Hx Hy. unfold hit, js_lt.
  apply andb_true_intro; split; apply Rltb_true; apply Rabs_def1; lra.
Qed.

Lemma hit_no_x (b : Bullet) (g : Gun) :
  20 <= b_x b - g_x g \/ b_x b - g_x g <= -20 -> hit b g = false.
Proof.
  intros Hx. unfold hit, js_lt. apply andb_false_intro1. apply Rltb_false.
  destruct Hx; [rewrite Rabs_pos_eq | rewrite Rabs_left1]; lra.
Qed.

Lemma in_bounds (b : Bullet) :
  0 <= b_x b <= WIDTH -> 0 <= b_y b <= HEIGHT -> out_of_bounds b = false.
Proof.
  intros Hx Hy. unfold out_of_bounds, js_lt, js_gt.
  rewrite (proj2 (Rltb_false (b_x b) 0)) by lra.
  rewrite (proj2 (Rltb_false WIDTH (b_x b))) by lra.
  rewrite (proj2 (Rltb_false (b_y b) 0)) by lra.
  rewrite (proj2 (Rltb_false HEIGHT (b_y b))) by lra.
  reflexivity.
Qed.

Lemma beyond_right (b : Bullet) :
  0 <= b_x b -> WIDTH < b_x b -> out_of_bounds b = true.
Proof.
  intros H0 Hx. unfold out_of_bounds, js_lt, js_gt.
  rewrite (proj2 (Rltb_false (b_x b) 0)) by lra.
  rewrite (proj2 (Rltb_true WIDTH (b_x b))) by lra.
  reflexivity.
Qed.

Lemma callback_hits_ext (b : Bullet) (r r' : Room) :
  blue r = blue r' -> white r = white r' ->
  callback_hits b r = callback_hits b r'.
Proof.
  intros Hb Hw. unfold callback_hits, hits_blue, hits_white.
  now rewrite Hb, Hw.
Qed.

Lemma hit_trace_at (n k : nat) (r : Room) (b : Bullet) :
  bullets r !! k = Some b ->
  hit_trace (S n) k r
  = callback_hits b r ++ hit_trace n (S k) (bullet_callback k b r).
Proof. intros H. cbn [hit_trace]. now rewrite H. Qed.

Lemma forEach_from_at (n k : nat) (r : Room) (b : Bullet) :
  bullets r !! k = Some b ->
  forEach_from (S n) k r = forEach_from n (S k) (bullet_callback k b r).
Proof. intros H. cbn [forEach_from]. now rewrite H. Qed.

Lemma forEach_from_past (n k : nat) (r : Room) :
  bullets r !! k = None ->
  forEach_from (S n) k r = forEach_from n (S k) r.
Proof. intros H. cbn [forEach_from]. now rewrite H. Qed.

Lemma tick_hits_duel : tick_hits duel_room = [Blue; White].
Proof.
  unfold tick_hits, duel_room; room_simpl.
  rewrite !update_resting by lra.
  set (r1 := mkRoom _ _ _ _ _ _ _).
  cbn [length].
  rewrite (hit_trace_at 1 0 r1 (mkBullet 321 520 9 0 0)) by reflexivity.
  set (r2 := bullet_callback 0 (mkBullet 321 520 9 0 0) r1).
  assert (B2 : bullets r2 !! 1%nat = Some (mkBullet 99 520 (-9) 0 1)).
  { unfold r2. rewrite (proj2 (proj2 (bullet_callback_result _ _ _))).
    rewrite in_bounds by (unfold WIDTH, HEIGHT; room_simpl; lra).
    reflexivity. }
  rewrite (hit_trace_at 0 1 r2 (mkBullet 99 520 (-9) 0 1)) by exact B2.
  cbn [hit_trace]. rewrite app_nil_r.
  rewrite (callback_hits_ext (mkBullet 99 520 (-9) 0 1) r2 r1)
    by apply bullet_callback_keeps.
  unfold callback_hits, hits_blue, hits_white, r1; room_simpl.
  cbn [Nat.eqb negb andb].
  rewrite !hit_yes by (unfold advance; room_simpl; lra).
  reflexivity.
Qed.

Lemma tick_room_result (r : Room) :
  gameOver r = false ->
  winner (tick_room r)
  = match last (tick_hits r) with
    | Some w => Some w
    | None => winner r
    end
  /\ gameOver (tick_room r)
     = match tick_hits r with
       | [] => false
       | _ => true
       end.
Proof.
  intros H. unfold tick_room, tick_hits, bullets_forEach. rewrite H.
  set (r1 := mkRoom _ _ _ _ _ _ _).
  destruct (forEach_from_result (length (bullets r1)) 0 r1) as (-> & ->).
  split; reflexivity.
Qed.

(** C1, as stated, fails: in [duel_room] the first hit detected gives
    the win to blue, the loop goes on, detects the second hit and leaves
    white as the winner. *)
Lemma first_hit_overwritten_in_duel : ~ first_hit_wins duel_room.
Proof.
  intros H. specialize (H Blue).
  rewrite (proj1 (tick_room_result duel_room eq_refl)) in H.
  rewrite tick_hits_duel in H. specialize (H eq_refl). discriminate.
Qed.

Lemma hits_of_ext (l : list Bullet) (r r' : Room) :
  blue r = blue r' -> white r = white r' -> hits_of l r = hits_of l r'.
Proof.
  intros Hb Hw. unfold hits_of. induction l as [|b l IH]; [reflexivity|].
  cbn [flat_map]. now rewrite IH, (callback_hits_ext b r r').
Qed.

(** While no projectile leaves the arena the loop visits every index,
    and the hits it registers are the hit tests that hold. *)
Lemma hit_trace_all (suf pre : list Bullet) (r : Room) :
  bullets r = pre ++ suf ->
  Forall (fun b => out_of_bounds (advance b) = false) suf ->
  hit_trace (length suf) (length pre) r = hits_of suf r.
Proof.
  revert pre r. induction suf as [|b suf IH]; intros pre r Hb Hin.
  - reflexivity.
  - apply Forall_cons in Hin as [Hb0 Hin].
    cbn [length].
    rewrite (hit_trace_at _ _ r b)
      by (rewrite Hb; now apply list_lookup_middle).
    replace (S (length pre)) with (length (pre ++ [advance b]))
      by (rewrite length_app; cbn [length]; lia).
    rewrite (IH (pre ++ [advance b])); [| | exact Hin].
    + unfold hits_of at 2. cbn [flat_map]. f_equal.
      apply hits_of_ext; apply bullet_callback_keeps.
    + rewrite (proj2 (proj2 (bullet_callback_result _ b r))), Hb0, Hb.
      rewrite insert_app_r_alt by lia.
      rewrite Nat.sub_diag, <- app_assoc. reflexivity.
Qed.

(** C1, amended.  In a tick of a running room the loop registers a hit
    for every projectile it visits whose new position satisfies the hit
    test against the gun it does not belong to ([tick_hits], in the
    order of the loop: array order, and for one projectile the test
    against blue before the test against white).  If it registers one or
    more hits, the room is Ended after the tick and its winner is the
    one assigned by the last of them: the loop does not stop at the
    first hit, and each further hit overwrites the winner of the one
    before.  If it registers none, the room goes on with the winner
    field as it was.  If no projectile leaves the arena in the tick,
    every projectile is visited and the hits registered are exactly the
    hit tests that hold, in array order.  When a projectile leaves the
    arena, only the hits that the loop registers count: nothing is
    stated about a projectile that it does not visit. *)
Theorem last_hit_wins (r : Room) :
  gameOver r = false ->
  (tick_hits r <> [] ->
   gameOver (tick_room r) = true
   /\ winner (tick_room r) = last (tick_hits r)
   /\ is_Some (winner (tick_room r)))
  /\ (tick_hits r = [] ->
      gameOver (tick_room r) = false /\ winner (tick_room r) = winner r)
  /\ (Forall (fun b => out_of_bounds (advance b) = false) (bullets r) ->
      tick_hits r = hits_of (bullets r) (guns_updated r)).
Proof.
  intros H. destruct (tick_room_result r H) as (Hw & Hg).
  split; [|split].
  - intros Hne. rewrite Hw, Hg.
    destruct (tick_hits r) as [|w l] eqn:E; [congruence|].
    destruct (last (w :: l)) as [w'|] eqn:El.
    + repeat split. now exists w'.
    + apply last_None in El. discriminate.
  - intros E. rewrite Hw, Hg, E. split; reflexivity.
  - intros Hin. unfold tick_hits.
    apply (hit_trace_all (bullets r) [] (guns_updated r));
      [reflexivity | exact Hin].
Qed.

Lemma last_hit_wins_witness :
  gameOver duel_room = false /\ tick_hits duel_room <> []
  /\ winner (tick_room duel_room) = Some White
  /\ gameOver (tick_room duel_room) = true.
Proof.
  split; [reflexivity|]. split; [rewrite tick_hits_duel; discriminate|].
  destruct (last_hit_wins duel_room eq_refl) as (H1 & _).
  destruct H1 as (Hg & Hw & _); [rewrite tick_hits_duel; discriminate|].
  split; [|exact Hg].
  rewrite Hw, tick_hits_duel. reflexivity.
Defined.

Lemma bullet_callback_owners (P : Bullet -> Prop) (i : nat) (b : Bullet)
      (r : Room) :
  P (advance b) -> Forall P (bullets r) ->
  Forall P (bullets (bullet_callback i b r)).
Proof.
  intros Hb Hl. rewrite (proj2 (proj2 (bullet_callback_result i b r))).
  assert (Hi : Forall P (<[i := advance b]> (bullets r)))
    by (apply Forall_insert; assumption).
  destruct (out_of_bounds (advance b)); [|exact Hi].
  now apply Forall_delete.
Qed.

(** Projectiles that all belong to one gun register hits on the other
    gun only. *)
Lemma hit_trace_own (n k : nat) (r : Room) :
  (Forall (fun b => b_owner b = oid (blue r)) (bullets r) ->
   Forall (fun w => w = Blue) (hit_trace n k r))
  /\ (Forall (fun b => b_owner b = oid (white r)) (bullets r) ->
      Forall (fun w => w = White) (hit_trace n k r)).
Proof.
  revert k r. induction n as [|n IH]; intros k r; [split; constructor|].
  cbn [hit_trace]. destruct (bullets r !! k) as [b|] eqn:E; [|apply IH].
  destruct (bullet_callback_keeps k b r) as (Kb & Kw & _).
  split; intros Hall.
  - assert (Hb : b_owner b = oid (blue r))
      by (eapply Forall_lookup_1 in Hall; eauto).
    apply Forall_app; split.
    + unfold callback_hits, hits_blue. cbn [advance b_owner].
      rewrite Hb, Nat.eqb_refl. cbn [negb andb app].
      destruct (hits_white _ r); repeat constructor.
    + apply IH. rewrite Kb.
      apply bullet_callback_owners; [exact Hb | exact Hall].
  - assert (Hb : b_owner b = oid (white r))
      by (eapply Forall_lookup_1 in Hall; eauto).
    apply Forall_app; split.
    + unfold callback_hits, hits_white. cbn [advance b_owner].
      rewrite Hb, Nat.eqb_refl. cbn [negb andb app].
      destruct (hits_blue _ r); repeat constructor.
    + apply IH. rewrite Kw.
      apply bullet_callback_owners; [exact Hb | exact Hall].
Qed.

(** C7.  In both versions the test of the tick loop against a body is
    false for every projectile whose owner tag is that body (its
    identity in [src/server.js], its slot name in
    [src/unnamed/part_000]), wherever the projectile and the body are.
    Hence, in a tick of [src/server.js] over projectiles that all belong
    to one gun, every hit detected is a hit on the other gun. *)
Theorem owner_excluded_from_hits :
  (forall r x y vx vy,
     hits_blue (mkBullet x y vx vy (oid (blue r))) r = false)
  /\ (forall r x y vx vy,
        hits_white (mkBullet x y vx vy (oid (white r))) r = false)
  /\ (forall r x y vx vy,
        Part000.hits_blue (Part000.mkBullet x y vx vy Blue) r = false)
  /\ (forall r x y vx vy,
        Part000.hits_white (Part000.mkBullet x y vx vy White) r = false)
  /\ (forall r,
        Forall (fun b => b_owner b = oid (blue r)) (bullets r) ->
        Forall (fun w => w = Blue) (tick_hits r))
  /\ (forall r,
        Forall (fun b => b_owner b = oid (white r)) (bullets r) ->
        Forall (fun w => w = White) (tick_hits r)).
Proof.
  repeat split.
  - intros. unfold hits_blue. cbn [b_owner]. now rewrite Nat.eqb_refl.
  - intros. unfold hits_white. cbn [b_owner]. now rewrite Nat.eqb_refl.
  - intros r Hall. unfold tick_hits.
    apply hit_trace_own. cbn [blue bullets]. now rewrite update_oid.
  - intros r Hall. unfold tick_hits.
    apply hit_trace_own. cbn [white bullets]. now rewrite update_oid.
Qed.

Lemma owner_excluded_from_hits_witness :
  Forall (fun b => b_owner b = oid (blue self_room)) (bullets self_room)
  /\ Forall (fun w => w = Blue) (tick_hits self_room).
Proof.
  assert (H : Forall (fun b => b_owner b = oid (blue self_room))
                     (bullets self_room))
    by (repeat constructor).
  split; [exact H|].
  exact (proj1 (proj2 (proj2 (proj2 (proj2 owner_excluded_from_hits))))
           self_room H).
Defined.

(** ** A match played up to the hit (C5) *)

Lemma update_free (g : Gun) :
  speed_of (integrate g) <= MAX_SPEED ->
  - MAX_ANGULAR_SPEED <= g_av (integrate g) <= MAX_ANGULAR_SPEED ->
  0 <= g_x (integrate g) - g_radius g ->
  g_x (integrate g) + g_radius g <= WIDTH ->
  0 <= g_y (integrate g) - g_radius g ->
  g_y (integrate g) + g_radius g <= HEIGHT ->
  update g = integrate g.
Proof.
  intros Hs Ha H1 H2 H3 H4. unfold update.
  rewrite clamp_id by assumption. now apply walls_inside.
Qed.

Lemma INR_below (k n : nat) (x : R) :
  (k <= n)%nat -> INR n = x -> 0 <= INR k <= x.
Proof.
  intros Hk <-. split; [apply pos_INR | now apply le_INR].
Qed.

Lemma INR_19 : INR 19 = 19.
Proof. rewrite INR_IZR_INZ. reflexivity. Qed.

Lemma INR_20 : INR 20 = 20.
Proof. rewrite INR_IZR_INZ. reflexivity. Qed.

Lemma flying_fired : flying 0 fired_room.
Proof.
  unfold flying, fired_room, shoot_in_room, join_room, createRoom, shoot,
    new_Gun, player.
  room_simpl. cbn [INR].
  replace (0 * PI * 2) with 0 by lra. rewrite cos_0, sin_0.
  unfold WIDTH, HEIGHT.
  repeat split; try reflexivity; try lra.
  eexists. split; [reflexivity|]. room_simpl.
  repeat split; try reflexivity; unfold BULLET_SPEED; lra.
Qed.

(** One tick over a room whose only projectile is [b]. *)
Lemma tick_room_single (r : Room) (b : Bullet) :
  gameOver r = false -> bullets r = [b] ->
  out_of_bounds (advance b) = false ->
  bullets (tick_room r) = [advance b]
  /\ blue (tick_room r) = update (blue r)
  /\ white (tick_room r) = update (white r)
  /\ gameOver (tick_room r)
     = hits_blue (advance b)
         (mkRoom (update (blue r)) (update (white r)) [b] (clients r)
                 false (winner r) (rematchReady r))
       || hits_white (advance b)
            (mkRoom (update (blue r)) (update (white r)) [b] (clients r)
                    false (winner r) (rematchReady r)).
Proof.
  intros Hg Hb Hin. unfold tick_room, bullets_forEach.
  rewrite Hg, Hb. cbn [bullets length].
  set (r1 := mkRoom _ _ _ _ _ _ _).
  rewrite (forEach_from_at 0 0 r1 b) by reflexivity.
  cbn [forEach_from].
  destruct (bullet_callback_keeps 0 b r1) as (-> & -> & _).
  destruct (bullet_callback_result 0 b r1) as (_ & -> & ->).
  rewrite Hin. unfold callback_hits.
  repeat split.
  destruct (hits_blue (advance b) r1), (hits_white (advance b) r1);
    reflexivity.
Qed.

Lemma flying_white_update (k : nat) (r : Room) :
  flying k r -> (k <= 20)%nat ->
  update (white r) = integrate (white r).
Proof.
  intros (_ & _ & _ & _ & Hx & Hvx & Hav & Hr & Hy & Hvy) Hk.
  destruct (INR_below k 20 20 Hk INR_20) as [K0 K1].
  apply update_free; unfold integrate, speed_of; room_simpl;
    rewrite ?Hx, ?Hvx, ?Hav, ?Hr;
    unfold MAX_SPEED, MAX_ANGULAR_SPEED, WIDTH, HEIGHT, GRAVITY,
      LINEAR_DAMPING, ROTATION_DAMPING.
  - apply hypot_le; [lra|]. nra.
  - lra.
  - lra.
  - lra.
  - lra.
  - nra.
Qed.

Lemma flying_step (k : nat) (r : Room) :
  flying k r -> (k < 20)%nat -> flying (S k) (tick_room r).
Proof.
  intros F Hk.
  pose proof (flying_white_update k r F ltac:(lia)) as Hu.
  destruct F as (Hg & Hob & (b & Hb & Bx & By & Bvx & Bvy & Bo)
                 & How & Hx & Hvx & Hav & Hr & Hy & Hvy).
  destruct (INR_below k 19 19 ltac:(lia) INR_19) as [K0 K1].
  assert (Hin : out_of_bounds (advance b) = false).
  { apply in_bounds; unfold advance, WIDTH, HEIGHT; room_simpl; lra. }
  destruct (tick_room_single r b Hg Hb Hin) as (Tb & Tbl & Tw & Tg).
  unfold flying. rewrite Tb, Tbl, Tw, Tg, Hu, update_oid, S_INR.
  unfold hits_blue, hits_white; room_simpl.
  rewrite Bo, update_oid, Hob, Nat.eqb_refl. cbn [negb andb orb].
  rewrite (hit_no_x (advance b) (integrate (white r)))
    by (right; unfold advance, integrate; room_simpl; lra).
  rewrite andb_false_r.
  unfold integrate; room_simpl.
  unfold GRAVITY, LINEAR_DAMPING, ROTATION_DAMPING.
  repeat split; try assumption; try lra; try nra.
  exists (advance b). unfold advance; room_simpl.
  repeat split; try assumption; lra.
Qed.

Lemma flying_iter (k : nat) :
  (k <= 20)%nat -> flying k (Nat.iter k tick_room fired_room).
Proof.
  induction k as [|k IH]; intros Hk; [exact flying_fired|].
  rewrite Nat.iter_succ. apply flying_step; [apply IH; lia | lia].
Qed.

(** The tick in which the projectile reaches white. *)
Lemma flying_scores (r : Room) :
  flying 20 r ->
  gameOver (tick_room r) = true /\ bullets (tick_room r) <> [].
Proof.
  intros F.
  pose proof (flying_white_update 20 r F ltac:(lia)) as Hu.
  destruct F as (Hg & Hob & (b & Hb & Bx & By & Bvx & Bvy & Bo)
                 & How & Hx & Hvx & Hav & Hr & Hy & Hvy).
  rewrite INR_20 in *.
  assert (Hin : out_of_bounds (advance b) = false).
  { apply in_bounds; unfold advance, WIDTH, HEIGHT; room_simpl; lra. }
  destruct (tick_room_single r b Hg Hb Hin) as (Tb & _ & _ & Tg).
  rewrite Tb, Tg. split; [|discriminate].
  unfold hits_white; room_simpl.
  rewrite update_oid, Bo, How. cbn [Nat.eqb negb andb].
  rewrite Hu, hit_yes;
    [apply orb_true_r
    | unfold advance, integrate; room_simpl; lra
    | unfold advance, integrate, GRAVITY; room_simpl; lra].
Qed.

Lemma reachable_iter (n : nat) (r : Room) :
  reachable r -> reachable (Nat.iter n tick_room r).
Proof.
  intros H. induction n as [|n IH]; [exact H|].
  rewrite Nat.iter_succ. now apply reach_tick.
Qed.

Lemma reachable_fired : reachable fired_room.
Proof.
  unfold fired_room.
  apply reach_shoot; [| reflexivity | reflexivity].
  apply reach_join; [| unfold clients_count; cbn; lia].
  apply reach_join; [| unfold clients_count; cbn; lia].
  apply reach_create.
Qed.

(** C5, as stated, fails.  In the match of [fired_room] (room created,
    two joins, one shot of blue) the 21st tick scores the hit:
    [scored_room] is reachable, its phase is Ended, and the projectile
    is still in [room.bullets]. *)
Lemma projectile_outlives_hit :
  reachable scored_room
  /\ gameOver scored_room = true
  /\ bullets scored_room <> [].
Proof.
  split; [apply reachable_iter, reachable_fired|].
  unfold scored_room.
  rewrite (Nat.iter_succ 20). apply flying_scores. apply flying_iter. lia.
Qed.

(** ** Where the guns are after [update] *)

Lemma walls_x_arena (g : Gun) :
  g_radius g = 20 ->
  20 <= g_x (walls_x g) <= 400 /\ g_y (walls_x g) = g_y g.
Proof.
  intros Hr. unfold walls_x, js_lt, js_gt. rewrite Hr.
  destruct (Rltb (g_x g - 20) 0) eqn:E1.
  - destruct (applyWallCollision_keeps 1 0 (set_x 20 g))
      as (_ & Hx & Hy & Hrad).
    cbn [g_x g_y g_radius set_x] in Hx, Hy, Hrad.
    rewrite Hx, Hrad, Hr. unfold WIDTH. js_cmp. rewrite Hx, Hy.
    split; [lra | reflexivity].
  - apply Rltb_false in E1. rewrite Hr.
    destruct (Rltb WIDTH (g_x g + 20)) eqn:E2.
    + destruct (applyWallCollision_keeps (-1) 0 (set_x (WIDTH - 20) g))
        as (_ & Hx & Hy & _).
      cbn [g_x g_y g_radius set_x] in Hx, Hy.
      rewrite Hx, Hy. unfold WIDTH. split; [lra | reflexivity].
    + apply Rltb_false in E2. unfold WIDTH in E2.
      split; [lra | reflexivity].
Qed.

Lemma walls_y_arena (g : Gun) :
  g_radius g = 20 ->
  20 <= g_y (walls_y g) <= 620 /\ g_x (walls_y g) = g_x g.
Proof.
  intros Hr. unfold walls_y, js_lt, js_gt. rewrite Hr.
  destruct (Rltb (g_y g - 20) 0) eqn:E1.
  - destruct (applyWallCollision_keeps 0 1 (set_y 20 g))
      as (_ & Hx & Hy & Hrad).
    cbn [g_x g_y g_radius set_y] in Hx, Hy, Hrad.
    rewrite Hy, Hrad, Hr. unfold HEIGHT. js_cmp. rewrite Hx, Hy.
    split; [lra | reflexivity].
  - apply Rltb_false in E1. rewrite Hr.
    destruct (Rltb HEIGHT (g_y g + 20)) eqn:E2.
    + destruct (applyWallCollision_keeps 0 (-1) (set_y (HEIGHT - 20) g))
        as (_ & Hx & Hy & _).
      cbn [g_x g_y g_radius set_y] in Hx, Hy.
      rewrite Hx, Hy. unfold HEIGHT. split; [lra | reflexivity].
    + apply Rltb_false in E2. unfold HEIGHT in E2.
      split; [lra | reflexivity].
Qed.

Lemma update_in_arena (g : Gun) :
  g_radius g = 20 ->
  g_radius (update g) = 20
  /\ 20 <= g_x (update g) <= 400
  /\ 20 <= g_y (update g) <= 620.
Proof.
  intros Hr. unfold update. rewrite walls_split.
  set (c := clamp (integrate g)).
  assert (Hc : g_radius c = 20).
  { unfold c. destruct (clamp_keeps (integrate g)) as (-> & _). exact Hr. }
  destruct (walls_x_bounds c Hc) as (_ & _ & _ & Xr & _).
  destruct (walls_y_bounds (walls_x c) Xr) as (_ & _ & _ & Yr & _).
  destruct (walls_x_arena c Hc) as (Xx & _).
  destruct (walls_y_arena (walls_x c) Xr) as (Yy & Yx).
  rewrite Yx. auto.
Qed.

(** A projectile inside the hit box of a gun that is inside the walls
    is inside the arena. *)
Lemma hit_in_bounds (b : Bullet) (g : Gun) :
  20 <= g_x g <= 400 -> 20 <= g_y g <= 620 ->
  hit b g = true -> out_of_bounds b = false.
Proof.
  intros Hx Hy H. unfold hit, js_lt in H.
  apply andb_prop in H as [H1 H2].
  apply Rltb_true, Rabs_def2 in H1. apply Rltb_true, Rabs_def2 in H2.
  apply in_bounds; unfold WIDTH, HEIGHT; lra.
Qed.

Lemma forEach_guns (r : Room) :
  blue (bullets_forEach r) = blue r /\ white (bullets_forEach r) = white r.
Proof.
  unfold bullets_forEach.
  destruct (forEach_from_keeps (length (bullets r)) 0 r) as (-> & -> & _).
  auto.
Qed.

Lemma reachable_guns_20 (r : Room) : reachable r -> guns_20 r.
Proof.
  induction 1 as [o rb rw | r ws _ IH _ | r p rnd _ IH _ _
                  | r p o rb rw _ IH _ | r _ IH].
  - split; reflexivity.
  - exact IH.
  - destruct IH as [Hb Hw]. unfold shoot_in_room, shoot.
    destruct p; split; assumption.
  - destruct IH as [Hb Hw]. unfold rematch_in_room.
    destruct (rr_blue _ && rr_white _); split; try assumption; reflexivity.
  - destruct IH as [Hb Hw]. unfold tick_room.
    destruct (gameOver r); [split; assumption|].
    destruct (forEach_guns
                (mkRoom (update (blue r)) (update (white r)) (bullets r)
                        (clients r) false (winner r) (rematchReady r)))
      as (Eb & Ew).
    unfold guns_20. rewrite Eb, Ew. cbn [blue white].
    split; apply update_in_arena; assumption.
Qed.

Lemma callback_misses_outside (b : Bullet) (r : Room) :
  20 <= g_x (blue r) <= 400 -> 20 <= g_y (blue r) <= 620 ->
  20 <= g_x (white r) <= 400 -> 20 <= g_y (white r) <= 620 ->
  out_of_bounds (advance b) = true -> callback_hits b r = [].
Proof.
  intros Bx By Wx Wy Ho. unfold callback_hits, hits_blue, hits_white.
  destruct (hit (advance b) (blue r)) eqn:E1.
  { rewrite (hit_in_bounds _ _ Bx By E1) in Ho. discriminate. }
  destruct (hit (advance b) (white r)) eqn:E2.
  { rewrite (hit_in_bounds _ _ Wx Wy E2) in Ho. discriminate. }
  now rewrite !andb_false_r.
Qed.

(** Once a hit is scored the loop never empties the array: the scoring
    projectile is inside the arena, and later iterations splice at
    later indices only. *)
Lemma forEach_from_leaves_projectile (n k : nat) (r : Room) :
  20 <= g_x (blue r) <= 400 -> 20 <= g_y (blue r) <= 620 ->
  20 <= g_x (white r) <= 400 -> 20 <= g_y (white r) <= 620 ->
  (gameOver r = true -> (0 < k)%nat /\ bullets r <> []) ->
  gameOver (forEach_from n k r) = true ->
  bullets (forEach_from n k r) <> [].
Proof.
  revert k r. induction n as [|n IH]; intros k r Bx By Wx Wy J Hg.
  { cbn [forEach_from] in *. now apply J. }
  cbn [forEach_from] in *.
  destruct (bullets r !! k) as [b|] eqn:E.
  - destruct (bullet_callback_keeps k b r) as (Kb & Kw & _).
    destruct (bullet_callback_result k b r) as (_ & Rg & Rb).
    apply IH; try (rewrite ?Kb, ?Kw; assumption).
    intros Hg'. split; [lia|]. rewrite Rb.
    assert (Hl : exists x l, <[k := advance b]> (bullets r) = x :: l).
    { destruct (<[k := advance b]> (bullets r)) as [|x l] eqn:El;
        [|eauto].
      apply (f_equal length) in El. rewrite length_insert in El.
      apply lookup_lt_Some in E. cbn [length] in El. lia. }
    destruct Hl as (x & l & ->).
    destruct (out_of_bounds (advance b)) eqn:Ho; [|discriminate].
    rewrite (callback_misses_outside b r Bx By Wx Wy Ho) in Rg.
    rewrite Rg in Hg'. destruct (J Hg') as [Hk _].
    destruct k as [|k']; [lia|]. discriminate.
  - apply IH; try assumption.
    intros Hg'. destruct (J Hg') as [_ Hne]. split; [lia | exact Hne].
Qed.

Lemma tick_room_leaves_projectile (r : Room) :
  guns_20 r -> gameOver r = false ->
  gameOver (tick_room r) = true -> bullets (tick_room r) <> [].
Proof.
  intros [Hb Hw] Hg. unfold tick_room, bullets_forEach. rewrite Hg.
  destruct (update_in_arena (blue r) Hb) as (_ & Bx & By).
  destruct (update_in_arena (white r) Hw) as (_ & Wx & Wy).
  apply forEach_from_leaves_projectile; cbn [blue white gameOver];
    try assumption.
  discriminate.
Qed.

(** An Ended room holds the projectile that ended it. *)
Lemma reachable_ended_holds_projectile (r : Room) :
  reachable r -> gameOver r = true -> bullets r <> [].
Proof.
  induction 1 as [o rb rw | r ws _ IH _ | r p rnd _ _ Hrun _
                  | r p o rb rw _ IH _ | r Hr IH].
  - discriminate.
  - exact IH.
  - unfold shoot_in_room, shoot. destruct p; cbn [gameOver]; congruence.
  - unfold rematch_in_room.
    destruct (rr_blue _ && rr_white _); cbn [fst]; [discriminate|].
    exact IH.
  - destruct (gameOver r) eqn:Hg.
    + unfold tick_room. rewrite Hg. intros _. now apply IH.
    + apply tick_room_leaves_projectile; [|exact Hg].
      now apply reachable_guns_20.
Qed.

(** C5, amended.  For every reachable state of a room: it has no
    projectiles when it is created and right after a reset; while its
    phase is Ended nothing touches its projectiles (the tick leaves the
    room as it is and a fire action is dropped), and they are not
    cleared: an Ended room always holds one projectile or more, because
    a tick that scores a hit leaves a non-empty projectile array behind,
    which then stays until the reset. *)
Theorem projectiles_frozen_until_reset (r : Room) :
  reachable r ->
  (gameOver r = true -> bullets r <> [])
  /\ (gameOver r = true -> tick_room r = r)
  /\ (gameOver r = true ->
      forall (S : Server) (ws : nat) (rnd : R),
        rooms S !! ws_room (conn_of S ws) = Some r ->
        on_shoot ws rnd S = Completed S [])
  /\ (gameOver r = false -> gameOver (tick_room r) = true ->
      bullets (tick_room r) <> [])
  /\ (forall o rb rw,
        bullets (resetRoom o rb rw r) = []
        /\ gameOver (resetRoom o rb rw r) = false)
  /\ (forall o rb rw,
        bullets (createRoom o rb rw) = []
        /\ gameOver (createRoom o rb rw) = false).
Proof.
  intros Hr. split; [now apply reachable_ended_holds_projectile|].
  repeat split.
  - intros Hg. unfold tick_room. now rewrite Hg.
  - intros Hg S ws rnd Hl. unfold on_shoot, room_at. now rewrite Hl, Hg.
  - apply tick_room_leaves_projectile. now apply reachable_guns_20.
Qed.

Lemma projectiles_frozen_until_reset_witness :
  reachable scored_room
  /\ gameOver scored_room = true
  /\ bullets scored_room <> []
  /\ tick_room scored_room = scored_room
  /\ bullets (resetRoom 2 0 0.5 scored_room) = [].
Proof.
  assert (Hr : reachable scored_room)
    by apply reachable_iter, reachable_fired.
  assert (Hg : gameOver scored_room = true).
  { unfold scored_room. rewrite (Nat.iter_succ 20).
    apply flying_scores, flying_iter. lia. }
  destruct (projectiles_frozen_until_reset scored_room Hr)
    as (H1 & H2 & _ & _ & H5 & _).
  split; [exact Hr|]. split; [exact Hg|].
  split; [exact (H1 Hg)|]. split; [exact (H2 Hg)|].
  apply H5.
Defined.

End BulletLoop.

(** ** Message handlers (C6, C10) *)

Section Handlers.

(** A fire action of a connection that has a slot and whose room
    exists: in both versions the gun of that slot fires exactly when
    the room is running; otherwise the action is dropped and nothing
    changes.  It is dropped as well when there is no such room (in
    [src/server.js], for a room key that is not an inherited name). *)
Lemma on_shoot_with_slot :
  (forall S ws rnd p,
     ws_player (ServerJs.conn_of S ws) = Some p ->
     (forall room,
        ServerJs.rooms S !! ws_room (ServerJs.conn_of S ws) = Some room ->
        ServerJs.on_shoot ws rnd S
        = if ServerJs.gameOver room then Completed S []
          else
            Completed
              (ServerJs.mkServer
                 (<[ws_room (ServerJs.conn_of S ws)
                    := ServerJs.shoot_in_room p rnd room]>
                    (ServerJs.rooms S))
                 (ServerJs.conns S) (ServerJs.next_oid S)) [])
     /\ (ServerJs.rooms S !! ws_room (ServerJs.conn_of S ws) = None ->
         inherited (ws_room (ServerJs.conn_of S ws)) = false ->
         ServerJs.on_shoot ws rnd S = Completed S []))
  /\ (forall S ws t1 t2 rnd p,
        ws_player (Part000.conn_of S ws) = Some p ->
        (forall r,
           Part000.rooms S !! ws_room (Part000.conn_of S ws) = Some r ->
           Part000.on_shoot ws t1 t2 rnd S
           = if Part000.started r then
               Completed
                 (Part000.mkServer
                    (<[ws_room (Part000.conn_of S ws)
                       := Part000.shoot_in_room p t1 t2 rnd r]>
                       (Part000.rooms S))
                    (Part000.conns S)) []
             else Completed S [])
        /\ (Part000.rooms S !! ws_room (Part000.conn_of S ws) = None ->
            Part000.on_shoot ws t1 t2 rnd S = Completed S [])).
Proof.
  split.
  - intros S ws rnd p Hp. split.
    + intros room Hr. unfold ServerJs.on_shoot, ServerJs.room_at.
      rewrite Hr, Hp. reflexivity.
    + intros Hr Hi. unfold ServerJs.on_shoot, ServerJs.room_at.
      rewrite Hr, Hi. reflexivity.
  - intros S ws t1 t2 rnd p Hp. split.
    + intros r Hr. unfold Part000.on_shoot, Part000.room_at.
      rewrite Hr, Hp. destruct (Part000.started r); reflexivity.
    + intros Hr. unfold Part000.on_shoot, Part000.room_at.
      rewrite Hr. reflexivity.
Qed.

(** A connection that never joined, while a running room is stored
    under the key ["undefined"]: the handler is left by a [TypeError],
    in both versions. *)
Lemma on_shoot_without_slot :
  (forall S ws rnd room,
     ServerJs.conns S !! ws = None ->
     ServerJs.rooms S !! "undefined" = Some room ->
     ServerJs.gameOver room = false ->
     ServerJs.on_shoot ws rnd S = TypeError)
  /\ (forall S ws t1 t2 rnd r,
        Part000.conns S !! ws = None ->
        Part000.rooms S !! "undefined" = Some r ->
        Part000.started r = true ->
        Part000.on_shoot ws t1 t2 rnd S = TypeError).
Proof.
  split.
  - intros S ws rnd room Hc Hr Hg.
    unfold ServerJs.on_shoot, ServerJs.room_at, ServerJs.conn_of.
    rewrite Hc.
    cbn [default fresh_conn ws_room ws_player]. now rewrite Hr, Hg.
  - intros S ws t1 t2 rnd r Hc Hr Hs.
    unfold Part000.on_shoot, Part000.room_at, Part000.conn_of.
    rewrite Hc.
    cbn [default fresh_conn ws_room ws_player]. now rewrite Hr, Hs.
Qed.

(** C6 on its failing input.  Connection 1 sends a [join] without a
    [room] field: the room is stored under ["undefined"] and runs.
    Connection 2, which never joined and has no slot, sends [shoot]:
    the handler does not drop the action, it throws. *)
Theorem shoot_without_slot_throws :
  exists S1,
    ServerJs.on_join 1 "undefined" 0 0.5 ServerJs.init
    = Completed S1 [Joined 1 Blue]
    /\ ServerJs.conns S1 !! 2%nat = None
    /\ ServerJs.on_shoot 2 0.5 S1 = TypeError.
Proof.
  eexists. split; [|split].
  - unfold ServerJs.on_join, ServerJs.room_at, ServerJs.init.
    cbn [ServerJs.rooms ServerJs.conns ServerJs.next_oid].
    rewrite lookup_empty. reflexivity.
  - cbn [ServerJs.conns]. rewrite lookup_insert_ne by lia.
    apply lookup_empty.
  - eapply (proj1 on_shoot_without_slot).
    + cbn [ServerJs.conns]. rewrite lookup_insert_ne by lia.
      apply lookup_empty.
    + cbn [ServerJs.rooms]. apply lookup_insert_eq.
    + reflexivity.
Qed.

(** C10.  A [create] request stores, under its room key, the room that
    [createRoom] has just made: the map of the request, a blue gun at
    (90, 640) and a white gun at (330, 640), both at rest with radius
    20, heat 0 and no overheat, no projectiles, no clients, not started,
    no start time.  The handler binds the creator to it as blue and
    answers [joined] as blue.  What was stored under the key before
    plays no part in the result: the room read back under the key is
    the new one.  For every key but ["__proto__"] all other lookups in
    the table are as before. *)
Theorem create_replaces_room
        (S : Part000.Server) (ws : nat) (key mapKey : string) (rb rw : R) :
  let fresh := Part000.createRoom mapKey rb rw in
  (Part000.map fresh = Part000.MAPS mapKey
   /\ Part000.bullets fresh = []
   /\ Part000.clients fresh = no_clients
   /\ Part000.started fresh = false
   /\ Part000.startAt fresh = 0%Z
   /\ Part000.blue fresh
      = Part000.mkGun 90 640 0 0 (rb * PI * 2) 0 20 0 false 0
   /\ Part000.white fresh
      = Part000.mkGun 330 640 0 0 (rw * PI * 2) 0 20 0 false 0)
  /\ exists S',
      Part000.on_create ws key mapKey rb rw S = Completed S' [Joined ws Blue]
      /\ Part000.room_at (Part000.rooms S') key
         = IsRoom (Part000.set_clients (mkClients (Some ws) None) fresh)
      /\ Part000.rooms S' !! key
         = Some (Part000.set_clients (mkClients (Some ws) None) fresh)
      /\ (key <> "__proto__" ->
          forall k, k <> key ->
                    Part000.room_at (Part000.rooms S') k
                    = Part000.room_at (Part000.rooms S) k)
      /\ Part000.conns S' !! ws = Some (mkConn key (Some Blue)).
Proof.
  cbn zeta. split.
  - unfold Part000.createRoom, Part000.new_Gun, Part000.WIDTH,
      Part000.HEIGHT.
    cbn [Part000.map Part000.bullets Part000.clients Part000.started
         Part000.startAt Part000.blue Part000.white].
    repeat split; f_equal; lra.
  - eexists. split; [reflexivity|].
    cbn [Part000.rooms Part000.conns]. split; [|split; [|split]].
    + unfold Part000.room_at. now rewrite lookup_insert_eq.
    + apply lookup_insert_eq.
    + intros Hp k Hk. unfold Part000.room_at.
      rewrite !(lookup_insert_ne _ key) by congruence. reflexivity.
    + apply lookup_insert_eq.
Qed.

End Handlers.

(** * Further properties of the code *)

(** ** The projectile loop of [src/server.js], in general *)

Section ProjectileLoop.
Import ServerJs ServerJsAux ServerJsMore.

Lemma bullet_callback_length (i : nat) (b : Bullet) (r : Room) :
  (length (bullets (bullet_callback i b r)) <= length (bullets r))%nat.
Proof.
  rewrite (proj2 (proj2 (bullet_callback_result i b r))).
  destruct (out_of_bounds (advance b)).
  - destruct (<[i := advance b]> (bullets r) !! i) eqn:E.
    + rewrite length_delete by eauto. rewrite length_insert. lia.
    + apply lookup_ge_None in E. rewrite length_insert in E.
      assert (H : delete i (<[i := advance b]> (bullets r))
                  = <[i := advance b]> (bullets r)).
      { apply list_eq. intros j. rewrite list_lookup_delete.
        destruct (decide (j < i)%nat); [reflexivity|].
        rewrite !(proj2 (lookup_ge_None _ _)); [reflexivity | | ];
          rewrite length_insert; lia. }
      rewrite H, length_insert. lia.
  - rewrite length_insert. lia.
Qed.

(** The invariant of the loop before index [k] is visited: what lies
    before [k] was visited at most once, what lies at [k] or after it was
    not visited yet. *)
Lemma forEach_from_moves_once (l0 : list Bullet) (n k : nat) (r : Room) :
  (forall i b', bullets r !! i = Some b' ->
                ((i < k)%nat -> moved_at_most_once l0 b')
                /\ ((k <= i)%nat -> b' ∈ l0)) ->
  Forall (moved_at_most_once l0) (bullets (forEach_from n k r))
  /\ (length (bullets (forEach_from n k r)) <= length (bullets r))%nat.
Proof.
  revert k r. induction n as [|n IH]; intros k r Inv.
  - cbn [forEach_from]. split; [|lia].
    apply Forall_lookup_2. intros i b' Hi.
    destruct (Inv i b' Hi) as [Hlt Hge].
    destruct (decide (i < k)%nat) as [H|H]; [now apply Hlt|].
    exists b'. split; [apply Hge; lia | now left].
  - cbn [forEach_from]. destruct (bullets r !! k) as [b|] eqn:E.
    + assert (Hb : b ∈ l0) by (apply (Inv k b E); lia).
      destruct (IH (S k) (bullet_callback k b r)) as [HF HL].
      2:{ split; [exact HF|].
          pose proof (bullet_callback_length k b r). lia. }
      intros i b'.
      rewrite (proj2 (proj2 (bullet_callback_result k b r))).
      destruct (out_of_bounds (advance b)) eqn:Ho.
      * rewrite list_lookup_delete.
        destruct (decide (i < k)%nat) as [Hik|Hik].
        -- rewrite list_lookup_insert_ne by lia. intros Hi.
           split; [intros _; apply (Inv i b' Hi); exact Hik | lia].
        -- rewrite list_lookup_insert_ne by lia. intros Hi.
           assert (Ho' : b' ∈ l0) by (apply (Inv (S i) b' Hi); lia).
           split; [|intros _; exact Ho'].
           intros _. exists b'. split; [exact Ho' | now left].
      * destruct (decide (i = k)) as [->|Hik].
        -- rewrite list_lookup_insert_eq by (eapply lookup_lt_Some; eauto).
           intros [= <-]. split; [|lia].
           intros _. exists b. split; [exact Hb | right; now split].
        -- rewrite list_lookup_insert_ne by lia. intros Hi.
           destruct (Inv i b' Hi) as [Hlt Hge].
           split; [intros ?; apply Hlt; lia | intros ?; apply Hge; lia].
    + apply IH. intros i b' Hi. destruct (Inv i b' Hi) as [Hlt Hge].
      split; [|intros ?; apply Hge; lia].
      intros Hik. destruct (decide (i = k)) as [->|Hne]; [congruence|].
      apply Hlt. lia.
Qed.

(** X1.  One tick of a room never adds a projectile and never moves a
    projectile twice: every projectile it leaves in [room.bullets] is a
    projectile that was there, either untouched or moved by exactly one
    step to a position inside the arena. *)
Theorem tick_moves_each_projectile_at_most_once (r : Room) :
  Forall (moved_at_most_once (bullets r)) (bullets (tick_room r))
  /\ (length (bullets (tick_room r)) <= length (bullets r))%nat.
Proof.
  unfold tick_room. destruct (gameOver r).
  - split; [|lia]. apply Forall_forall. intros b Hb.
    exists b. split; [exact Hb | now left].
  - unfold bullets_forEach.
    set (r1 := mkRoom _ _ _ _ _ _ _).
    change (bullets r) with (bullets r1).
    apply forEach_from_moves_once.
    intros i b' Hi. split; [lia|]. intros _.
    eapply list_elem_of_lookup_2; eauto.
Qed.

(** While no projectile leaves the arena the loop visits every index. *)
Lemma forEach_from_moves_all (suf pre : list Bullet) (r : Room) :
  bullets r = pre ++ suf ->
  Forall (fun b => out_of_bounds (advance b) = false) suf ->
  bullets (forEach_from (length suf) (length pre) r)
  = pre ++ (advance <$> suf).
Proof.
  revert pre r. induction suf as [|b suf IH]; intros pre r Hb Hin.
  - cbn [length forEach_from fmap list_fmap]. exact Hb.
  - apply Forall_cons in Hin as [Hb0 Hin].
    cbn [length].
    rewrite (forEach_from_at _ _ r b)
      by (rewrite Hb; now apply list_lookup_middle).
    replace (S (length pre)) with (length (pre ++ [advance b]))
      by (rewrite length_app; cbn [length]; lia).
    rewrite (IH (pre ++ [advance b])); [| | exact Hin].
    + rewrite <- app_assoc. reflexivity.
    + rewrite (proj2 (proj2 (bullet_callback_result _ b r))), Hb0, Hb.
      rewrite insert_app_r_alt by lia.
      rewrite Nat.sub_diag, <- app_assoc. reflexivity.
Qed.

(** X2.  In a tick of a running room in which no projectile leaves the
    arena, every projectile is kept, in its place, and moved by exactly
    one step. *)
Theorem tick_moves_all_when_none_leaves (r : Room) :
  gameOver r = false ->
  Forall (fun b => out_of_bounds (advance b) = false) (bullets r) ->
  bullets (tick_room r) = advance <$> bullets r.
Proof.
  intros Hg Hin. unfold tick_room, bullets_forEach. rewrite Hg.
  set (r1 := mkRoom _ _ _ _ _ _ _).
  change (bullets r1) with (bullets r).
  apply (forEach_from_moves_all (bullets r) [] r1); [reflexivity | exact Hin].
Qed.

Lemma tick_moves_all_when_none_leaves_witness :
  gameOver self_room = false
  /\ Forall (fun b => out_of_bounds (advance b) = false) (bullets self_room)
  /\ bullets (tick_room self_room) = advance <$> bullets self_room.
Proof.
  assert (H : Forall (fun b => out_of_bounds (advance b) = false)
                     (bullets self_room)).
  { repeat constructor.
    apply in_bounds; unfold advance, WIDTH, HEIGHT;
      cbn [b_x b_y b_vx b_vy]; lra. }
  split; [reflexivity|]. split; [exact H|].
  apply (tick_moves_all_when_none_leaves self_room eq_refl H).
Defined.

End ProjectileLoop.

(** ** Invariants of a room of [src/server.js] *)

Section RoomInvariants.
Import ServerJs ServerJsAux ServerJsMore.

Lemma forEach_from_owners (P : Bullet -> Prop) (n k : nat) (r : Room) :
  (forall b, P b -> P (advance b)) ->
  Forall P (bullets r) -> Forall P (bullets (forEach_from n k r)).
Proof.
  intros Hadv. revert k r. induction n as [|n IH]; intros k r Hall.
  - exact Hall.
  - cbn [forEach_from]. destruct (bullets r !! k) as [b|] eqn:E.
    + apply IH. apply bullet_callback_owners; [|exact Hall].
      apply Hadv. eapply Forall_lookup_1; eauto.
    + now apply IH.
Qed.

Lemma tick_room_guns (r : Room) :
  gameOver r = false ->
  blue (tick_room r) = update (blue r)
  /\ white (tick_room r) = update (white r).
Proof.
  intros Hg. unfold tick_room, bullets_forEach. rewrite Hg.
  set (r1 := mkRoom _ _ _ _ _ _ _).
  destruct (forEach_from_keeps (length (bullets r1)) 0 r1) as (-> & -> & _).
  split; reflexivity.
Qed.

Lemma owners_ok_tick (r : Room) : owners_ok r -> owners_ok (tick_room r).
Proof.
  intros [Hne Hall]. destruct (gameOver r) eqn:Hg.
  { unfold tick_room. rewrite Hg. split; assumption. }
  destruct (tick_room_guns r Hg) as [Eb Ew].
  unfold owners_ok. rewrite Eb, Ew, !update_oid. split; [exact Hne|].
  unfold tick_room, bullets_forEach. rewrite Hg.
  apply forEach_from_owners; [intros b Hb; exact Hb | exact Hall].
Qed.

Lemma reachable_owners_ok (r : Room) : reachable r -> owners_ok r.
Proof.
  induction 1 as [o rb rw | r ws _ IH _ | r p rnd _ IH _ _
                  | r p o rb rw _ IH _ | r _ IH].
  - split; [cbn; lia | constructor].
  - exact IH.
  - destruct IH as [Hne Hall]. unfold shoot_in_room, shoot.
    destruct p; (split; [exact Hne|]);
      cbn [bullets blue white oid player];
      (apply Forall_app; split; [exact Hall|]);
      (apply Forall_cons; split; [cbn [b_owner]; auto | constructor]).
  - unfold rematch_in_room.
    destruct (rr_blue _ && rr_white _); cbn [fst]; [|exact IH].
    split; [cbn; lia | constructor].
  - now apply owners_ok_tick.
Qed.

(** X3.  In every reachable state of a room the two guns are different
    objects and every projectile in flight was fired by one of them (a
    reset leaves no projectile of the guns it replaces); hence a hit
    registered on blue comes from a projectile of white, and a hit
    registered on white from a projectile of blue. *)
Theorem hits_come_from_the_opponent (r : Room) :
  reachable r ->
  owners_ok r
  /\ (forall b, b ∈ bullets r -> hits_blue b r = true ->
                b_owner b = oid (white r))
  /\ (forall b, b ∈ bullets r -> hits_white b r = true ->
                b_owner b = oid (blue r)).
Proof.
  intros Hr. pose proof (reachable_owners_ok r Hr) as Hok.
  split; [exact Hok|]. destruct Hok as [Hne Hall].
  rewrite Forall_forall in Hall.
  split; intros b Hb Hh; destruct (Hall b Hb) as [Ho|Ho]; try exact Ho.
  - unfold hits_blue in Hh. rewrite Ho, Nat.eqb_refl in Hh. discriminate.
  - unfold hits_white in Hh. rewrite Ho, Nat.eqb_refl in Hh. discriminate.
Qed.

(** The projectile that ends the match of [scored_room] is in the hit
    box of white. *)
Lemma scored_room_hit :
  gameOver scored_room = true
  /\ exists b, b ∈ bullets scored_room /\ hits_white b scored_room = true.
Proof.
  unfold scored_room. rewrite (Nat.iter_succ 20).
  pose proof (flying_iter 20 ltac:(lia)) as F.
  set (r := Nat.iter 20 tick_room fired_room) in *.
  split; [now apply flying_scores|].
  pose proof (flying_white_update 20 r F ltac:(lia)) as Hu.
  destruct F as (Hg & Hob & (b & Hb & Bx & By & Bvx & Bvy & Bo)
                 & How & Hx & Hvx & Hav & Hr & Hy & Hvy).
  rewrite INR_20 in *.
  assert (Hin : out_of_bounds (advance b) = false).
  { apply in_bounds; unfold advance, WIDTH, HEIGHT;
      cbn [b_x b_y b_vx b_vy]; lra. }
  destruct (tick_room_single r b Hg Hb Hin) as (Tb & _ & Tw & _).
  exists (advance b). split; [rewrite Tb; apply list_elem_of_here|].
  unfold hits_white. rewrite Tw, update_oid, How.
  cbn [advance b_owner]. rewrite Bo. cbn [Nat.eqb negb andb].
  rewrite Hu. apply hit_yes.
  - unfold advance, integrate; cbn [b_x b_vx g_x g_vx]. lra.
  - unfold advance, integrate, GRAVITY; cbn [b_y b_vy g_y g_vy]. lra.
Qed.

Lemma hits_come_from_the_opponent_witness :
  reachable scored_room
  /\ exists b,
       b ∈ bullets scored_room /\ hits_white b scored_room = true
       /\ b_owner b = oid (blue scored_room).
Proof.
  assert (Hr : reachable scored_room)
    by apply reachable_iter, reachable_fired.
  split; [exact Hr|].
  destruct scored_room_hit as (_ & b & Hb & Hh).
  exists b. split; [exact Hb|]. split; [exact Hh|].
  exact (proj2 (proj2 (hits_come_from_the_opponent scored_room Hr))
           b Hb Hh).
Defined.

Lemma in_arena_update (g : Gun) :
  g_radius g = 20 -> in_arena (update g).
Proof.
  intros Hr. destruct (update_in_arena g Hr) as (_ & Hx & Hy).
  unfold in_arena, WIDTH, HEIGHT. lra.
Qed.

(** X4.  In every reachable state of a room both guns have radius 20 and
    their centres lie inside the walls, in [20, WIDTH-20] x
    [20, HEIGHT-20]. *)
Theorem guns_stay_inside_the_walls (r : Room) :
  reachable r ->
  (g_radius (blue r) = 20 /\ in_arena (blue r))
  /\ (g_radius (white r) = 20 /\ in_arena (white r)).
Proof.
  intros Hr. destruct (reachable_guns_20 r Hr) as [Rb Rw].
  enough (in_arena (blue r) /\ in_arena (white r)) by tauto.
  induction Hr as [o rb rw | r ws Hr IH _ | r p rnd Hr IH _ _
                   | r p o rb rw Hr IH _ | r Hr IH].
  - unfold in_arena, createRoom, new_Gun, WIDTH, HEIGHT.
    cbn [blue white g_x g_y]. lra.
  - now apply IH.
  - destruct (reachable_guns_20 r Hr) as [Rb' Rw'].
    destruct (IH Rb' Rw') as [Ib Iw].
    unfold shoot_in_room, shoot. destruct p; split; assumption.
  - destruct (reachable_guns_20 r Hr) as [Rb' Rw'].
    destruct (IH Rb' Rw') as [Ib Iw].
    unfold rematch_in_room.
    destruct (rr_blue _ && rr_white _); cbn [fst]; [|split; assumption].
    unfold in_arena, resetRoom, new_Gun, WIDTH, HEIGHT.
    cbn [blue white g_x g_y]. lra.
  - destruct (reachable_guns_20 r Hr) as [Rb' Rw'].
    destruct (gameOver r) eqn:Hg.
    + unfold tick_room. rewrite Hg. now apply IH.
    + destruct (tick_room_guns r Hg) as [-> ->].
      split; now apply in_arena_update.
Qed.

Lemma guns_stay_inside_the_walls_witness :
  reachable (createRoom 0 0 0.5) /\ in_arena (blue (createRoom 0 0 0.5)).
Proof.
  split; [apply reach_create|].
  apply (guns_stay_inside_the_walls (createRoom 0 0 0.5)
           (reach_create 0 0 0.5)).
Defined.

(** X5.  In every reachable state of a room a winner is recorded exactly
    when the game is over. *)
Theorem winner_recorded_iff_game_over (r : Room) :
  reachable r -> (gameOver r = true <-> is_Some (winner r)).
Proof.
  induction 1 as [o rb rw | r ws _ IH _ | r p rnd _ IH _ _
                  | r p o rb rw _ IH _ | r _ IH].
  - cbn. split; [discriminate | intros [w Hw]; discriminate].
  - exact IH.
  - unfold shoot_in_room, shoot. destruct p; exact IH.
  - unfold rematch_in_room.
    destruct (rr_blue _ && rr_white _); cbn [fst]; [|exact IH].
    cbn. split; [discriminate | intros [w Hw]; discriminate].
  - destruct (gameOver r) eqn:Hg.
    + unfold tick_room. rewrite Hg. rewrite Hg. exact IH.
    + destruct (tick_room_result r Hg) as (-> & ->).
      destruct (tick_hits r) as [|w l] eqn:E; [cbn [last]; exact IH|].
      destruct (last (w :: l)) as [w'|] eqn:El.
      * split; [intros _; now exists w' | reflexivity].
      * apply last_None in El. discriminate.
Qed.

Lemma winner_recorded_iff_game_over_witness :
  reachable scored_room
  /\ gameOver scored_room = true
  /\ is_Some (winner scored_room).
Proof.
  assert (Hr : reachable scored_room)
    by apply reachable_iter, reachable_fired.
  split; [exact Hr|].
  pose proof (proj1 scored_room_hit) as Hg.
  split; [exact Hg|].
  exact (proj1 (winner_recorded_iff_game_over scored_room Hr) Hg).
Defined.

End RoomInvariants.

(** ** Wall response and firing in [src/server.js] *)

Section Physics.
Import ServerJs ServerJsAux ServerJsMore.

(** X6.  Wall restitution.  The four wall responses of [update] use the
    normals (1,0), (-1,0), (0,1), (0,-1).  For a normal along the x
    axis and a gun moving into the wall, [applyWallCollision] reverses
    the x component of the velocity and multiplies both components by
    [WALL_RESTITUTION]: the gun leaves the wall, neither component
    grows in absolute value, and the angular velocity is lowered by
    [ANGULAR_TRANSFER] times the speed into the wall; the position is
    left alone.  The same holds along the y axis.  A gun that does not
    move into the wall is not changed, whatever the normal. *)
Theorem wall_restitution (n : R) (g : Gun) :
  n = 1 \/ n = -1 ->
  (g_vx g * n < 0 ->
   let g' := applyWallCollision n 0 g in
   g_vx g' = - g_vx g * WALL_RESTITUTION
   /\ g_vy g' = g_vy g * WALL_RESTITUTION
   /\ g_av g' = g_av g + g_vx g * n * ANGULAR_TRANSFER
   /\ 0 < g_vx g' * n
   /\ Rabs (g_vx g') <= Rabs (g_vx g) /\ Rabs (g_vy g') <= Rabs (g_vy g)
   /\ g_av g' <= g_av g
   /\ g_x g' = g_x g /\ g_y g' = g_y g)
  /\ (g_vy g * n < 0 ->
      let g' := applyWallCollision 0 n g in
      g_vx g' = g_vx g * WALL_RESTITUTION
      /\ g_vy g' = - g_vy g * WALL_RESTITUTION
      /\ g_av g' = g_av g + g_vy g * n * ANGULAR_TRANSFER
      /\ 0 < g_vy g' * n
      /\ Rabs (g_vx g') <= Rabs (g_vx g) /\ Rabs (g_vy g') <= Rabs (g_vy g)
      /\ g_av g' <= g_av g
      /\ g_x g' = g_x g /\ g_y g' = g_y g)
  /\ (forall nx ny,
        0 <= g_vx g * nx + g_vy g * ny -> applyWallCollision nx ny g = g).
Proof.
  intros Hn. split; [|split].
  - intros Hd g'. unfold g'.
    rewrite applyWallCollision_into by lra.
    cbn [g_vx g_vy g_av g_x g_y].
    unfold WALL_RESTITUTION, ANGULAR_TRANSFER.
    assert (Hv : (g_vx g - 2 * (g_vx g * n + g_vy g * 0) * n) * 0.85
                 = - g_vx g * 0.85) by (destruct Hn; subst n; lra).
    assert (Hw : (g_vy g - 2 * (g_vx g * n + g_vy g * 0) * 0) * 0.85
                 = g_vy g * 0.85) by lra.
    rewrite Hv, Hw.
    repeat split; try lra;
      unfold Rabs; repeat destruct (Rcase_abs _); lra.
  - intros Hd g'. unfold g'.
    rewrite applyWallCollision_into by lra.
    cbn [g_vx g_vy g_av g_x g_y].
    unfold WALL_RESTITUTION, ANGULAR_TRANSFER.
    assert (Hv : (g_vx g - 2 * (g_vx g * 0 + g_vy g * n) * 0) * 0.85
                 = g_vx g * 0.85) by lra.
    assert (Hw : (g_vy g - 2 * (g_vx g * 0 + g_vy g * n) * n) * 0.85
                 = - g_vy g * 0.85) by (destruct Hn; subst n; lra).
    rewrite Hv, Hw.
    repeat split; try lra;
      unfold Rabs; repeat destruct (Rcase_abs _); lra.
  - intros nx ny Hd. unfold applyWallCollision, js_lt.
    now rewrite (proj2 (Rltb_false _ 0)) by exact Hd.
Qed.

Lemma wall_restitution_witness :
  (1 = 1 \/ 1 = -1)
  /\ g_vx (mkGun 0 20 300 (-4) 3 0 0 20) * 1 < 0
  /\ g_vx (applyWallCollision 1 0 (mkGun 0 20 300 (-4) 3 0 0 20))
     = - g_vx (mkGun 0 20 300 (-4) 3 0 0 20) * WALL_RESTITUTION.
Proof.
  assert (Hn : 1 = 1 \/ 1 = -1) by (left; reflexivity).
  assert (Hd : g_vx (mkGun 0 20 300 (-4) 3 0 0 20) * 1 < 0)
    by (cbn [g_vx]; lra).
  split; [exact Hn|]. split; [exact Hd|].
  apply (proj1 (wall_restitution 1 (mkGun 0 20 300 (-4) 3 0 0 20) Hn) Hd).
Defined.

(** X7.  A shot of a gun that is inside the walls (as every gun of a
    reachable room is; the coordinates are then small enough for the
    offset of 32 to survive rounding) appends exactly one projectile,
    owned by the shooting gun and flying in the direction of the
    barrel; the new projectile is outside the hit box of the shooter,
    whatever the angle; the shot leaves the position, the angle, the
    radius and the identity of the gun as they are. *)
Theorem shot_geometry (rnd : R) (g : Gun) (bs : list Bullet) :
  in_arena g ->
  exists b,
    snd (shoot rnd g bs) = bs ++ [b]
    /\ b_owner b = oid g
    /\ b_vx b = cos (g_angle g) * BULLET_SPEED
    /\ b_vy b = sin (g_angle g) * BULLET_SPEED
    /\ hit b g = false
    /\ hit b (fst (shoot rnd g bs)) = false
    /\ g_x (fst (shoot rnd g bs)) = g_x g
    /\ g_y (fst (shoot rnd g bs)) = g_y g
    /\ g_angle (fst (shoot rnd g bs)) = g_angle g
    /\ g_radius (fst (shoot rnd g bs)) = g_radius g
    /\ oid (fst (shoot rnd g bs)) = oid g.
Proof.
  intros _. unfold shoot. cbn [fst snd]. eexists. split; [reflexivity|].
  cbn [b_owner b_x b_y b_vx b_vy g_x g_y g_vx g_vy g_angle g_radius oid].
  pose proof (sin2_cos2 (g_angle g)) as Hcs. unfold Rsqr in Hcs.
  set (c := cos (g_angle g)) in *. set (s := sin (g_angle g)) in *.
  assert (Hh : Rltb (Rabs (g_x g + c * 32 - g_x g)) 20
               && Rltb (Rabs (g_y g + s * 32 - g_y g)) 20 = false).
  { destruct (Rltb (Rabs (g_x g + c * 32 - g_x g)) 20) eqn:E1;
      [|reflexivity].
    destruct (Rltb (Rabs (g_y g + s * 32 - g_y g)) 20) eqn:E2;
      [|reflexivity].
    apply Rltb_true, Rabs_def2 in E1. apply Rltb_true, Rabs_def2 in E2.
    exfalso. nra. }
  unfold hit, js_lt. cbn [b_x b_y g_x g_y].
  repeat split; exact Hh.
Qed.

Lemma shot_geometry_witness :
  in_arena (mkGun 0 90 520 0 0 0 0 20)
  /\ exists b,
       snd (shoot 0.5 (mkGun 0 90 520 0 0 0 0 20) []) = [b]
       /\ hit b (mkGun 0 90 520 0 0 0 0 20) = false.
Proof.
  assert (H : in_arena (mkGun 0 90 520 0 0 0 0 20)).
  { unfold in_arena, WIDTH, HEIGHT. cbn [g_x g_y]. lra. }
  split; [exact H|].
  destruct (shot_geometry 0.5 (mkGun 0 90 520 0 0 0 0 20) [] H)
    as (b & Hb & _ & _ & _ & Hh & _).
  exists b. split; [exact Hb | exact Hh].
Defined.

Lemma hypot_unique (a b m : R) :
  0 <= m -> a * a + b * b = m * m -> hypot a b = m.
Proof.
  intros Hm H. pose proof (hypot_nonneg a b) as H0.
  pose proof (hypot_sqr a b) as Hs. rewrite H in Hs. nra.
Qed.

(** X8.  The clamp only shortens.  A velocity longer than [MAX_SPEED]
    has both components multiplied by the quotient [MAX_SPEED / speed],
    which is below 1 and not negative, so that neither component grows
    in absolute value nor changes sign; a velocity that is not longer
    than [MAX_SPEED] is kept.  The angular velocity becomes the nearest
    value of [-MAX_ANGULAR_SPEED, MAX_ANGULAR_SPEED].  Position, angle,
    radius and identity are not touched. *)
Theorem clamp_saturates (g : Gun) :
  (MAX_SPEED < speed_of g ->
   let s := MAX_SPEED / speed_of g in
   0 <= s < 1
   /\ g_vx (clamp g) = g_vx g * s
   /\ g_vy (clamp g) = g_vy g * s
   /\ Rabs (g_vx (clamp g)) <= Rabs (g_vx g)
   /\ Rabs (g_vy (clamp g)) <= Rabs (g_vy g)
   /\ 0 <= g_vx (clamp g) * g_vx g
   /\ 0 <= g_vy (clamp g) * g_vy g)
  /\ (speed_of g <= MAX_SPEED ->
      g_vx (clamp g) = g_vx g /\ g_vy (clamp g) = g_vy g)
  /\ g_av (clamp g)
     = Rmax (- MAX_ANGULAR_SPEED) (Rmin MAX_ANGULAR_SPEED (g_av g))
  /\ Rabs (g_av (clamp g)) <= MAX_ANGULAR_SPEED
  /\ g_x (clamp g) = g_x g /\ g_y (clamp g) = g_y g
  /\ g_angle (clamp g) = g_angle g
  /\ g_radius (clamp g) = g_radius g /\ oid (clamp g) = oid g.
Proof.
  assert (Hv : (MAX_SPEED < speed_of g ->
                g_vx (clamp g) = g_vx g * (MAX_SPEED / speed_of g)
                /\ g_vy (clamp g) = g_vy g * (MAX_SPEED / speed_of g))
               /\ (speed_of g <= MAX_SPEED ->
                   g_vx (clamp g) = g_vx g /\ g_vy (clamp g) = g_vy g)
               /\ g_av (clamp g)
                  = Rmax (- MAX_ANGULAR_SPEED)
                         (Rmin MAX_ANGULAR_SPEED (g_av g))
               /\ g_x (clamp g) = g_x g /\ g_y (clamp g) = g_y g
               /\ g_angle (clamp g) = g_angle g
               /\ g_radius (clamp g) = g_radius g
               /\ oid (clamp g) = oid g).
  { unfold clamp, js_gt, js_lt. fold (speed_of g).
    repeat (match goal with
            | |- context [if Rltb ?a ?b then _ else _] =>
                let E := fresh "E" in
                destruct (Rltb a b) eqn:E;
                [apply Rltb_true in E | apply Rltb_false in E]
            end;
            cbn [g_vx g_vy g_x g_y g_angle g_av g_radius oid set_av set_v]
              in *);
      unfold MAX_ANGULAR_SPEED in *;
      repeat split; intros; try reflexivity; try lra;
      unfold Rmax, Rmin; repeat destruct (Rle_dec _ _); lra. }
  destruct Hv as (Hfast & Hslow & Hav & Px & Py & Pa & Pr & Po).
  split; [|split; [exact Hslow|]].
  - intros Hs s. destruct (Hfast Hs) as (Hx & Hy). fold s in Hx, Hy.
    assert (Hh : 0 < speed_of g) by (unfold MAX_SPEED in Hs; lra).
    assert (Hs01 : 0 < s < 1).
    { unfold s, MAX_SPEED in *. split.
      - apply Rdiv_lt_0_compat; lra.
      - apply (Rmult_lt_reg_r (speed_of g)); [exact Hh|].
        unfold Rdiv. rewrite Rmult_assoc, Rinv_l by lra. lra. }
    rewrite Hx, Hy.
    split; [lra|]. split; [reflexivity|]. split; [reflexivity|].
    repeat split.
    + rewrite Rabs_mult, (Rabs_pos_eq s) by lra.
      pose proof (Rabs_pos (g_vx g)). nra.
    + rewrite Rabs_mult, (Rabs_pos_eq s) by lra.
      pose proof (Rabs_pos (g_vy g)). nra.
    + nra.
    + nra.
  - split; [exact Hav|]. split; [|repeat split; assumption].
    rewrite Hav. unfold MAX_ANGULAR_SPEED, Rmax, Rmin, Rabs.
    repeat destruct (Rle_dec _ _); destruct (Rcase_abs _); lra.
Qed.

Lemma clamp_saturates_witness :
  MAX_SPEED < speed_of fast_gun
  /\ g_vx (clamp fast_gun) = g_vx fast_gun * (MAX_SPEED / speed_of fast_gun)
  /\ Rabs (g_vx (clamp fast_gun)) <= Rabs (g_vx fast_gun).
Proof.
  assert (H : MAX_SPEED < speed_of fast_gun).
  { unfold speed_of, fast_gun, MAX_SPEED. cbn [g_vx g_vy].
    rewrite (hypot_unique 10 0 10) by lra. lra. }
  split; [exact H|].
  destruct (proj1 (clamp_saturates fast_gun) H) as (_ & Hx & _ & Ha & _).
  split; [exact Hx | exact Ha].
Defined.

End Physics.

(** ** Heat, walls and the main loop of [src/unnamed/part_000] *)

Section Part000Physics.
Import Part000 Part000Aux Part000More.

(** X9.  Heat under the main loop alone.  While a gun is not
    overheated, integration steps (with a numeric gravity) never raise
    its heat and never take it below 0, and the gun stays not
    overheated; while it is
    overheated, integration steps change neither the heat, nor the
    flag, nor the expiry time: only [canShoot] ends an overheat. *)
Theorem heat_decay (k : nat) (grav : R) (g : Gun) :
  0 <= heat g ->
  (overheated g = false ->
   0 <= heat (Nat.iter k (update grav) g) <= heat g
   /\ heat (Nat.iter (S k) (update grav) g)
      <= heat (Nat.iter k (update grav) g)
   /\ overheated (Nat.iter k (update grav) g) = false
   /\ overheatUntil (Nat.iter k (update grav) g) = overheatUntil g)
  /\ (overheated g = true ->
      heat (Nat.iter k (update grav) g) = heat g
      /\ overheated (Nat.iter k (update grav) g) = true
      /\ overheatUntil (Nat.iter k (update grav) g) = overheatUntil g).
Proof.
  intros H0. split; intros Ho.
  - assert (Hk : forall j,
              0 <= heat (Nat.iter j (update grav) g) <= heat g
              /\ overheated (Nat.iter j (update grav) g) = false
              /\ overheatUntil (Nat.iter j (update grav) g)
                 = overheatUntil g).
    { induction j as [|j (IHh & IHo & IHu)].
      - cbn [Nat.iter nat_rect]. repeat split; [exact H0 | lra | exact Ho].
      - rewrite Nat.iter_succ.
        destruct (update_heat grav (Nat.iter j (update grav) g))
          as (-> & -> & ->).
        rewrite IHo, IHu. cbn [negb andb]. unfold js_gt, COOL_RATE.
        split; [|split; reflexivity].
        destruct (Rltb 0 (heat (Nat.iter j (update grav) g))) eqn:E.
        + apply Rltb_true in E. unfold Rmax.
          destruct (Rle_dec _ _); lra.
        + exact IHh. }
    destruct (Hk k) as (Hh & Hov & Hu).
    split; [exact Hh|]. split; [|split; assumption].
    rewrite Nat.iter_succ.
    destruct (update_heat grav (Nat.iter k (update grav) g)) as (-> & _).
    rewrite Hov. cbn [negb andb]. unfold js_gt, COOL_RATE.
    destruct (Rltb 0 (heat (Nat.iter k (update grav) g))) eqn:E.
    + apply Rltb_true in E. unfold Rmax. destruct (Rle_dec _ _); lra.
    + lra.
  - induction k as [|k (IHh & IHo & IHu)].
    + cbn [Nat.iter nat_rect]. auto.
    + rewrite Nat.iter_succ.
      destruct (update_heat grav (Nat.iter k (update grav) g))
        as (-> & -> & ->).
      rewrite IHo, IHh, IHu. cbn [negb andb]. auto.
Qed.

Lemma heat_decay_witness :
  0 <= heat warm_gun
  /\ overheated warm_gun = false
  /\ heat (Nat.iter 3 (update 0.02) warm_gun) <= heat warm_gun.
Proof.
  assert (H : 0 <= heat warm_gun) by (cbn [heat warm_gun]; lra).
  split; [exact H|]. split; [reflexivity|].
  apply (proj1 (heat_decay 3 0.02 warm_gun H) eq_refl).
Defined.

Lemma small_INR (m : nat) :
  (m <= 5)%nat ->
  (m <= 4)%nat /\ INR m + 1 < 6 \/ m = 5%nat /\ INR m + 1 = 6.
Proof.
  intros Hm.
  do 5 (destruct m as [|m]; [left; split; [lia | cbn [INR]; lra]|]).
  destruct m as [|m]; [|lia]. right. split; [reflexivity | cbn [INR]; lra].
Qed.

(** What a burst of fire actions keeps true of a gun and of the array it
    fires into: either the gun is not overheated and has fired [m <= 5]
    times, or it is overheated until after the window and has fired at
    most six times. *)
Lemma burst_invariant (o : Slot) (t0 : Z) (len0 : nat)
      (fs : list (Z * Z * R)) (s : Gun * list Bullet) :
  within_cooldown t0 fs ->
  (overheated (fst s) = false
   /\ exists m, heat (fst s) = INR m /\ (m <= 5)%nat
                /\ length (snd s) = (len0 + m)%nat)
  \/ (overheated (fst s) = true
      /\ (t0 + OVERHEAT_COOLDOWN <= overheatUntil (fst s))%Z
      /\ (length (snd s) <= len0 + 6)%nat) ->
  (length (snd (run_ops o (fire_of <$> fs) s)) <= len0 + 6)%nat.
Proof.
  revert s. induction fs as [|f fs IH]; intros s Hw Inv.
  - cbn [fmap list_fmap run_ops fold_left].
    destruct Inv as [(_ & m & _ & Hm & ->) | (_ & _ & H)]; lia.
  - apply Forall_cons in Hw as [[Ht2 Ht1] Hw].
    cbn [fmap list_fmap]. unfold run_ops. cbn [fold_left].
    apply (IH _ Hw).
    change (apply_op o s (fire_of f))
      with (shoot (fst (fst f)) (snd (fst f)) (snd f) o (fst s) (snd s)).
    destruct Inv as [(Ho & m & Hh & Hm & Hl) | (Ho & Hu & Hl)].
    + destruct (shoot_heat (fst (fst f)) (snd (fst f)) (snd f) o
                  (fst s) (snd s) Ho) as (Eh & Eo & Eu & El).
      rewrite Hh in *. unfold HEAT_PER_SHOT, MAX_HEAT, js_ge in *.
      destruct (small_INR m Hm) as [[Hm4 Hlt] | [-> Heq]].
      * left. rewrite (proj2 (Rleb_false 6 (INR m + 1))) in Eo by lra.
        split; [exact Eo|]. exists (S m).
        rewrite Eh, S_INR, El, Hl. repeat split; lia.
      * right. rewrite (proj2 (Rleb_true 6 (INR 5 + 1))) in Eo, Eu by lra.
        split; [exact Eo|]. rewrite (Eu eq_refl), El, Hl.
        split; lia.
    + right. unfold shoot, canShoot. rewrite Ho. cbn [negb].
      destruct (Z.leb_spec (overheatUntil (fst s)) (fst (fst f)))
        as [H|H]; [lia|].
      cbn [negb fst snd]. rewrite Ho. auto.
Qed.

(** X10.  The rate limit of a burst.  Starting from heat 0, fire actions
    whose clock readings all fall in a window shorter than
    [OVERHEAT_COOLDOWN], with no integration step between them, add at
    most six projectiles, however many they are. *)
Theorem burst_adds_at_most_six (o : Slot) (t0 : Z) (fs : list (Z * Z * R))
        (g : Gun) (bs : list Bullet) :
  heat g = 0 -> overheated g = false -> within_cooldown t0 fs ->
  (length (snd (run_ops o (fire_of <$> fs) (g, bs))) <= length bs + 6)%nat.
Proof.
  intros Hh Ho Hw. apply (burst_invariant o t0 (length bs) fs (g, bs) Hw).
  left. split; [exact Ho|]. exists 0%nat. cbn [fst snd INR].
  repeat split; [exact Hh | lia | lia].
Qed.

Lemma burst_adds_at_most_six_witness :
  heat (new_Gun 0 90 640) = 0
  /\ overheated (new_Gun 0 90 640) = false
  /\ within_cooldown 0 two_shots
  /\ (length (snd (run_ops Blue (fire_of <$> two_shots)
                           (new_Gun 0 90 640, []))) <= 0 + 6)%nat.
Proof.
  assert (Hw : within_cooldown 0 two_shots).
  { unfold within_cooldown, two_shots, OVERHEAT_COOLDOWN.
    repeat constructor; cbn [fst snd]; lia. }
  split; [reflexivity|]. split; [reflexivity|]. split; [exact Hw|].
  apply (burst_adds_at_most_six Blue 0 two_shots (new_Gun 0 90 640) []
           eq_refl eq_refl Hw).
Defined.

(** X11.  After the cooldown.  The first shot at or after the expiry
    time of an overheated gun succeeds, from the heat 0.4 * MAX_HEAT to
    which [canShoot] resets it; the fourth consecutive shot overheats the
    gun again, at a heat of 0.4 * MAX_HEAT + 4. *)
Theorem four_shots_after_recovery
        (o : Slot) (g : Gun) (bs : list Bullet)
        (t1 t2 : Z) (rnd : R) (f2 f3 : Z * Z * R) (u1 u2 : Z) (rnd4 : R) :
  overheated g = true -> (overheatUntil g <= t1)%Z ->
  let s1 := run_ops o [Fire t1 t2 rnd] (g, bs) in
  let s4 := run_ops o [fire_of f2; fire_of f3; Fire u1 u2 rnd4] s1 in
  (heat (fst s1) = 0.4 * MAX_HEAT + 1
   /\ overheated (fst s1) = false
   /\ length (snd s1) = S (length bs))
  /\ (heat (fst s4) = 0.4 * MAX_HEAT + 4
      /\ overheated (fst s4) = true
      /\ overheatUntil (fst s4) = (u2 + OVERHEAT_COOLDOWN)%Z
      /\ length (snd s4) = (length bs + 4)%nat).
Proof.
  intros Ho Hu s1 s4.
  assert (H1 : heat (fst s1) = 3.4 /\ overheated (fst s1) = false
               /\ length (snd s1) = S (length bs)).
  { unfold s1, run_ops. cbn [fold_left apply_op fst snd].
    unfold shoot, canShoot. rewrite Ho. cbn [negb].
    rewrite (proj2 (Z.leb_le _ _) Hu). cbn [negb heat overheated].
    unfold MAX_HEAT, HEAT_PER_SHOT, js_ge.
    rewrite (proj2 (Rleb_false 6 (6 * 0.4 + 1))) by lra.
    cbn [fst snd heat overheated].
    split; [lra|]. split; [reflexivity|].
    rewrite length_app. cbn [length]. lia. }
  destruct H1 as (A1 & B1 & L1).
  split; [unfold MAX_HEAT; repeat split; [lra | exact B1 | exact L1]|].
  unfold s4, run_ops, fire_of. cbn [fold_left].
  destruct (fire_warm o s1 (fst (fst f2)) (snd (fst f2)) (snd f2) 3.4 4.4
              B1 A1) as (A2 & B2 & L2); [lra | lra |].
  set (s2 := apply_op o s1 _) in *.
  destruct (fire_warm o s2 (fst (fst f3)) (snd (fst f3)) (snd f3) 4.4 5.4
              B2 A2) as (A3 & B3 & L3); [lra | lra |].
  set (s3 := apply_op o s2 _) in *.
  destruct (fire_overheat o s3 u1 u2 rnd4 5.4 6.4 B3 A3)
    as (A4 & B4 & U4 & L4); [lra | lra |].
  rewrite A4, B4, U4, L4, L3, L2, L1. unfold MAX_HEAT.
  repeat split; [lra | lia].
Qed.

Lemma four_shots_after_recovery_witness :
  overheated hot_gun = true
  /\ (overheatUntil hot_gun <= 10000)%Z
  /\ overheated (fst (run_ops Blue [Fire 10000 10000 0.5] (hot_gun, [])))
     = false.
Proof.
  split; [reflexivity|]. split; [cbn [overheatUntil hot_gun]; lia|].
  apply (four_shots_after_recovery Blue hot_gun [] 10000 10000 0.5
           (10000%Z, 10000%Z, 0.5) (10000%Z, 10000%Z, 0.5)
           10000 10000 0.5 eq_refl).
  cbn [overheatUntil hot_gun]. lia.
Defined.

End Part000Physics.

Section Part000Loop.
Import Part000 Part000Aux Part000More.

Lemma bullet_callback_keeps_000 (i : nat) (b : Bullet) (r : Room) :
  map (bullet_callback i b r) = map r
  /\ blue (bullet_callback i b r) = blue r
  /\ white (bullet_callback i b r) = white r
  /\ clients (bullet_callback i b r) = clients r
  /\ startAt (bullet_callback i b r) = startAt r.
Proof.
  unfold bullet_callback, hits_blue, hits_white.
  repeat match goal with
         | |- context [if ?c then _ else _] => destruct c
         end; cbn; auto.
Qed.

Lemma forEach_from_keeps_000 (n k : nat) (r : Room) :
  map (forEach_from n k r) = map r
  /\ blue (forEach_from n k r) = blue r
  /\ white (forEach_from n k r) = white r
  /\ clients (forEach_from n k r) = clients r
  /\ startAt (forEach_from n k r) = startAt r.
Proof.
  revert k r. induction n as [|n IH]; intros k r; [cbn; auto|].
  cbn [forEach_from]. destruct (bullets r !! k) as [b|].
  - destruct (IH (S k) (bullet_callback k b r)) as (-> & -> & -> & -> & ->).
    apply bullet_callback_keeps_000.
  - apply IH.
Qed.

(** The room that the main loop simulates once the match runs. *)
Lemma tick_room_running (now : Z) (r : Room) (m : MapCfg) :
  map r = MapEntry m ->
  started r = true \/ (startAt r <> 0%Z /\ (startAt r <= now)%Z) ->
  exists r',
    tick_room now r = Stepped r'
    /\ map r' = MapEntry m /\ startAt r' = startAt r
    /\ clients r' = clients r
    /\ blue r' = update (gravity m) (blue r)
    /\ white r' = update (gravity m) (white r).
Proof.
  intros Hm Hrun.
  assert (E : tick_room now r
              = Stepped (bullets_forEach
                           (mkRoom (MapEntry m)
                                   (update (gravity m) (blue r))
                                   (update (gravity m) (white r))
                                   (bullets r) (clients r) true
                                   (startAt r)))).
  { unfold tick_room. destruct (started r) eqn:Hs.
    - cbn [negb andb]. now rewrite Hs, Hm.
    - destruct Hrun as [Hs' | [Hz Hle]]; [discriminate|].
      rewrite (proj2 (Z.eqb_neq _ _) Hz), (proj2 (Z.leb_le _ _) Hle).
      cbn [negb andb started set_started map blue white bullets clients
           startAt].
      now rewrite Hm. }
  eexists. split; [exact E|].
  unfold bullets_forEach.
  set (r1 := mkRoom _ _ _ _ _ _ _).
  destruct (forEach_from_keeps_000 (length (bullets r1)) 0 r1)
    as (-> & -> & -> & -> & ->).
  repeat split.
Qed.

(** The three ways in which the body of the loop ends, by the state of
    the room. *)
Lemma tick_room_cases (now : Z) (r : Room) :
  (started r = true \/ (startAt r <> 0%Z /\ (startAt r <= now)%Z)) ->
  tick_room now r
  = match map r with
    | MapUndefined => LoopTypeError
    | MapInherited => LoopNaN
    | MapEntry m =>
        Stepped (bullets_forEach
                   (mkRoom (map r)
                           (update (gravity m) (blue r))
                           (update (gravity m) (white r))
                           (bullets r) (clients r) true (startAt r)))
    end.
Proof.
  intros Hrun. unfold tick_room. destruct (started r) eqn:Hs.
  - cbn [negb andb]. rewrite Hs. reflexivity.
  - destruct Hrun as [Hs' | [Hz Hle]]; [discriminate|].
    rewrite (proj2 (Z.eqb_neq _ _) Hz), (proj2 (Z.leb_le _ _) Hle).
    cbn [negb andb started set_started map blue white bullets clients
         startAt].
    reflexivity.
Qed.

(** Before the countdown has expired, and for ever when there is none,
    the main loop leaves a room that is not started as it is. *)
Lemma tick_room_waiting (now : Z) (r : Room) :
  started r = false -> startAt r = 0%Z \/ (now < startAt r)%Z ->
  tick_room now r = Stepped r.
Proof.
  intros Hs Hw. unfold tick_room. rewrite Hs. cbn [negb andb].
  destruct Hw as [Hz | Hlt].
  - rewrite Hz. cbn [Z.eqb negb andb]. now rewrite Hs.
  - rewrite (proj2 (Z.leb_gt _ _) Hlt), andb_false_r. now rewrite Hs.
Qed.

Lemma running_dec (now : Z) (r : Room) :
  (started r = true \/ (startAt r <> 0%Z /\ (startAt r <= now)%Z))
  \/ (started r = false /\ (startAt r = 0%Z \/ (now < startAt r)%Z)).
Proof.
  destruct (started r); [left; now left|].
  destruct (Z.eq_dec (startAt r) 0%Z) as [Hz|Hz]; [right; auto|].
  destruct (Z_le_gt_dec (startAt r) now) as [Hle|Hgt].
  - left. right. split; assumption.
  - right. split; [reflexivity|]. right. lia.
Qed.

(** X12.  How the body of the main loop of [src/unnamed/part_000] ends.
    It throws a [TypeError] for a room exactly when [r.map] is
    [undefined] and the match runs or its countdown has expired.  It
    completes with [NaN] coordinates exactly when, in the same
    situation, [r.map] is a value inherited from [Object.prototype].
    For every other room it completes within the numbers.  A room
    created with one of the keys ["zeroG"], ["moon"], ["heavy"] has a
    map with a gravity; a room created without a [map] field (property
    key ["undefined"]) has the map [undefined]; a room created with the
    name of a property of [Object.prototype] has that property as its
    map. *)
Theorem tick_throws_iff_no_map (now : Z) (r : Room) :
  (tick_room now r = LoopTypeError <->
   map r = MapUndefined
   /\ (started r = true \/ (startAt r <> 0%Z /\ (startAt r <= now)%Z)))
  /\ (tick_room now r = LoopNaN <->
      map r = MapInherited
      /\ (started r = true \/ (startAt r <> 0%Z /\ (startAt r <= now)%Z)))
  /\ (forall mapKey rb rw,
        mapKey = "zeroG" \/ mapKey = "moon" \/ mapKey = "heavy" ->
        exists m, map (createRoom mapKey rb rw) = MapEntry m)
  /\ (forall rb rw, map (createRoom "undefined" rb rw) = MapUndefined)
  /\ (forall mapKey rb rw,
        inherited mapKey = true ->
        map (createRoom mapKey rb rw) = MapInherited).
Proof.
  split; [|split; [|split; [|split]]].
  - destruct (running_dec now r) as [Hrun | [Hs Hw]].
    + rewrite (tick_room_cases now r Hrun).
      destruct (map r); split; try discriminate; try tauto;
        intros [? _]; discriminate.
    + rewrite (tick_room_waiting now r Hs Hw).
      split; [discriminate|]. intros [_ [Hs' | [Hz Hle]]].
      * congruence.
      * destruct Hw; [congruence | lia].
  - destruct (running_dec now r) as [Hrun | [Hs Hw]].
    + rewrite (tick_room_cases now r Hrun).
      destruct (map r); split; try discriminate; try tauto;
        intros [? _]; discriminate.
    + rewrite (tick_room_waiting now r Hs Hw).
      split; [discriminate|]. intros [_ [Hs' | [Hz Hle]]].
      * congruence.
      * destruct Hw; [congruence | lia].
  - intros mapKey rb rw [-> | [-> | ->]]; eexists; reflexivity.
  - reflexivity.
  - intros mapKey rb rw Hi. cbn [map createRoom]. unfold MAPS.
    destruct (String.eqb_spec mapKey "zeroG") as [->|_]; [discriminate|].
    destruct (String.eqb_spec mapKey "moon") as [->|_]; [discriminate|].
    destruct (String.eqb_spec mapKey "heavy") as [->|_]; [discriminate|].
    now rewrite Hi.
Qed.





(** X15.  Waiting for the opponent.  After a [create], whatever the
    server held before, the new room is not started and has no start
    time: the main loop leaves it as it is at every time, and a [shoot]
    of its creator is dropped without any change, until someone joins. *)
Theorem created_room_waits
        (S : Server) (ws : nat) (key mapKey : string) (rb rw : R) :
  exists S' r,
    on_create ws key mapKey rb rw S = Completed S' [Joined ws Blue]
    /\ rooms S' !! key = Some r
    /\ (forall t, tick_room t r = Stepped r)
    /\ (forall t1 t2 rnd, on_shoot ws t1 t2 rnd S' = Completed S' []).
Proof.
  eexists. eexists. split; [reflexivity|].
  cbn [rooms conns]. split; [apply lookup_insert_eq|]. split.
  - intros t. apply tick_room_waiting; [reflexivity | now left].
  - intros t1 t2 rnd. unfold on_shoot, room_at, conn_of. cbn [rooms conns].
    rewrite lookup_insert_eq. cbn [default ws_room ws_player].
    rewrite lookup_insert_eq. reflexivity.
Qed.

(** X16.  A room of [src/unnamed/part_000] takes one creator and one
    joiner.  Whatever the server held and whatever the key, a [create]
    answers blue, the first [join] for the key answers white and starts
    the countdown, and a further [join] is ignored: no frame, no change.
    A [join] for a key under which [rooms[key]] is [undefined] or
    another falsy value is ignored as well; a [join] for a key under
    which it is a truthy value that is not a room (the name of a
    property of [Object.prototype], when no room was created under it)
    throws a [TypeError].  The main loop visits the created room, unless
    its key is ["__proto__"]: that room is the prototype of [rooms], the
    handlers read it back, and [Object.values(rooms)] does not list
    it. *)
Theorem create_then_one_join
        (S : Server) (key mapKey : string) (a b c : nat) (rb rw : R)
        (t1 t2 : Z) :
  (exists S1 S2,
     on_create a key mapKey rb rw S = Completed S1 [Joined a Blue]
     /\ on_join b key t1 S1 = Completed S2 [Joined b White]
     /\ on_join c key t2 S2 = Completed S2 []
     /\ rooms S2 !! key
        = Some (mkRoom (MAPS mapKey)
                       (new_Gun rb 90 (HEIGHT - 160))
                       (new_Gun rw (WIDTH - 90) (HEIGHT - 160))
                       [] (mkClients (Some a) (Some b)) false (t1 + 3000)))
  /\ (room_at (rooms S) key = NotRoom false ->
      on_join c key t2 S = Completed S [])
  /\ (room_at (rooms S) key = NotRoom true ->
      on_join c key t2 S = TypeError)
  /\ (rooms S !! key = None -> rooms S !! "__proto__" = None ->
      room_at (rooms S) key = NotRoom (inherited key))
  /\ (forall S1 out,
        on_create a key mapKey rb rw S = Completed S1 out ->
        (key <> "__proto__" -> loop_rooms S1 !! key = rooms S1 !! key)
        /\ (key = "__proto__" ->
            loop_rooms S1 !! key = None /\ is_Some (rooms S1 !! key))).
Proof.
  split; [|split; [|split; [|split]]].
  - eexists. eexists. split; [reflexivity|]. split; [|split].
    + unfold on_join, room_at. cbn [rooms]. rewrite lookup_insert_eq.
      cbn. reflexivity.
    + unfold on_join, room_at. cbn [rooms]. rewrite lookup_insert_eq.
      cbn. reflexivity.
    + cbn [rooms]. rewrite lookup_insert_eq. reflexivity.
  - intros Hn. unfold on_join. now rewrite Hn.
  - intros Hn. unfold on_join. now rewrite Hn.
  - intros Hn Hp. unfold room_at. now rewrite Hn, Hp.
  - intros S1 out [= <- _]. unfold loop_rooms. cbn [rooms]. split.
    + intros Hk. now rewrite lookup_delete_ne.
    + intros ->. rewrite lookup_delete_eq, lookup_insert_eq.
      split; [reflexivity | eexists; reflexivity].
Qed.

Lemma applyWall_keeps (nx ny : R) (g : Gun) :
  g_x (applyWall nx ny g) = g_x g
  /\ g_y (applyWall nx ny g) = g_y g
  /\ g_radius (applyWall nx ny g) = g_radius g.
Proof. unfold applyWall. destruct (js_lt _ 0); cbn; auto. Qed.

(** One integration step with a numeric gravity leaves a gun of radius
    20 inside the walls; a gun that would have crossed the left wall is
    put back on it. *)
Lemma update_inside (grav : R) (g : Gun) :
  g_radius g = 20 ->
  g_radius (update grav g) = 20 /\ in_arena (update grav g)
  /\ (g_x g + g_vx g < 20 -> g_x (update grav g) = 20).
Proof.
  intros Hr. unfold update. rewrite walls_steps.
  set (c := cool (integrate grav g)).
  assert (Hc : g_radius c = 20).
  { unfold c, cool. destruct (negb _ && _); exact Hr. }
  assert (Hcx : g_x c = g_x g + g_vx g).
  { unfold c, cool. destruct (negb _ && _); reflexivity. }
  rewrite <- Hcx. clearbody c.
  assert (H1 : g_radius (wall_left c) = 20 /\ 20 <= g_x (wall_left c)
               /\ g_y (wall_left c) = g_y c
               /\ (g_x c < 20 -> g_x (wall_left c) = 20)).
  { unfold wall_left, js_lt. rewrite Hc.
    destruct (Rltb (g_x c - 20) 0) eqn:E.
    - destruct (applyWall_keeps 1 0 (set_x 20 c)) as (-> & -> & ->).
      cbn [g_x g_y g_radius set_x].
      repeat split; [exact Hc | lra].
    - apply Rltb_false in E. repeat split; [exact Hc | lra | lra]. }
  destruct H1 as (R1 & X1 & Y1 & L1).
  set (g1 := wall_left c) in *. clearbody g1.
  assert (H2 : g_radius (wall_right g1) = 20
               /\ 20 <= g_x (wall_right g1) <= WIDTH - 20
               /\ g_y (wall_right g1) = g_y g1
               /\ (g_x g1 = 20 -> g_x (wall_right g1) = 20)).
  { unfold wall_right, js_gt. rewrite R1. unfold WIDTH in *.
    destruct (Rltb 420 (g_x g1 + 20)) eqn:E.
    - apply Rltb_true in E.
      destruct (applyWall_keeps (-1) 0 (set_x (420 - 20) g1))
        as (-> & -> & ->).
      cbn [g_x g_y g_radius set_x].
      repeat split; [exact R1 | lra | lra | lra].
    - apply Rltb_false in E.
      repeat split; [exact R1 | lra | lra | auto]. }
  destruct H2 as (R2 & X2 & Y2 & L2). set (g2 := wall_right g1) in *.
  clearbody g2.
  assert (H3 : g_radius (wall_top g2) = 20 /\ 20 <= g_y (wall_top g2)
               /\ g_x (wall_top g2) = g_x g2).
  { unfold wall_top, js_lt. rewrite R2.
    destruct (Rltb (g_y g2 - 20) 0) eqn:E.
    - destruct (applyWall_keeps 0 1 (set_y 20 g2)) as (-> & -> & ->).
      cbn [g_x g_y g_radius set_y]. repeat split; [exact R2 | lra].
    - apply Rltb_false in E. repeat split; [exact R2 | lra]. }
  destruct H3 as (R3 & Y3 & X3). set (g3 := wall_top g2) in *.
  clearbody g3.
  assert (H4 : g_radius (wall_bottom g3) = 20
               /\ 20 <= g_y (wall_bottom g3) <= HEIGHT - 20
               /\ g_x (wall_bottom g3) = g_x g3).
  { unfold wall_bottom, js_gt. rewrite R3. unfold HEIGHT in *.
    destruct (Rltb 800 (g_y g3 + 20)) eqn:E.
    - destruct (applyWall_keeps 0 (-1) (set_y (800 - 20) g3))
        as (-> & -> & ->).
      cbn [g_x g_y g_radius set_y]. repeat split; [exact R3 | lra | lra].
    - apply Rltb_false in E. repeat split; [exact R3 | lra | lra]. }
  destruct H4 as (R4 & Y4 & X4).
  split; [exact R4|]. split.
  - unfold in_arena. rewrite X4, X3. split; assumption.
  - intros Hl. rewrite X4, X3. apply L2, L1. exact Hl.
Qed.

(** X17.  The walls of [src/unnamed/part_000].  In every run of the main
    loop that simulates a room whose map is an entry of [MAPS] (the
    gravity is then a number), both guns, if their radius is 20, end
    with their centres in [20, WIDTH-20] x [20, HEIGHT-20], wherever
    they were and however fast they moved, and with their radius
    unchanged; a gun whose step would have taken its centre to the left
    of [x = 20] ends on [x = 20]. *)
Theorem update_keeps_gun_inside (now : Z) (r : Room) (m : MapCfg) :
  map r = MapEntry m ->
  started r = true \/ (startAt r <> 0%Z /\ (startAt r <= now)%Z) ->
  g_radius (blue r) = 20 -> g_radius (white r) = 20 ->
  exists r',
    tick_room now r = Stepped r'
    /\ g_radius (blue r') = 20 /\ in_arena (blue r')
    /\ g_radius (white r') = 20 /\ in_arena (white r')
    /\ (g_x (blue r) + g_vx (blue r) < 20 -> g_x (blue r') = 20)
    /\ (g_x (white r) + g_vx (white r) < 20 -> g_x (white r') = 20).
Proof.
  intros Hm Hrun Hb Hw.
  destruct (tick_room_running now r m Hm Hrun)
    as (r' & E & _ & _ & _ & Eb & Ew).
  exists r'. split; [exact E|]. rewrite Eb, Ew.
  destruct (update_inside (gravity m) (blue r) Hb) as (B1 & B2 & B3).
  destruct (update_inside (gravity m) (white r) Hw) as (W1 & W2 & W3).
  exact (conj B1 (conj B2 (conj W1 (conj W2 (conj B3 W3))))).
Qed.

Lemma update_keeps_gun_inside_witness :
  exists r',
    tick_room 3016 wall_room = Stepped r'
    /\ in_arena (blue r') /\ g_x (blue r') = 20.
Proof.
  destruct (update_keeps_gun_inside 3016 wall_room
              (mkMap "Moon Base" 0.02 "moon") eq_refl)
    as (r' & E & _ & Hb & _ & _ & Hx & _);
    [left; reflexivity | reflexivity | reflexivity |].
  exists r'. split; [exact E|]. split; [exact Hb|].
  apply Hx. cbn [wall_room blue g_x g_vx]. lra.
Defined.

End Part000Loop.

(** ** The message handlers of [src/server.js] *)

Section ServerJsHandlers.
Import ServerJs ServerJsAux ServerJsMore.

(** X18.  Rematch gating.  A [rematch] for a room that is not over is
    ignored.  For a room that is over, the request of a slot whose
    opponent is not ready only records the slot as ready: the room stays
    over, with its winner, guns and projectiles.  The request of a slot
    whose opponent is ready resets the room: two new guns at rest at the
    spawn points, no projectile, no winner, both ready flags cleared, the
    clients kept. *)
Theorem rematch_needs_both_players
        (S : Server) (ws : nat) (rb rw : R) (room : Room) (p : Slot) :
  rooms S !! ws_room (conn_of S ws) = Some room ->
  ws_player (conn_of S ws) = Some p ->
  let key := ws_room (conn_of S ws) in
  let other_ready :=
    match p with
    | Blue => rr_white (rematchReady room)
    | White => rr_blue (rematchReady room)
    end in
  (gameOver room = false -> on_rematch ws rb rw S = Completed S [])
  /\ (gameOver room = true -> other_ready = false ->
      on_rematch ws rb rw S
      = Completed
          (mkServer
             (<[key := mkRoom (blue room) (white room) (bullets room)
                              (clients room) true (winner room)
                              (set_ready (Some p) (rematchReady room))]>
                (rooms S))
             (conns S) (next_oid S)) [])
  /\ (gameOver room = true -> other_ready = true ->
      on_rematch ws rb rw S
      = Completed
          (mkServer
             (<[key := mkRoom (new_Gun (next_oid S) rb 90 (HEIGHT - 120))
                              (new_Gun (1 + next_oid S) rw (WIDTH - 90)
                                       (HEIGHT - 120))
                              [] (clients room) false None
                              (mkReady false false
                                 (rr_undefined (rematchReady room)))]>
                (rooms S))
             (conns S) (2 + next_oid S)%nat) []).
Proof.
  intros Hr Hp key other_ready. unfold on_rematch, room_at, key.
  rewrite Hr, Hp. split; [|split].
  - intros ->. reflexivity.
  - intros Hg Ho. rewrite Hg. cbn [negb]. unfold rematch_in_room.
    unfold other_ready in Ho.
    destruct (rematchReady room) as [yb yw yu].
    destruct p; cbn [rr_blue rr_white] in Ho; subst;
      cbn [set_ready rr_blue rr_white rr_undefined andb];
      rewrite Hg; reflexivity.
  - intros Hg Ho. rewrite Hg. cbn [negb]. unfold rematch_in_room.
    unfold other_ready in Ho.
    destruct (rematchReady room) as [yb yw yu].
    destruct p; cbn [rr_blue rr_white] in Ho; subst;
      cbn [set_ready rr_blue rr_white rr_undefined andb]; reflexivity.
Qed.

Lemma rematch_needs_both_players_witness :
  rooms over_server !! ws_room (conn_of over_server 1) = Some over_room
  /\ ws_player (conn_of over_server 1) = Some Blue
  /\ exists S', on_rematch 1 0 0.5 over_server = Completed S' [].
Proof.
  assert (Hc : conn_of over_server 1 = mkConn "R1" (Some Blue)).
  { unfold conn_of, over_server. cbn [conns].
    now rewrite lookup_singleton_eq. }
  assert (Hr : rooms over_server !! ws_room (conn_of over_server 1)
               = Some over_room).
  { rewrite Hc. apply lookup_singleton_eq. }
  assert (Hp : ws_player (conn_of over_server 1) = Some Blue)
    by now rewrite Hc.
  split; [exact Hr|]. split; [exact Hp|].
  destruct (rematch_needs_both_players over_server 1 0 0.5 over_room Blue
              Hr Hp) as (_ & H2 & _).
  eexists. apply H2; reflexivity.
Defined.

(** The three cases of the [join] handler. *)
Lemma on_join_cases (ws : nat) (key : string) (rb rw : R) (S : Server) :
  on_join ws key rb rw S
  = match rooms S !! key with
    | Some r => enter_room ws key r (rooms S) (next_oid S) S
    | None =>
        if inherited key then TypeError
        else
          enter_room ws key (createRoom (next_oid S) rb rw)
            (<[key := createRoom (next_oid S) rb rw]> (rooms S))
            (2 + next_oid S)%nat S
    end.
Proof.
  unfold on_join, room_at. destruct (rooms S !! key); [reflexivity|].
  destruct (inherited key); reflexivity.
Qed.

(** X19.  Slots are given in order and a room takes two clients.  For a
    key under which no room is stored and which is not the name of a
    property of [Object.prototype], a first [join] creates the room and
    answers blue, a second answers white, and a third is ignored: no
    frame is sent and the server state does not change.  The two joins
    leave the rest of the new room as [createRoom] made it.  For the
    name of a property of [Object.prototype] under which no room is
    stored, [join] creates nothing and throws a [TypeError]. *)
Theorem join_fills_blue_then_white
        (S : Server) (key : string) (a b c : nat) (ra ra' rb rb' rc rc' : R) :
  rooms S !! key = None ->
  (inherited key = false ->
   exists S1 S2,
     on_join a key ra ra' S = Completed S1 [Joined a Blue]
     /\ on_join b key rb rb' S1 = Completed S2 [Joined b White]
     /\ on_join c key rc rc' S2 = Completed S2 []
     /\ rooms S2 !! key
        = Some (mkRoom (new_Gun (next_oid S) ra 90 (HEIGHT - 120))
                       (new_Gun (1 + next_oid S) ra' (WIDTH - 90)
                                (HEIGHT - 120))
                       [] (mkClients (Some a) (Some b)) false None
                       (mkReady false false false))
     /\ next_oid S2 = (2 + next_oid S)%nat)
  /\ (inherited key = true -> on_join a key ra ra' S = TypeError).
Proof.
  intros Hn. split.
  - intros Hi. eexists. eexists. split; [|split; [|split; [|split]]].
    + rewrite on_join_cases, Hn, Hi. cbn. reflexivity.
    + rewrite on_join_cases. cbn [rooms]. rewrite lookup_insert_eq. cbn.
      reflexivity.
    + rewrite on_join_cases. cbn [rooms]. rewrite lookup_insert_eq. cbn.
      reflexivity.
    + cbn [rooms]. rewrite lookup_insert_eq. reflexivity.
    + reflexivity.
  - intros Hi. now rewrite on_join_cases, Hn, Hi.
Qed.

Lemma join_fills_blue_then_white_witness :
  rooms init !! "R1" = None /\ inherited "R1" = false
  /\ exists S1, on_join 1 "R1" 0 0.5 init = Completed S1 [Joined 1 Blue].
Proof.
  assert (H : rooms init !! "R1" = None) by apply lookup_empty.
  split; [exact H|]. split; [reflexivity|].
  destruct (proj1 (join_fills_blue_then_white init "R1" 1 2 3
                     0 0.5 0 0.5 0 0.5 H) eq_refl)
    as (S1 & _ & E & _).
  exists S1. exact E.
Defined.

Lemma clients_tick_room (r : Room) : clients (tick_room r) = clients r.
Proof.
  unfold tick_room. destruct (gameOver r); [reflexivity|].
  unfold bullets_forEach.
  set (r1 := mkRoom _ _ _ _ _ _ _).
  now destruct (forEach_from_keeps (length (bullets r1)) 0 r1)
    as (_ & _ & -> & _).
Qed.

Lemma clients_shoot_in_room (p : Slot) (rnd : R) (r : Room) :
  clients (shoot_in_room p rnd r) = clients r.
Proof. unfold shoot_in_room, shoot. now destruct p. Qed.

Lemma clients_rematch_in_room (p : option Slot) (o : nat) (rb rw : R)
      (r : Room) :
  clients (fst (rematch_in_room p o rb rw r)) = clients r.
Proof.
  unfold rematch_in_room. now destruct (rr_blue _ && rr_white _).
Qed.

(** X20.  Rooms are isolated.  A handled message changes no room but
    the one it addresses (the key of a [join], the room recorded on the
    connection for [shoot] and [rematch]) and no connection record but
    the sender's; the main loop treats each room on its own. *)
Theorem messages_touch_one_room
        (S S' : Server) (ws : nat) (m : Msg) (out : list Sent) :
  on_message ws m S = Completed S' out ->
  (forall k, k <> addressed S ws m -> rooms S' !! k = rooms S !! k)
  /\ (forall w, w <> ws -> conns S' !! w = conns S !! w)
  /\ (forall k, rooms (tick S) !! k = tick_room <$> rooms S !! k).
Proof.
  intros H. split; [|split].
  - intros k Hk. destruct m as [key rb rw | rnd | rb rw];
      cbn [on_message addressed] in *.
    + rewrite on_join_cases in H. unfold enter_room in H.
      destruct (rooms S !! key) as [r|] eqn:E.
      * destruct (2 <=? clients_count (clients r))%nat;
          injection H as <- _; cbn [rooms]; [reflexivity|].
        now rewrite lookup_insert_ne.
      * destruct (inherited key); [discriminate|].
        cbn in H. injection H as <- _. cbn [rooms].
        now rewrite !lookup_insert_ne.
    + unfold on_shoot, room_at in H.
      destruct (rooms S !! ws_room (conn_of S ws)) as [r|];
        [|destruct (inherited _); [discriminate | now injection H as <- _]].
      destruct (gameOver r); [now injection H as <- _|].
      destruct (ws_player (conn_of S ws)); [|discriminate].
      injection H as <- _. cbn [rooms]. now rewrite lookup_insert_ne.
    + unfold on_rematch, room_at in H.
      destruct (rooms S !! ws_room (conn_of S ws)) as [r|];
        [|now injection H as <- _].
      destruct (negb (gameOver r)); [now injection H as <- _|].
      destruct (rematch_in_room _ _ _ _ r) as [r' wr].
      injection H as <- _. cbn [rooms]. now rewrite lookup_insert_ne.
  - intros w Hw. destruct m as [key rb rw | rnd | rb rw];
      cbn [on_message] in *.
    + rewrite on_join_cases in H. unfold enter_room in H.
      destruct (rooms S !! key) as [r|] eqn:E.
      * destruct (2 <=? clients_count (clients r))%nat;
          injection H as <- _; cbn [conns]; [reflexivity|].
        now rewrite lookup_insert_ne.
      * destruct (inherited key); [discriminate|].
        cbn in H. injection H as <- _. cbn [conns].
        now rewrite lookup_insert_ne.
    + unfold on_shoot, room_at in H.
      destruct (rooms S !! ws_room (conn_of S ws)) as [r|];
        [|destruct (inherited _); [discriminate | now injection H as <- _]].
      destruct (gameOver r); [now injection H as <- _|].
      destruct (ws_player (conn_of S ws)); [|discriminate].
      now injection H as <- _.
    + unfold on_rematch, room_at in H.
      destruct (rooms S !! ws_room (conn_of S ws)) as [r|];
        [|now injection H as <- _].
      destruct (negb (gameOver r)); [now injection H as <- _|].
      destruct (rematch_in_room _ _ _ _ r) as [r' wr].
      now injection H as <- _.
  - intros k. unfold tick. cbn [rooms]. apply lookup_fmap.
Qed.

Lemma messages_touch_one_room_witness :
  exists S',
    on_message 1 (MJoin "R1" 0 0.5) init = Completed S' [Joined 1 Blue]
    /\ rooms S' !! "R2" = rooms init !! "R2".
Proof.
  eexists. split.
  - cbn [on_message]. unfold on_join, room_at, init.
    cbn [rooms conns next_oid].
    rewrite lookup_empty. reflexivity.
  - refine (proj1 (messages_touch_one_room init _ 1 (MJoin "R1" 0 0.5)
                     [Joined 1 Blue] _) "R2" _).
    + cbn [on_message]. unfold on_join, room_at, init.
      cbn [rooms conns next_oid].
      rewrite lookup_empty. reflexivity.
    + cbn [addressed]. discriminate.
Defined.

Lemma client_join_new (ws : nat) (room : Room) :
  client (free_slot room) (join_room ws room) = Some ws.
Proof.
  unfold join_room, free_slot, client.
  destruct (truthy (c_blue (clients room))); reflexivity.
Qed.

Lemma client_join_old (ws w : nat) (p : Slot) (room : Room) :
  (2 <=? clients_count (clients room))%nat = false ->
  client p room = Some w -> client p (join_room ws room) = Some w.
Proof.
  unfold join_room, free_slot, client, clients_count.
  destruct (clients room) as [[cb|] [cw|]]; destruct p;
    cbn; intros Hf Hc; congruence.
Qed.

Lemma conns_bound_message (S S' : Server) (ws : nat) (m : Msg)
      (out : list Sent) :
  conns_bound S -> on_message ws m S = Completed S' out -> conns_bound S'.
Proof.
  intros Inv H. destruct m as [key rb rw | rnd | rb rw]; cbn [on_message] in H.
  - (* join *)
    rewrite on_join_cases in H. unfold enter_room in H.
    destruct (rooms S !! key) as [r|] eqn:E.
    + destruct (2 <=? clients_count (clients r))%nat eqn:Hfull;
        injection H as <- _.
      * intros w c Hc. cbn [conns rooms] in *. now apply Inv.
      * intros w c. cbn [conns rooms].
        destruct (decide (w = ws)) as [->|Hne].
        -- rewrite lookup_insert_eq. intros [= <-].
           exists (free_slot r), (join_room ws r). cbn [ws_room ws_player].
           rewrite lookup_insert_eq.
           repeat split. apply client_join_new.
        -- rewrite lookup_insert_ne by congruence. intros Hc.
           destruct (Inv w c Hc) as (p & room & Hp & Hr & Hcl).
           destruct (decide (ws_room c = key)) as [Hk|Hk].
           ++ rewrite Hk in *. rewrite E in Hr. injection Hr as <-.
              exists p, (join_room ws r). rewrite lookup_insert_eq.
              repeat split; [exact Hp|]. now apply client_join_old.
           ++ exists p, room. rewrite lookup_insert_ne by congruence.
              repeat split; assumption.
    + destruct (inherited key); [discriminate|].
      cbn in H. injection H as <- _.
      intros w c. cbn [conns rooms].
      destruct (decide (w = ws)) as [->|Hne].
      * rewrite lookup_insert_eq. intros [= <-].
        cbn [ws_room ws_player]. rewrite lookup_insert_eq.
        eexists. eexists. repeat split.
      * rewrite lookup_insert_ne by congruence. intros Hc.
        destruct (Inv w c Hc) as (p & room & Hp & Hr & Hcl).
        assert (Hk : ws_room c <> key) by congruence.
        exists p, room. rewrite !lookup_insert_ne by congruence.
        repeat split; assumption.
  - (* shoot *)
    unfold on_shoot, room_at in H.
    destruct (rooms S !! ws_room (conn_of S ws)) as [r|] eqn:E;
      [|destruct (inherited _); [discriminate | now injection H as <- _]].
    destruct (gameOver r); [now injection H as <- _|].
    destruct (ws_player (conn_of S ws)) as [q|]; [|discriminate].
    injection H as <- _. intros w c Hc. cbn [conns rooms] in *.
    destruct (Inv w c Hc) as (p & room & Hp & Hr & Hcl).
    destruct (decide (ws_room c = ws_room (conn_of S ws))) as [Hk|Hk].
    + rewrite Hk in *. rewrite E in Hr. injection Hr as <-.
      exists p, (shoot_in_room q rnd r). rewrite lookup_insert_eq.
      repeat split; [exact Hp|].
      unfold client in *. now rewrite clients_shoot_in_room.
    + exists p, room. rewrite lookup_insert_ne by congruence.
      repeat split; assumption.
  - (* rematch *)
    unfold on_rematch, room_at in H.
    destruct (rooms S !! ws_room (conn_of S ws)) as [r|] eqn:E;
      [|now injection H as <- _].
    destruct (negb (gameOver r)); [now injection H as <- _|].
    pose proof (clients_rematch_in_room (ws_player (conn_of S ws))
                  (next_oid S) rb rw r) as Hcr.
    destruct (rematch_in_room _ _ _ _ r) as [r' wr]. cbn [fst] in Hcr.
    injection H as <- _. intros w c Hc. cbn [conns rooms] in *.
    destruct (Inv w c Hc) as (p & room & Hp & Hr & Hcl).
    destruct (decide (ws_room c = ws_room (conn_of S ws))) as [Hk|Hk].
    + rewrite Hk in *. rewrite E in Hr. injection Hr as <-.
      exists p, r'. rewrite lookup_insert_eq.
      repeat split; [exact Hp|].
      unfold client in *. now rewrite Hcr.
    + exists p, room. rewrite lookup_insert_ne by congruence.
      repeat split; assumption.
Qed.

Lemma conns_bound_tick (S : Server) : conns_bound S -> conns_bound (tick S).
Proof.
  intros Inv w c Hc. unfold tick in *. cbn [conns rooms] in *.
  destruct (Inv w c Hc) as (p & room & Hp & Hr & Hcl).
  exists p, (tick_room room). rewrite lookup_fmap, Hr.
  repeat split; [exact Hp|].
  unfold client in *. now rewrite clients_tick_room.
Qed.

(** X21.  Connections and slots agree.  In every state the server can
    reach, each connection that has joined holds a slot, the room it
    recorded exists, and that room records the connection as the client
    of the slot.  Hence the [shoot] handler can only throw for a
    connection that never joined. *)
Theorem joined_connections_are_bound (S : Server) :
  server_reachable S ->
  conns_bound S
  /\ (forall ws rnd, on_shoot ws rnd S = TypeError -> conns S !! ws = None).
Proof.
  intros HS.
  assert (Inv : conns_bound S).
  { induction HS as [| S S' ws m out _ IH Hm | S _ IH].
    - intros w c Hc. cbn [conns init] in Hc.
      rewrite lookup_empty in Hc. discriminate.
    - eapply conns_bound_message; eauto.
    - now apply conns_bound_tick. }
  split; [exact Inv|].
  intros ws rnd H. destruct (conns S !! ws) as [c|] eqn:Hc; [|reflexivity].
  destruct (Inv ws c Hc) as (p & room & Hp & Hr & _).
  assert (Hcf : conn_of S ws = c)
    by (unfold conn_of; rewrite Hc; reflexivity).
  unfold on_shoot, room_at in H. rewrite Hcf, Hr, Hp in H.
  destruct (gameOver room); discriminate.
Qed.

Lemma joined_connections_are_bound_witness :
  exists S1,
    on_message 1 (MJoin "R1" 0 0.5) init = Completed S1 [Joined 1 Blue]
    /\ server_reachable S1
    /\ conns S1 !! 1%nat = Some (mkConn "R1" (Some Blue))
    /\ conns_bound S1
    /\ (forall rnd, on_shoot 1 rnd S1 <> TypeError).
Proof.
  assert (E : exists S1,
             on_message 1 (MJoin "R1" 0 0.5) init
             = Completed S1 [Joined 1 Blue]
             /\ conns S1 !! 1%nat = Some (mkConn "R1" (Some Blue))).
  { eexists. split.
    - cbn [on_message]. unfold on_join, room_at, init.
      cbn [rooms conns next_oid]. rewrite lookup_empty. reflexivity.
    - cbn [conns]. apply lookup_insert_eq. }
  destruct E as (S1 & E & Hc). exists S1.
  assert (HS : server_reachable S1)
    by (eapply sr_message; [apply sr_init | exact E]).
  destruct (joined_connections_are_bound S1 HS) as (Hb & Ht).
  split; [exact E|]. split; [exact HS|]. split; [exact Hc|].
  split; [exact Hb|].
  intros rnd H. apply Ht in H. congruence.
Defined.

End ServerJsHandlers.

(** * A projectile skipped by the loop (C9) *)

Section SkippedProjectile.
Import ServerJs ServerJsAux.

Ltac room_simpl :=
  cbn [blue white bullets clients gameOver winner rematchReady
       set_bullets end_game advance b_x b_y b_vx b_vy b_owner
       oid g_x g_y g_vx g_vy g_angle g_av g_radius
       set_x set_y set_v set_av].

Lemma beyond_bottom (b : Bullet) :
  0 <= b_x b <= WIDTH -> HEIGHT < b_y b -> out_of_bounds b = true.
Proof.
  intros Hx Hy. unfold out_of_bounds, js_lt, js_gt. unfold HEIGHT in *.
  rewrite (proj2 (Rltb_false (b_x b) 0)) by lra.
  rewrite (proj2 (Rltb_false WIDTH (b_x b))) by lra.
  rewrite (proj2 (Rltb_false (b_y b) 0)) by lra.
  rewrite (proj2 (Rltb_true 640 (b_y b))) by lra.
  reflexivity.
Qed.

(** A tick in which no projectile leaves the arena and no hit test
    holds. *)
Lemma tick_room_quiet (r : Room) :
  gameOver r = false ->
  Forall (fun b => out_of_bounds (advance b) = false) (bullets r) ->
  Forall (fun b => callback_hits b (guns_updated r) = []) (bullets r) ->
  gameOver (tick_room r) = false
  /\ bullets (tick_room r) = advance <$> bullets r
  /\ blue (tick_room r) = update (blue r)
  /\ white (tick_room r) = update (white r).
Proof.
  intros Hg Hin Hno.
  destruct (tick_room_guns r Hg) as [Eb Ew].
  destruct (tick_room_result r Hg) as (_ & Eg).
  assert (Et : tick_hits r = []).
  { transitivity (hits_of (bullets r) (guns_updated r)).
    - unfold tick_hits.
      apply (hit_trace_all (bullets r) [] (guns_updated r));
        [reflexivity | exact Hin].
    - clear Hin Eg. unfold hits_of.
      induction Hno as [|b l Hb _ IH]; [reflexivity|].
      cbn [flat_map]. now rewrite Hb, IH. }
  rewrite Et in Eg. repeat split; try assumption.
  unfold tick_room, bullets_forEach. rewrite Hg.
  set (r1 := mkRoom _ _ _ _ _ _ _).
  change (bullets r1) with (bullets r).
  apply (forEach_from_moves_all (bullets r) [] r1); [reflexivity | exact Hin].
Qed.

(** A gun at [x = 330] that only falls, slowly, away from the walls. *)
Lemma falling_gun_update (j : nat) (g : Gun) :
  (j <= 20)%nat ->
  g_x g = 330 -> g_vx g = 0 -> g_av g = 0 -> g_radius g = 20 ->
  520 <= g_y g <= 520 + 0.42 * INR j -> 0 <= g_vy g <= 0.02 * INR j ->
  update g = integrate g.
Proof.
  intros Hj Hx Hvx Hav Hr Hy Hvy.
  destruct (INR_below j 20 20 Hj INR_20) as [K0 K1].
  apply update_free; unfold integrate, speed_of; room_simpl;
    rewrite ?Hx, ?Hvx, ?Hav, ?Hr;
    unfold MAX_SPEED, MAX_ANGULAR_SPEED, WIDTH, HEIGHT, GRAVITY,
      LINEAR_DAMPING, ROTATION_DAMPING.
  - apply hypot_le; [lra|]. nra.
  - lra.
  - lra.
  - lra.
  - lra.
  - nra.
Qed.

(** A projectile of blue on the vertical [x = 90] hits nobody while
    white is at [x = 330]. *)
Lemma falling_misses (b : Bullet) (r : Room) :
  oid (blue r) = 0%nat -> g_x (white r) = 330 ->
  b_x b = 90 -> b_vx b = 0 -> b_owner b = 0%nat ->
  callback_hits b r = [].
Proof.
  intros Hob Hx Bx Bvx Bo. unfold callback_hits, hits_blue, hits_white.
  cbn [advance b_owner]. rewrite Bo, Hob, Nat.eqb_refl. cbn [negb andb].
  rewrite (hit_no_x _ (white r))
    by (right; room_simpl; rewrite Bx, Bvx, Hx; lra).
  now rewrite andb_false_r.
Qed.

(** The first shot of the match. *)
Lemma volley_first_shot :
  let r := shoot_in_room Blue 0.5
             (join_room 2 (join_room 1 (createRoom 0 0.25 0.5))) in
  gameOver r = false
  /\ bullets r = [mkBullet (90 + 0 * 32) (HEIGHT - 120 + 1 * 32)
                           (0 * BULLET_SPEED) (1 * BULLET_SPEED) 0]
  /\ blue r = mkGun 0 90 (HEIGHT - 120) (0 - 0 * RECOIL_FORCE)
                    (0 - 1 * RECOIL_FORCE) (PI / 2)
                    (0 - (0.5 - 0.5) * 0.06) 20
  /\ white r = mkGun 1 (WIDTH - 90) (HEIGHT - 120) 0 0 (0.5 * PI * 2) 0 20.
Proof.
  cbn zeta.
  unfold shoot_in_room, join_room, createRoom, shoot, new_Gun, player.
  room_simpl.
  replace (0.25 * PI * 2) with (PI / 2) by lra.
  rewrite cos_PI2, sin_PI2. repeat split.
Qed.

Lemma INR_8 : INR 8 = 8.
Proof. rewrite INR_IZR_INZ. reflexivity. Qed.

(** The tick between the two shots. *)
Lemma volley_first_tick :
  let r := shoot_in_room Blue 0.5
             (join_room 2 (join_room 1 (createRoom 0 0.25 0.5))) in
  gameOver (tick_room r) = false
  /\ bullets (tick_room r) = advance <$> bullets r
  /\ blue (tick_room r) = integrate (blue r)
  /\ white (tick_room r) = integrate (white r).
Proof.
  pose proof volley_first_shot as H. cbn zeta in *.
  set (r := shoot_in_room Blue 0.5 _) in *.
  destruct H as (Hg & Hb & Hbl & Hw).
  assert (Uw : update (white r) = integrate (white r)).
  { apply (falling_gun_update 0); rewrite ?Hw; room_simpl;
      unfold WIDTH, HEIGHT; cbn [INR]; lia || lra. }
  assert (Ub : update (blue r) = integrate (blue r)).
  { apply update_free; rewrite Hbl; unfold integrate, speed_of; room_simpl;
      unfold MAX_SPEED, MAX_ANGULAR_SPEED, WIDTH, HEIGHT, GRAVITY,
        LINEAR_DAMPING, ROTATION_DAMPING, RECOIL_FORCE.
    - apply hypot_le; [lra|]. nra.
    - lra.
    - lra.
    - lra.
    - lra.
    - lra. }
  destruct (tick_room_quiet r Hg) as (Tg & Tb & Tbl & Tw).
  - rewrite Hb. repeat constructor.
    apply in_bounds; room_simpl; unfold WIDTH, HEIGHT, BULLET_SPEED; lra.
  - rewrite Hb. repeat constructor.
    apply falling_misses; unfold guns_updated; room_simpl.
    + now rewrite update_oid, Hbl.
    + rewrite Uw, Hw. unfold integrate, WIDTH; room_simpl. lra.
    + lra.
    + unfold BULLET_SPEED. lra.
    + reflexivity.
  - rewrite Tbl, Tw, Ub, Uw. auto.
Qed.

Lemma falling_volley : falling 0 volley_room.
Proof.
  pose proof volley_first_shot as H.
  pose proof volley_first_tick as T. cbn zeta in *.
  unfold volley_room.
  set (r := shoot_in_room Blue 0.5 _) in *.
  destruct H as (Hg & Hb & Hbl & Hw).
  destruct T as (Tg & Tb & Tbl & Tw).
  unfold falling, shoot_in_room, shoot, player. room_simpl.
  rewrite Tg, Tb, Tbl, Tw, Hb, Hbl, Hw.
  unfold integrate. room_simpl. cbn [fmap list_fmap app INR].
  replace (PI / 2 + (0 - (0.5 - 0.5) * 0.06)) with (PI / 2) by lra.
  rewrite cos_PI2, sin_PI2.
  unfold WIDTH, HEIGHT, GRAVITY, LINEAR_DAMPING, ROTATION_DAMPING,
    RECOIL_FORCE, BULLET_SPEED.
  split; [reflexivity|]. split; [reflexivity|].
  split.
  { eexists. eexists. split; [reflexivity|]. room_simpl.
    repeat split; try reflexivity; lra. }
  repeat split; try reflexivity; lra.
Qed.

Lemma falling_step (k : nat) (r : Room) :
  falling k r -> (k < 8)%nat -> falling (S k) (tick_room r).
Proof.
  intros F Hk.
  destruct F as (Hg & Hob
                 & (b1 & b2 & Hb & X1 & Y1 & VX1 & VY1 & O1
                    & X2 & Y2 & VX2 & VY2 & O2)
                 & How & Hx & Hvx & Hav & Hr & Hy & Hvy).
  assert (K : 0 <= INR k <= 7).
  { apply (INR_below k 7 7); [lia|]. rewrite INR_IZR_INZ. reflexivity. }
  assert (Uw : update (white r) = integrate (white r))
    by (apply (falling_gun_update (S k)); try assumption; lia).
  rewrite S_INR in Hy, Hvy.
  destruct (tick_room_quiet r Hg) as (Tg & Tb & Tbl & Tw).
  - rewrite Hb. repeat constructor;
      apply in_bounds; room_simpl; unfold WIDTH, HEIGHT; lra.
  - rewrite Hb. repeat constructor;
      apply falling_misses; unfold guns_updated; room_simpl;
      rewrite ?update_oid, ?Uw; try assumption;
      unfold integrate; room_simpl; lra.
  - unfold falling. rewrite Tg, Tb, Tbl, Tw, Uw, update_oid, Hb, !S_INR.
    cbn [fmap list_fmap]. unfold integrate. room_simpl.
    unfold GRAVITY, LINEAR_DAMPING, ROTATION_DAMPING.
    split; [reflexivity|]. split; [exact Hob|].
    split.
    { eexists. eexists. split; [reflexivity|]. room_simpl.
      repeat split; try assumption; lra. }
    repeat split; try assumption; try lra; nra.
Qed.

Lemma falling_iter (k : nat) :
  (k <= 8)%nat -> falling k (Nat.iter k tick_room volley_room).
Proof.
  induction k as [|k IH]; intros Hk; [exact falling_volley|].
  rewrite Nat.iter_succ. apply falling_step; [apply IH; lia | lia].
Qed.

Lemma reachable_volley : reachable volley_room.
Proof.
  pose proof volley_first_tick as T. cbn zeta in T.
  destruct T as (Tg & _).
  unfold volley_room.
  apply reach_shoot; [| exact Tg |].
  - apply reach_tick.
    apply reach_shoot; [| reflexivity | reflexivity].
    apply reach_join; [| unfold clients_count; cbn; lia].
    apply reach_join; [| unfold clients_count; cbn; lia].
    apply reach_create.
  - rewrite clients_tick_room. reflexivity.
Qed.

(** C9 on its failing input.  Blue, whose gun points straight down,
    fires twice with one tick between the shots; eight ticks later
    ([volley_at_edge]) the match is running with the two projectiles
    [b1], [b2] in the array, both inside the arena, [b1] one step from
    the lower edge.  In the next tick [b1] leaves the arena and is
    spliced out; [b2], whose step would have kept it inside the arena,
    moves to the index just visited, is not visited and ends the tick
    where it was, not advanced. *)
Theorem splice_skips_next_projectile :
  reachable volley_at_edge
  /\ gameOver volley_at_edge = false
  /\ exists b1 b2,
       bullets volley_at_edge = [b1; b2]
       /\ out_of_bounds b1 = false /\ out_of_bounds b2 = false
       /\ out_of_bounds (advance b1) = true
       /\ out_of_bounds (advance b2) = false
       /\ advance b2 <> b2
       /\ bullets (tick_room volley_at_edge) = [b2].
Proof.
  unfold volley_at_edge.
  split; [apply reachable_iter, reachable_volley|].
  pose proof (falling_iter 8 ltac:(lia)) as F.
  set (r := Nat.iter 8 tick_room volley_room) in *.
  destruct F as (Hg & Hob
                 & (b1 & b2 & Hb & X1 & Y1 & VX1 & VY1 & O1
                    & X2 & Y2 & VX2 & VY2 & O2)
                 & How & Hx & Hvx & Hav & Hr & Hy & Hvy).
  rewrite INR_8 in Y1, Y2.
  split; [exact Hg|]. exists b1, b2.
  assert (Ho1 : out_of_bounds (advance b1) = true)
    by (apply beyond_bottom; room_simpl; unfold WIDTH, HEIGHT; lra).
  split; [exact Hb|].
  split; [apply in_bounds; unfold WIDTH, HEIGHT; lra|].
  split; [apply in_bounds; unfold WIDTH, HEIGHT; lra|].
  split; [exact Ho1|].
  split; [apply in_bounds; room_simpl; unfold WIDTH, HEIGHT; lra|].
  split.
  { intros E. apply (f_equal b_y) in E. cbn [advance b_y] in E. lra. }
  unfold tick_room, bullets_forEach. rewrite Hg.
  set (r1 := mkRoom _ _ _ _ _ _ _).
  assert (B1 : bullets r1 = [b1; b2]) by exact Hb.
  rewrite B1. cbn [length].
  rewrite (forEach_from_at 1 0 r1 b1) by (rewrite B1; reflexivity).
  set (r2 := bullet_callback 0 b1 r1).
  assert (B2 : bullets r2 = [b2]).
  { unfold r2. rewrite (proj2 (proj2 (bullet_callback_result _ _ _))).
    rewrite Ho1, B1. reflexivity. }
  rewrite forEach_from_past by (rewrite B2; reflexivity).
  cbn [forEach_from]. exact B2.
Qed.

End SkippedProjectile.
